(** * A per-key token-bucket rate limiter (ratelimiter.go)

    The development embeds [ratelimiter.go]: the bucket record, the
    construction-time validation, the refill/consume arithmetic of [Allow],
    the retry loop over the concurrent map, the eviction goroutine and
    [Close].  Unsigned integers are integers modulo [2^64], instants and
    durations are integer nanoseconds, and [float64] is IEEE binary64 as
    specified by [SpecFloat]. *)

From Stdlib Require Import ZArith Lia Floats.SpecFloat.
From stdpp Require Import base option list gmap strings.

Local Open Scope Z_scope.

(** ** Unsigned machine integers ([uint] on a 64-bit target) *)

Definition uint_size : Z := 64.
Definition MaxUint : Z := 2 ^ uint_size - 1.

(** Arithmetic on [uint] wraps around. *)
Definition wrap (z : Z) : Z := z mod 2 ^ uint_size.

(** ** IEEE binary64 *)

Module Float64.

Definition float64 : Type := spec_float.

Definition prec : Z := 53.
Definition emax : Z := 1024.

Definition mul : float64 → float64 → float64 := SFmul prec emax.
Definition add : float64 → float64 → float64 := SFadd prec emax.
Definition sub : float64 → float64 → float64 := SFsub prec emax.
Definition div : float64 → float64 → float64 := SFdiv prec emax.
Definition ltb : float64 → float64 → bool := SFltb.
Definition gtb (x y : float64) : bool := SFltb y x.

(** Conversion of an integer (a constant or an integer variable) to
    [float64]: round to nearest, ties to even. *)
Definition of_Z (z : Z) : float64 := binary_normalize prec emax z 0 false.

Definition zero : float64 := S754_zero false.

(** The integer part of a float, rounding toward zero; nothing for
    infinities and NaN. *)
Definition trunc (f : float64) : option Z :=
  match f with
  | S754_zero _ => Some 0
  | S754_finite s m (Zneg p) => Some (cond_Zopp s (Zpos m / 2 ^ Zpos p))
  | S754_finite s m e => Some (cond_Zopp s (Zpos m * 2 ^ e))
  | S754_infinity _ | S754_nan => None
  end.

(** The mathematical floor of a float. *)
Definition floor (f : float64) : option Z :=
  match f with
  | S754_zero _ => Some 0
  | S754_finite s m (Zneg p) => Some (cond_Zopp s (Zpos m) / 2 ^ Zpos p)
  | S754_finite s m e => Some (cond_Zopp s (Zpos m * 2 ^ e))
  | S754_infinity _ | S754_nan => None
  end.

Definition is_nan (f : float64) : bool :=
  match f with S754_nan => true | _ => false end.

(** Zero or finite: neither an infinity nor NaN. *)
Definition is_finite (f : float64) : bool :=
  match f with S754_zero _ | S754_finite _ _ _ => true | _ => false end.

End Float64.

Import Float64.

(** ** Conversion [uint(f)] of a [float64]

    The Go specification fixes the conversion of a float to an integer only
    when the truncated value is representable in the target type; otherwise
    "the conversion succeeds but the result value is implementation-
    dependent".  The dependent part is an interface implemented per target. *)

Class Arch := { cvt_unrepresentable : float64 → Z }.

Definition uint_of_float64 `{Arch} (f : float64) : Z :=
  match trunc f with
  | Some z => if decide (0 ≤ z ≤ MaxUint) then z else wrap (cvt_unrepresentable f)
  | None => wrap (cvt_unrepresentable f)
  end.

(** amd64, following the sequence the gc toolchain emits for a target
    without an unsigned conversion instruction: CVTTSD2SQ truncates to a
    signed 64-bit integer and yields the "integer indefinite" value [-2^63]
    when the result does not fit; a float below [2^63] is converted that way
    and reinterpreted as unsigned, a float from [2^63] up is converted after
    subtracting [2^63], and the top bit is set afterwards. *)
Definition cvttsd2sq (f : float64) : Z :=
  match trunc f with
  | Some z => if decide (- 2 ^ 63 ≤ z < 2 ^ 63) then z else - 2 ^ 63
  | None => - 2 ^ 63
  end.

Definition amd64_cvt (f : float64) : Z :=
  if ltb f (of_Z (2 ^ 63)) then wrap (cvttsd2sq f)
  else Z.lor (wrap (cvttsd2sq (sub f (of_Z (2 ^ 63))))) (2 ^ 63).

Definition amd64 : Arch := {| cvt_unrepresentable := amd64_cvt |}.

(** arm64: FCVTZU saturates, and converts NaN to zero. *)
Definition arm64_cvt (f : float64) : Z :=
  match f with
  | S754_nan | S754_zero _ => 0
  | S754_infinity s | S754_finite s _ _ => if s then 0 else MaxUint
  end.

Definition arm64 : Arch := {| cvt_unrepresentable := arm64_cvt |}.

(** ** Package [time]: instants and durations in nanoseconds *)

Module GoTime.

Definition Time : Type := Z.
Definition Duration : Type := Z.

Definition minDuration : Duration := - 2 ^ 63.
Definition maxDuration : Duration := 2 ^ 63 - 1.

Definition Second : Duration := 1000000000.
Definition Minute : Duration := 60 * Second.
Definition Hour : Duration := 60 * Minute.

(** [t.Sub(u)]: the difference, saturated to the range of [Duration]. *)
Definition Sub (t u : Time) : Duration :=
  Z.max minDuration (Z.min maxDuration (t - u)).

(** [d.Seconds()]: [float64(d / Second) + float64(d % Second) / 1e9],
    with Go's truncated integer division. *)
Definition Seconds (d : Duration) : float64 :=
  let sec := Z.quot d Second in
  let nsec := Z.rem d Second in
  add (of_Z sec) (div (of_Z nsec) (of_Z 1000000000)).

End GoTime.

Import GoTime.

(** ** The data model *)

Definition maxCASRetries : nat := 100.

Record bucket := Bucket {
  tokens : Z;
  lastRefill : Time;
  lastActivity : Time
}.

#[global] Instance bucket_eq_dec : EqDecision bucket.
Proof. solve_decision. Defined.

(** A channel that carries no value is either open or closed. *)
Inductive chan := ChanOpen | ChanClosed.

Record rateLimiter := RateLimiter {
  tokenRate : float64;
  burstSize : Z;
  m : gmap string bucket;
  done : chan
}.

(** ** Construction *)

Inductive error := errors_New (msg : string).

Definition validate (tokenRate : float64) (burstSize : Z) : option error :=
  if ltb tokenRate (of_Z 0) then
    Some (errors_New "token rate should not be negative")
  else if gtb (mul tokenRate (of_Z 5000)) (of_Z MaxUint) then
    Some (errors_New "token rate limit overflow")
  else
    let maxValue := MaxUint in
    if gtb tokenRate (div (of_Z (wrap (maxValue - burstSize))) (of_Z 5000)) then
      Some (errors_New "limit overflow")
    else None.

(** [New] also starts the eviction goroutine, which is part of the
    concurrent system below. *)
Definition New (tokenRate : float64) (burstSize : Z) : error + rateLimiter :=
  match validate tokenRate burstSize with
  | Some err => inl err
  | None =>
      inr {| tokenRate := tokenRate; burstSize := burstSize;
             m := ∅; done := ChanOpen |}
  end.

(** ** Shutdown *)

Inductive outcome (A : Type) :=
| Returned (a : A)
| Panicked (msg : string).
Arguments Returned {A} a.
Arguments Panicked {A} msg.

(** [close(r.done)]: closing a closed channel panics. *)
Definition Close (r : rateLimiter) : outcome rateLimiter :=
  match done r with
  | ChanOpen =>
      Returned {| tokenRate := tokenRate r; burstSize := burstSize r;
                  m := m r; done := ChanClosed |}
  | ChanClosed => Panicked "close of closed channel"
  end.

(** ** The shared world and its primitive operations

    The world holds the limiter (whose map [m] is the [sync.Map]), the
    number of clock readings taken so far, and the log of operations
    performed on the map.  The package variable [now] is an oracle
    [clock : nat → Time]: the [i]-th call of [now()] returns [clock i], so
    that any clock, monotonic or not, is covered. *)

Inductive event :=
| EvLoad (key : string)
| EvLoadOrStore (key : string) (value : bucket)
| EvCompareAndSwap (key : string) (old new : bucket)
| EvRange
| EvDelete (key : string).

Record world := World {
  lim : rateLimiter;
  ticks : nat;
  trace : list event
}.

(** State-passing computations over the world. *)
Definition M (A : Type) : Type := world → A * world.

#[global] Instance M_ret : MRet M := λ A a w, (a, w).
#[global] Instance M_bind : MBind M :=
  λ A B f c w, let '(a, w') := c w in f a w'.

Definition with_map (r : rateLimiter) (s : gmap string bucket) : rateLimiter :=
  {| tokenRate := tokenRate r; burstSize := burstSize r; m := s; done := done r |}.

Definition log (e : event) : M unit :=
  λ w, (tt, {| lim := lim w; ticks := ticks w; trace := trace w ++ [e] |}).

Definition get_limiter : M rateLimiter := λ w, (lim w, w).

Definition put_map (s : gmap string bucket) : M unit :=
  λ w, (tt, {| lim := with_map (lim w) s; ticks := ticks w; trace := trace w |}).

Section Limiter.

Context {arch : Arch}.
Variable clock : nat → Time.

(** [now()] *)
Definition now : M Time :=
  λ w, (clock (ticks w),
        {| lim := lim w; ticks := S (ticks w); trace := trace w |}).

(** [r.m.Load(key)] *)
Definition Load (key : string) : M (option bucket) :=
  _ ← log (EvLoad key);
  r ← get_limiter;
  mret (m r !! key).

(** [r.m.LoadOrStore(key, value)]: the value present and [true], or else
    [value], stored, and [false]. *)
Definition LoadOrStore (key : string) (value : bucket) : M (bucket * bool) :=
  _ ← log (EvLoadOrStore key value);
  r ← get_limiter;
  match m r !! key with
  | Some actual => mret (actual, true)
  | None => _ ← put_map (<[key := value]> (m r)); mret (value, false)
  end.

(** [r.m.CompareAndSwap(key, old, new)] *)
Definition CompareAndSwap (key : string) (old new : bucket) : M bool :=
  _ ← log (EvCompareAndSwap key old new);
  r ← get_limiter;
  match m r !! key with
  | Some cur =>
      if decide (cur = old)
      then _ ← put_map (<[key := new]> (m r)); mret true
      else mret false
  | None => mret false
  end.

(** [r.m.Delete(key)] *)
Definition Delete (key : string) : M unit :=
  _ ← log (EvDelete key);
  r ← get_limiter;
  put_map (delete key (m r)).

(** ** The refill/consume arithmetic of [Allow] *)

(** The bucket created for a key seen for the first time: one token is
    already consumed for the current request. *)
Definition fresh (r : rateLimiter) (t : Time) : bucket :=
  {| tokens := wrap (burstSize r - 1); lastRefill := t; lastActivity := t |}.

(** [uint(r.tokenRate * timeElapsed.Seconds())] *)
Definition granted (r : rateLimiter) (timeElapsed : Duration) : Z :=
  uint_of_float64 (mul (tokenRate r) (Seconds timeElapsed)).

(** "first, fill the bucket with desired token rate" *)
Definition refill (r : rateLimiter) (buck : bucket) (t : Time) : bucket :=
  let timeElapsed := Sub t (lastRefill buck) in
  let newTokens :=
    Z.min (burstSize r) (wrap (granted r timeElapsed + tokens buck)) in
  if decide (tokens buck ≠ newTokens)
  then {| tokens := newTokens; lastRefill := t;
          lastActivity := lastActivity buck |}
  else buck.

(** "consume a token" *)
Definition consume (buck : bucket) (t : Time) : bucket :=
  {| tokens := wrap (tokens buck - 1); lastRefill := lastRefill buck;
     lastActivity := t |}.

(** ** [Allow], sequentially

    The map holds buckets only, so the type assertion [val.(bucket)] always
    succeeds and its panic has no counterpart here. *)

(** The part of the loop body after the snapshot [val] is known.  [None]
    stands for [continue]. *)
Definition refill_and_swap (key : string) (val : bucket) : M (option bool) :=
  t ← now;
  r ← get_limiter;
  let buck := refill r val t in
  if decide (0 < tokens buck) then
    swapped ← CompareAndSwap key val (consume buck t);
    mret (if swapped : bool then Some true else None)
  else mret (Some false).

(** One iteration of the retry loop. *)
Definition Allow_attempt (key : string) : M (option bool) :=
  t ← now;
  val ← Load key;
  match val with
  | None =>
      r ← get_limiter;
      '(actual, loaded) ← LoadOrStore key (fresh r t);
      if loaded : bool then refill_and_swap key actual
      else mret (Some true)
  | Some val => refill_and_swap key val
  end.

(** [for range maxCASRetries { ... }] followed by [return false]. *)
Fixpoint Allow_loop (n : nat) (key : string) : M bool :=
  match n with
  | O => mret false
  | S n' =>
      res ← Allow_attempt key;
      match res with
      | Some verdict => mret verdict
      | None => Allow_loop n' key
      end
  end.

Definition Allow (key : string) : M bool :=
  r ← get_limiter;
  if decide (burstSize r = 0) then mret false
  else Allow_loop maxCASRetries key.

(** [calls] successive calls of [Allow key], with their verdicts. *)
Fixpoint Allow_many (calls : nat) (key : string) : M (list bool) :=
  match calls with
  | O => mret []
  | S calls' =>
      v ← Allow key;
      vs ← Allow_many calls' key;
      mret (v :: vs)
  end.

(** ** [Allow] as a goroutine

    Between two operations on the map or the clock other goroutines may
    run.  A call of [Allow] is therefore also given as a machine whose
    states are the program points in front of each such operation: the
    zero-capacity test, the head of the loop with [n] iterations to go, and,
    inside an iteration with [n] more to follow, [Load], [LoadOrStore], the
    second [now()] with the refill, and [CompareAndSwap]. *)

Inductive thread :=
| TEntry (key : string)
| TLoop (key : string) (n : nat)
| TLoad (key : string) (n : nat) (t : Time)
| TLoadOrStore (key : string) (n : nat) (b : bucket)
| TNow (key : string) (n : nat) (val : bucket)
| TSwap (key : string) (n : nat) (val buck : bucket)
| TDone (verdict : bool).

Definition thread_step (th : thread) : M thread :=
  match th with
  | TEntry key =>
      r ← get_limiter;
      mret (if decide (burstSize r = 0) then TDone false
            else TLoop key maxCASRetries)
  | TLoop key O => mret (TDone false)
  | TLoop key (S n) => t ← now; mret (TLoad key n t)
  | TLoad key n t =>
      val ← Load key;
      r ← get_limiter;
      mret (match val with
            | None => TLoadOrStore key n (fresh r t)
            | Some val => TNow key n val
            end)
  | TLoadOrStore key n b =>
      '(actual, loaded) ← LoadOrStore key b;
      mret (if loaded : bool then TNow key n actual else TDone true)
  | TNow key n val =>
      t ← now;
      r ← get_limiter;
      let buck := refill r val t in
      mret (if decide (0 < tokens buck)
            then TSwap key n val (consume buck t)
            else TDone false)
  | TSwap key n val buck =>
      swapped ← CompareAndSwap key val buck;
      mret (if swapped : bool then TDone true else TLoop key n)
  | TDone verdict => mret (TDone verdict)
  end.

(** A goroutine running alone for at most [fuel] steps. *)
Fixpoint run_alone (fuel : nat) (th : thread) : M thread :=
  match fuel with
  | O => mret th
  | S fuel' =>
      match th with
      | TDone _ => mret th
      | _ => th' ← thread_step th; run_alone fuel' th'
      end
  end.

(** ** The eviction goroutine started by [New] *)

Inductive sweeper :=
| SwSelect
| SwRange (keys : list string)
| SwVisit (key : string) (buck : bucket) (rest : list string)
| SwDelete (key : string) (rest : list string)
| SwReturned.

(** The ticker fires in [select]; [Range] then visits the keys, and the
    callback reads the clock and deletes a key idle for an hour or more. *)
Definition sweeper_step (sw : sweeper) : M sweeper :=
  match sw with
  | SwSelect =>
      _ ← log EvRange;
      r ← get_limiter;
      mret (SwRange (map_to_list (m r)).*1)
  | SwRange [] => mret SwSelect
  | SwRange (key :: rest) =>
      r ← get_limiter;
      mret (match m r !! key with
            | Some buck => SwVisit key buck rest
            | None => SwRange rest
            end)
  | SwVisit key buck rest =>
      t ← now;
      mret (if decide (Hour ≤ Sub t (lastActivity buck))
            then SwDelete key rest else SwRange rest)
  | SwDelete key rest => _ ← Delete key; mret (SwRange rest)
  | SwReturned => mret SwReturned
  end.

(** ** The concurrent system: calls of [Allow], the sweeper, [Close]

    A step is the arrival of a call, a step of one of the calls, a step of
    the sweeper, the sweeper leaving [select] on the closed channel, or a
    [Close] that returns.  A [Close] that panics ends the process and so has
    no successor state. *)

Record config := Config {
  shared : world;
  threads : list thread;
  evictor : sweeper
}.

Definition with_done (w : world) (r : rateLimiter) : world :=
  {| lim := r; ticks := ticks w; trace := trace w |}.

Inductive sys_step : config → config → Prop :=
| step_call cfg key :
    sys_step cfg (Config (shared cfg) (threads cfg ++ [TEntry key]) (evictor cfg))
| step_thread cfg i th th' w' :
    threads cfg !! i = Some th →
    thread_step th (shared cfg) = (th', w') →
    sys_step cfg (Config w' (<[i := th']> (threads cfg)) (evictor cfg))
| step_sweeper cfg sw' w' :
    sweeper_step (evictor cfg) (shared cfg) = (sw', w') →
    sys_step cfg (Config w' (threads cfg) sw')
| step_sweeper_done cfg :
    evictor cfg = SwSelect →
    done (lim (shared cfg)) = ChanClosed →
    sys_step cfg (Config (shared cfg) (threads cfg) SwReturned)
| step_close cfg r' :
    Close (lim (shared cfg)) = Returned r' →
    sys_step cfg (Config (with_done (shared cfg) r') (threads cfg) (evictor cfg)).

(** The system right after [New] returned [r]. *)
Definition initial (r : rateLimiter) : config :=
  Config (World r O []) [] SwSelect.

Definition reachable (r : rateLimiter) (cfg : config) : Prop :=
  rtc sys_step (initial r) cfg.

(** ** Schedules of concurrent [Allow] calls

    A schedule names, step by step, the goroutine that runs next. *)

Definition step_at (i : nat) (cfg : config) : config :=
  match threads cfg !! i with
  | Some th =>
      let '(th', w') := thread_step th (shared cfg) in
      Config w' (<[i := th']> (threads cfg)) (evictor cfg)
  | None => cfg
  end.

Definition exec (sched : list nat) (cfg : config) : config :=
  foldl (λ c i, step_at i c) cfg sched.

(** [calls] simultaneous calls of [Allow key] on the limiter [r]. *)
Definition concurrent_calls (r : rateLimiter) (calls : nat) (key : string) : config :=
  Config (World r O []) (replicate calls (TEntry key)) SwSelect.

Definition is_done (th : thread) : bool :=
  match th with TDone _ => true | _ => false end.

Definition finished (cfg : config) : bool := forallb is_done (threads cfg).

Definition is_verdict (v : bool) (th : thread) : bool :=
  match th with TDone v' => bool_decide (v = v') | _ => false end.

Definition allowed (cfg : config) : nat :=
  length (filter (λ th, is_verdict true th = true) (threads cfg)).

Definition denied (cfg : config) : nat :=
  length (filter (λ th, is_verdict false th = true) (threads cfg)).

End Limiter.

(** ** Notions used in the statements *)

(** Zero or finite, of magnitude below [2 ^ B]. *)
Definition below (B : Z) (x : float64) : Prop :=
  match x with
  | S754_zero _ => True
  | S754_finite _ mm e => Zdigits2 (Zpos mm) + e ≤ B
  | _ => False
  end.

(** Not below zero: a NaN, or a value whose sign bit is clear. *)
Definition not_negative (x : float64) : Prop :=
  match x with
  | S754_finite true _ _ | S754_infinity true | S754_zero true => False
  | _ => True
  end.

(** The tokens a key can still spend: those of its bucket, or a full burst
    when it has none. *)
Definition remaining (r : rateLimiter) (key : string) : Z :=
  match m r !! key with
  | Some buck => tokens buck
  | None => burstSize r
  end.

(** The invariant of the data model: a token count lies between zero and
    the burst size. *)
Definition bucket_ok (r : rateLimiter) (buck : bucket) : Prop :=
  0 ≤ tokens buck ≤ burstSize r.

Definition store_ok (r : rateLimiter) (w : world) : Prop :=
  burstSize (lim w) = burstSize r ∧
  ∀ key buck, m (lim w) !! key = Some buck → bucket_ok r buck.

(** What a goroutine inside [Allow] holds: past the zero-capacity test the
    burst size is not zero, and a bucket about to be written is in range. *)
Definition thread_ok (r : rateLimiter) (th : thread) : Prop :=
  match th with
  | TEntry _ | TDone _ => True
  | TLoop _ _ | TLoad _ _ _ | TNow _ _ _ => burstSize r ≠ 0
  | TLoadOrStore _ _ buck | TSwap _ _ _ buck =>
      burstSize r ≠ 0 ∧ bucket_ok r buck
  end.

Definition system_ok (r : rateLimiter) (cfg : config) : Prop :=
  store_ok r (shared cfg) ∧ Forall (thread_ok r) (threads cfg).

(** The refill as the specification words it: the whole tokens accrued
    over the elapsed time, [floor(tokenRate * elapsedSeconds)], and the
    candidate count [min(burstSize, oldTokens + grantable)], both over the
    integers. *)
Definition spec_grantable (r : rateLimiter) (buck : bucket) (t : Time) : option Z :=
  floor (mul (tokenRate r) (Seconds (Sub t (lastRefill buck)))).

Definition spec_candidateTokens (r : rateLimiter) (buck : bucket) (grantable : Z) : Z :=
  Z.min (burstSize r) (tokens buck + grantable).

(** The bucket of a fresh key as the specification words it:
    [tokens = burstSize - 1], [lastRefillTime = lastActivityTime = t]. *)
Definition spec_fresh (burstSize : Z) (t : Time) : bucket :=
  {| tokens := burstSize - 1; lastRefill := t; lastActivity := t |}.

(** An operation that only reads the map. *)
Definition is_read (e : event) : Prop :=
  match e with
  | EvLoad _ | EvRange => True
  | _ => False
  end.

(** A goroutine that is about to enter [Allow] or has left it. *)
Definition outside_loop (th : thread) : Prop :=
  match th with
  | TEntry _ | TDone _ => True
  | _ => False
  end.

Definition zero_capacity (cfg : config) : Prop :=
  burstSize (lim (shared cfg)) = 0 ∧
  m (lim (shared cfg)) = ∅ ∧
  Forall outside_loop (threads cfg).

(** The exact value of a finite float is [float_num f / float_den f]. *)
Definition float_num (f : float64) : Z :=
  match f with
  | S754_finite s mm e => cond_Zopp s (Zpos mm) * 2 ^ Z.max e 0
  | _ => 0
  end.

Definition float_den (f : float64) : Z :=
  match f with
  | S754_finite _ _ e => 2 ^ Z.max (- e) 0
  | _ => 1
  end.

(** [tokenRate * 5000 + burstSize] exceeds [MaxUint], over the rationals. *)
Definition spec_overflows (tokenRate : float64) (burstSize : Z) : Prop :=
  is_finite tokenRate = true ∧
  MaxUint * float_den tokenRate
  < float_num tokenRate * 5000 + burstSize * float_den tokenRate.

(** The rate 3689348814741910.5, halfway between the two rates of the
    boundary test cases, [MaxUint / 5000] and [MaxUint / 5000 + 1]. *)
Definition boundary_rate : float64 := S754_finite false 7378697629483821 (-1).

(** A limiter of rate one and burst ten, a bucket refilled at second ten,
    and a clock reading of second seven. *)
Definition skew_limiter : rateLimiter :=
  {| tokenRate := of_Z 1; burstSize := 10; m := ∅; done := ChanOpen |}.
Definition skew_bucket : bucket :=
  {| tokens := 5; lastRefill := 10 * Second; lastActivity := 10 * Second |}.
Definition skew_now : Time := 7 * Second.
Definition skew_world : world :=
  {| lim := with_map skew_limiter {["key" := skew_bucket]};
     ticks := O; trace := [] |}.

(** ** Races between calls of [Allow] for one key *)

(** A schedule for 102 calls in which goroutine 1 loses every one of its
    hundred compare-and-swap attempts: goroutine 0 creates the bucket, and
    in round [j] goroutine 1 takes its snapshot, goroutine [1 + j] runs from
    its start to its successful swap, and goroutine 1 then fails to swap. *)
Definition starve_round (j : nat) : list nat :=
  [1; 1; 1]%nat ++ replicate 5 (1 + j)%nat ++ [1%nat].

Definition starve : list nat :=
  [0; 0; 0; 0; 1]%nat ++ concat (map starve_round (seq 1 100)) ++ [1%nat].

(** An upper bound on the steps a goroutine still takes. *)
Definition steps_left (th : thread) : nat :=
  match th with
  | TEntry _ => 5 * maxCASRetries + 2
  | TLoop _ n => 5 * n + 1
  | TLoad _ n _ => 5 * n + 5
  | TLoadOrStore _ n _ => 5 * n + 4
  | TNow _ n _ => 5 * n + 3
  | TSwap _ n _ _ => 5 * n + 2
  | TDone _ => 0
  end%nat.

Definition occurrences (i : nat) (sched : list nat) : nat :=
  length (filter (λ j, j = i) sched).

(** A schedule that lets each of the [calls] goroutines run to its end. *)
Definition complete (calls : nat) (sched : list nat) : bool :=
  forallb (λ i, 5 * maxCASRetries + 2 <=? occurrences i sched)%nat (seq 0 calls).

Definition left_at (cfg : config) (j : nat) : nat :=
  from_option steps_left O (threads cfg !! j).

(** ** Notions used for keys, the sweeper and shutdown *)

(** The key a goroutine works on; none once it has returned. *)
Definition thread_key (th : thread) : option string :=
  match th with
  | TEntry k | TLoop k _ | TLoad k _ _ | TLoadOrStore k _ _
  | TNow k _ _ | TSwap k _ _ _ => Some k
  | TDone _ => None
  end.

(** The fields of a limiter that [Allow] and the sweeper never assign. *)
Definition same_settings (r r' : rateLimiter) : Prop :=
  tokenRate r' = tokenRate r ∧ burstSize r' = burstSize r ∧ done r' = done r.

(** What a goroutine holds while calls race for the tokens of one key on a
    limiter of burst size [N] that never refills: a snapshot is a count
    between zero and [N], and a bucket about to be swapped in holds one
    token less than the snapshot, which held at least one. *)
Definition spend_ok (N : Z) (key : string) (th : thread) : Prop :=
  match th with
  | TEntry k | TLoop k _ | TLoad k _ _ => k = key
  | TLoadOrStore k _ b => k = key ∧ tokens b = N - 1
  | TNow k _ val => k = key ∧ 0 ≤ tokens val ≤ N
  | TSwap k _ val buck =>
      k = key ∧ 0 < tokens val ≤ N ∧ tokens buck = tokens val - 1
  | TDone _ => True
  end.

(** Every token is accounted for: the tokens left in the bucket and the
    calls allowed so far add up to the burst size. *)
Definition spend_inv (r : rateLimiter) (key : string) (cfg : config) : Prop :=
  tokenRate (lim (shared cfg)) = zero ∧
  burstSize (lim (shared cfg)) = burstSize r ∧
  match m (lim (shared cfg)) !! key with
  | None => allowed cfg = O
  | Some b => 0 ≤ tokens b ∧ tokens b + Z.of_nat (allowed cfg) = burstSize r
  end ∧
  Forall (spend_ok (burstSize r) key) (threads cfg).

(** What a sweep at time [t] leaves of the entry of a key: nothing when
    [t.Sub(buck.lastActivity) >= time.Hour], the bucket as it is otherwise. *)
Definition swept (t : Time) (entry : option bucket) : option bucket :=
  match entry with
  | Some buck =>
      if decide (Hour ≤ Sub t (lastActivity buck)) then None else Some buck
  | None => None
  end.

(** The sweeper running on its own until it is back in [select]. *)
Fixpoint run_sweeper (clock : nat → Time) (fuel : nat) (sw : sweeper) : M sweeper :=
  match fuel with
  | O => mret sw
  | S fuel' =>
      sw' ← sweeper_step clock sw;
      match sw' with
      | SwSelect | SwReturned => mret sw'
      | _ => run_sweeper clock fuel' sw'
      end
  end.

(** One firing of the ticker: a whole pass of [Range] over the map, at most
    three steps for each key. *)
Definition sweep (clock : nat → Time) (w : world) : sweeper * world :=
  run_sweeper clock (3 * size (m (lim w)) + 2) SwSelect w.

(** Successive calls of [Allow], one for each key of a list. *)
Fixpoint Allow_each `{Arch} (clock : nat → Time) (keys : list string) : M (list bool) :=
  match keys with
  | [] => mret []
  | key :: rest =>
      v ← Allow clock key;
      vs ← Allow_each clock rest;
      mret (v :: vs)
  end.

(** The number of earlier calls for a key. *)
Definition calls_for (key : string) (seen : list string) : nat :=
  length (filter (λ k, k = key) seen).

(** With a budget of [N] calls for each key, the verdicts of a run of
    calls, [seen] being the keys of the calls before. *)
Fixpoint budget_verdicts (N : Z) (seen keys : list string) : list bool :=
  match keys with
  | [] => []
  | key :: rest =>
      bool_decide (Z.of_nat (calls_for key seen) < N)
        :: budget_verdicts N (key :: seen) rest
  end.

(** ** Runs of the calls together with the sweeper

    A schedule of turns names, step by step, who runs next: one of the
    calls, or the sweeper goroutine started by [New]. *)

Inductive turn :=
| Call (i : nat)
| Sweeper.

Definition sweeper_at (clock : nat → Time) (cfg : config) : config :=
  let '(sw', w') := sweeper_step clock (evictor cfg) (shared cfg) in
  Config w' (threads cfg) sw'.

Definition turn_at `{Arch} (clock : nat → Time) (tn : turn) (cfg : config) : config :=
  match tn with
  | Call i => step_at clock i cfg
  | Sweeper => sweeper_at clock cfg
  end.

Definition run `{Arch} (clock : nat → Time) (sched : list turn) (cfg : config) : config :=
  foldl (λ c tn, turn_at clock tn c) cfg sched.

(** The turns of the calls in a schedule. *)
Definition calls_of (sched : list turn) : list nat :=
  flat_map (λ tn, match tn with Call i => [i] | Sweeper => [] end) sched.

(** A time that the clock returned in one of its first [k] readings. *)
Definition read_before (clock : nat → Time) (k : nat) (t : Time) : Prop :=
  ∃ i, (i < k)%nat ∧ t = clock i.

Definition stamped (clock : nat → Time) (k : nat) (b : bucket) : Prop :=
  read_before clock k (lastRefill b) ∧ read_before clock k (lastActivity b).

(** The times and buckets a goroutine holds carry readings of the clock. *)
Definition thread_stamped (clock : nat → Time) (k : nat) (th : thread) : Prop :=
  match th with
  | TLoad _ _ t => read_before clock k t
  | TLoadOrStore _ _ b => stamped clock k b
  | TNow _ _ val => stamped clock k val
  | TSwap _ _ val buck => stamped clock k val ∧ stamped clock k buck
  | _ => True
  end.

(** A sweeper that is not about to delete. *)
Definition sweeper_quiet (clock : nat → Time) (k : nat) (sw : sweeper) : Prop :=
  match sw with
  | SwVisit _ buck _ => stamped clock k buck
  | SwDelete _ _ => False
  | _ => True
  end.

Definition stamps_inv (clock : nat → Time) (cfg : config) : Prop :=
  (∀ k0 b, m (lim (shared cfg)) !! k0 = Some b →
           stamped clock (ticks (shared cfg)) b) ∧
  Forall (thread_stamped clock (ticks (shared cfg))) (threads cfg) ∧
  sweeper_quiet clock (ticks (shared cfg)) (evictor cfg).

(** The snapshot [val] of a goroutine with [n] iterations left after the
    current one was the value of the key when [wi] calls had written; each
    of the [99 - n] swaps the goroutine lost so far was lost to a write of
    another call. *)
Definition attempt_ok (N : Z) (W : nat) (cur : option bucket) (n : nat)
    (val : bucket) : Prop :=
  ∃ wi : nat, (1 ≤ wi ≤ W)%nat ∧ (100 ≤ wi + n)%nat ∧
    (wi = W → cur = Some val) ∧
    N - Z.of_nat wi ≤ tokens val ≤ N - 1.

Definition racing (N : Z) (key : string) (W : nat) (cur : option bucket)
    (th : thread) : Prop :=
  match th with
  | TEntry k => k = key
  | TLoop k n => k = key ∧ (n = 100 ∨ 101 ≤ W + n)%nat
  | TLoad k n _ => k = key ∧ (n = 99 ∨ 100 ≤ W + n)%nat
  | TLoadOrStore k n b =>
      k = key ∧ (n = 99 ∨ 100 ≤ W + n)%nat ∧ tokens b = N - 1
  | TNow k n val => k = key ∧ attempt_ok N W cur n val
  | TSwap k n val buck =>
      k = key ∧ attempt_ok N W cur n val ∧
      tokens val - 1 ≤ tokens buck ≤ N - 1
  | TDone v => v = true
  end.

(** The invariant of [N] racing calls on a limiter of burst size [N]: with
    [W] calls allowed so far, the bucket of the key holds at least [N - W]
    tokens, and no call has been denied. *)
Definition burst_inv (r : rateLimiter) (key : string) (cfg : config) : Prop :=
  tokenRate (lim (shared cfg)) = tokenRate r ∧
  burstSize (lim (shared cfg)) = burstSize r ∧
  Z.of_nat (length (threads cfg)) = burstSize r ∧
  match m (lim (shared cfg)) !! key with
  | None => allowed cfg = O
  | Some b =>
      (1 ≤ allowed cfg)%nat ∧
      burstSize r - Z.of_nat (allowed cfg) ≤ tokens b ≤ burstSize r - 1
  end ∧
  Forall (racing (burstSize r) key (allowed cfg)
            (m (lim (shared cfg)) !! key)) (threads cfg).

(** Every token is accounted for while no refill grants any: the tokens
    left in the bucket and the calls allowed so far add up to the burst
    size. *)
Definition account_inv (r : rateLimiter) (key : string) (cfg : config) : Prop :=
  tokenRate (lim (shared cfg)) = tokenRate r ∧
  burstSize (lim (shared cfg)) = burstSize r ∧
  match m (lim (shared cfg)) !! key with
  | None => allowed cfg = O
  | Some b => 0 ≤ tokens b ∧ tokens b + Z.of_nat (allowed cfg) = burstSize r
  end ∧
  Forall (spend_ok (burstSize r) key) (threads cfg).

(** What a goroutine is about to write was computed from what it read: the
    bucket for [LoadOrStore] is the fresh bucket of an earlier reading of
    the clock, and the bucket for [CompareAndSwap] is the snapshot,
    refilled at an earlier reading and with one token consumed. *)
Definition derived `{Arch} (clock : nat → Time) (r : rateLimiter) (k : nat)
    (th : thread) : Prop :=
  match th with
  | TLoad _ _ t => read_before clock k t
  | TLoadOrStore _ _ b => ∃ j, (j < k)%nat ∧ b = fresh r (clock j)
  | TSwap _ _ val buck =>
      ∃ j, (j < k)%nat ∧ 0 < tokens (refill r val (clock j)) ∧
           buck = consume (refill r val (clock j)) (clock j)
  | _ => True
  end.

Definition write_inv `{Arch} (clock : nat → Time) (r : rateLimiter)
    (cfg : config) : Prop :=
  tokenRate (lim (shared cfg)) = tokenRate r ∧
  burstSize (lim (shared cfg)) = burstSize r ∧
  Forall (derived clock r (ticks (shared cfg))) (threads cfg).

(** ** Concrete limiters and runs *)

(** A clock that stands still. *)
Definition still_clock : nat → Time := λ _, 0.

Definition ten_ten : rateLimiter :=
  {| tokenRate := of_Z 10; burstSize := 10; m := ∅; done := ChanOpen |}.

(** One call of [Allow] on [ten_ten], run to its end. *)
Definition one_call : config :=
  @exec amd64 still_clock [0; 0; 0; 0]%nat (concurrent_calls ten_ten 1 "key").

Definition no_capacity : rateLimiter :=
  {| tokenRate := of_Z 10; burstSize := 0; m := ∅; done := ChanOpen |}.

(** One call of [Allow] on [no_capacity], run to its end. *)
Definition one_rejected : config :=
  @exec amd64 still_clock [0%nat] (concurrent_calls no_capacity 1 "key").

(** A limiter of burst size one whose key has spent its token. *)
Definition spent_bucket : bucket :=
  {| tokens := 0; lastRefill := 0; lastActivity := 0 |}.
Definition spent_world : world :=
  {| lim := {| tokenRate := zero; burstSize := 1;
               m := {["key" := spent_bucket]}; done := ChanOpen |};
     ticks := O; trace := [] |}.

(** A limiter of rate one whose key spent its last token two seconds
    before the next clock reading. *)
Definition ticking_clock : nat → Time := λ i, Z.of_nat i * (2 * Second).
Definition waiting_world : world :=
  {| lim := {| tokenRate := of_Z 1; burstSize := 10;
               m := {["key" := spent_bucket]}; done := ChanOpen |};
     ticks := O; trace := [] |}.


(** A clock that reads two hours after the activity of [spent_bucket]. *)
Definition late_clock : nat → Time := λ _, 2 * Hour.

(** A limiter that never refills, with two tokens for each key. *)
Definition zero_two : rateLimiter :=
  {| tokenRate := zero; burstSize := 2; m := ∅; done := ChanOpen |}.

(** Five goroutines taking turns, ten steps each. *)
Definition five_calls : list nat := concat (replicate 10 [0; 1; 2; 3; 4]%nat).

(** Calls for two keys, mixed. *)
Definition mixed_keys : list string := ["a"; "b"; "a"; "a"; "b"]%string.

(** [ten_ten] after [Close]. *)
Definition ten_ten_closed : rateLimiter :=
  {| tokenRate := of_Z 10; burstSize := 10; m := ∅; done := ChanClosed |}.

(** [spent_world] with its sweeper gone, before and after another call
    arrives. *)
Definition unswept : config := Config spent_world [] SwReturned.
Definition unswept_call : config := Config spent_world [TEntry "key"] SwReturned.

(** The system of [ten_ten] after [Close], with the sweeper still in
    [select] and after it has returned. *)
Definition closing : config :=
  Config (World ten_ten_closed O []) [] SwSelect.
Definition shut_down : config :=
  Config (World ten_ten_closed O []) [] SwReturned.

(** A clock that advances by a second with every reading, and one that
    advances by an hour. *)
Definition second_clock : nat → Time := λ i, Z.of_nat i * Second.
Definition hour_clock : nat → Time := λ i, Z.of_nat i * Hour.

(** A limiter of rate ten with two tokens for each key. *)
Definition ten_two : rateLimiter :=
  {| tokenRate := of_Z 10; burstSize := 2; m := ∅; done := ChanOpen |}.

(** Two calls and the sweeper taking turns, 502 turns each. *)
Definition two_calls_swept : list turn :=
  concat (replicate 502 [Call 0; Sweeper; Call 1]).

(** A limiter that never refills, with 101 tokens for each key. *)
Definition zero_101 : rateLimiter :=
  {| tokenRate := zero; burstSize := 101; m := ∅; done := ChanOpen |}.

(** A schedule for 101 calls and the sweeper in which goroutine 1 loses
    every one of its hundred compare-and-swap attempts: goroutine 0 creates
    the bucket; in round [j], for [j] from 1 to 99, goroutine 1 takes its
    snapshot, goroutine [1 + j] runs from its start to its successful swap,
    and goroutine 1 then fails to swap; in the last round the sweeper runs
    a pass between the snapshot and the swap of goroutine 1. *)
Definition evict_round (j : nat) : list turn :=
  [Call 1; Call 1; Call 1] ++ replicate 5 (Call (1 + j)) ++ [Call 1].

Definition evict_last : list turn :=
  [Call 0; Call 0; Call 0; Call 0; Call 1]
    ++ concat (map evict_round (seq 1 99))
    ++ [Call 1; Call 1; Call 1] ++ replicate 5 Sweeper ++ [Call 1; Call 1].

(** A clock reading half a second before the refill time of
    [skew_bucket]. *)
Definition half_second_back : Time := 9 * Second + 500000000.

(** Two calls on [ten_ten] under the hourly clock: the first has created
    the key, the second holds its snapshot and stands in front of its first
    compare-and-swap, and the sweeper has since run a pass. *)
Definition evicted_mid_call : config :=
  @run amd64 hour_clock
    ([Call 0; Call 0; Call 0; Call 0; Call 1; Call 1; Call 1; Call 1]
       ++ replicate 5 Sweeper)
    (concurrent_calls ten_ten 2 "key").

(** * Facts about binary64 rounding

    No operation of [Seconds] overflows: the result is always zero or
    finite.  The bounds follow the magnitude [Zdigits2 m + e] of a float
    [m * 2^e] through the rounding functions of [SpecFloat]. *)

Section Rounding.

Lemma digits2_pos_size p : digits2_pos p = Pos.size p.
Proof. induction p; simpl; congruence. Qed.

Lemma Zdigits2_log2 z : 0 < z → Zdigits2 z = Z.log2 z + 1.
Proof.
destruct z as [|p|p]; try lia. intros _. simpl. rewrite digits2_pos_size.
destruct p; simpl; lia.
Qed.

Lemma Zdigits2_nonneg z : 0 ≤ Zdigits2 z.
Proof. destruct z; simpl; lia. Qed.

Lemma Zdigits2_le_of_lt z k : 0 ≤ z < 2 ^ k → 0 ≤ k → Zdigits2 z ≤ k.
Proof.
intros [H0 Hlt] Hk. destruct (decide (z = 0)) as [->|Hz]; [simpl; lia|].
rewrite Zdigits2_log2 by lia.
assert (Z.log2 z < k); [|lia]. apply Z.log2_lt_pow2; lia.
Qed.

Lemma Zdigits2_gt z : 0 ≤ z → z < 2 ^ Zdigits2 z.
Proof.
intros H0. destruct (decide (z = 0)) as [->|Hz]; [simpl; lia|].
rewrite Zdigits2_log2 by lia. apply Z.log2_spec. lia.
Qed.

Lemma shr_1_m mrs : 0 ≤ shr_m mrs → shr_m (shr_1 mrs) = shr_m mrs / 2.
Proof.
destruct mrs as [mm r s]. simpl. intros H.
destruct mm as [|[p|p|]|p]; cbn [shr_m]; try lia.
- reflexivity.
- apply Z.div_unique with 1; lia.
- apply Z.div_unique with 0; lia.
- reflexivity.
Qed.

Lemma iter_shr_1_m p : ∀ mrs,
0 ≤ shr_m mrs → shr_m (SpecFloat.iter_pos shr_1 p mrs) = shr_m mrs / 2 ^ Zpos p.
Proof.
induction p as [p IH|p IH|]; intros mrs H; simpl SpecFloat.iter_pos.
- assert (H1 : 0 ≤ shr_m (shr_1 mrs)) by (rewrite shr_1_m by done; apply Z.div_pos; lia).
  assert (H2 : 0 ≤ shr_m (SpecFloat.iter_pos shr_1 p (shr_1 mrs)))
    by (rewrite IH by done; apply Z.div_pos; lia).
  rewrite IH, IH, shr_1_m by done.
  rewrite !Z.div_div by lia. f_equal.
  replace (Zpos p~1) with (Z.succ (Zpos p + Zpos p)) by lia.
  rewrite Z.pow_succ_r, Z.pow_add_r by lia. ring.
- assert (H2 : 0 ≤ shr_m (SpecFloat.iter_pos shr_1 p mrs))
    by (rewrite IH by done; apply Z.div_pos; lia).
  rewrite IH, IH by done. rewrite Z.div_div by lia. f_equal.
  replace (Zpos p~0) with (Zpos p + Zpos p) by lia.
  rewrite Z.pow_add_r by lia. ring.
- rewrite shr_1_m by done. reflexivity.
Qed.

Lemma Zdigits2_div_pow2 z p :
0 < z / 2 ^ Zpos p → Zdigits2 (z / 2 ^ Zpos p) ≤ Zdigits2 z - Zpos p.
Proof.
intros H.
assert (0 < z) by (destruct (decide (0 < z)); [done|];
  assert (z / 2 ^ Zpos p ≤ 0); [apply Z.div_le_upper_bound|]; lia).
rewrite !Zdigits2_log2 by lia.
rewrite <- Z.shiftr_div_pow2 by lia.
rewrite Z.log2_shiftr by lia. 
rewrite <- Z.shiftr_div_pow2 in H by lia.
assert (Z.log2 z - Zpos p < 0 → False); [|lia].
intros Hneg. assert (Z.shiftr z (Zpos p) = 0); [|lia].
apply Z.shiftr_eq_0; lia.
Qed.

Lemma shr_record_of_loc_m z l : shr_m (shr_record_of_loc z l) = z.
Proof. destruct l as [|[]]; reflexivity. Qed.


Lemma shr_fexp_bounded z e l B :
0 ≤ z → emin prec emax ≤ B → Zdigits2 z + e ≤ B →
0 ≤ shr_m (shr_fexp prec emax z e l).1 ∧
Zdigits2 (shr_m (shr_fexp prec emax z e l).1) + (shr_fexp prec emax z e l).2 ≤ B.
Proof.
intros Hz Hmin Hmag. unfold shr_fexp, shr.
destruct (fexp prec emax (Zdigits2 z + e) - e) as [|p|p] eqn:Hn; simpl;
  rewrite ?shr_record_of_loc_m; try (split; lia).
rewrite iter_shr_1_m by (rewrite shr_record_of_loc_m; lia).
rewrite shr_record_of_loc_m.
assert (0 ≤ z / 2 ^ Zpos p) by (apply Z.div_pos; lia).
split; [done|].
destruct (decide (z / 2 ^ Zpos p = 0)) as [->|Hq].
- unfold fexp, emin, prec, emax in *. simpl Zdigits2. lia.
- pose proof (Zdigits2_div_pow2 z p). unfold fexp, emin, prec, emax in *. lia.
Qed.

Lemma round_nearest_even_bounded z l :
0 ≤ z → 0 ≤ round_nearest_even z l ∧
Zdigits2 (round_nearest_even z l) ≤ Zdigits2 z + 1.
Proof.
intros Hz.
assert (Hs : Zdigits2 (z + 1) ≤ Zdigits2 z + 1).
{ apply Zdigits2_le_of_lt; [|pose proof (Zdigits2_nonneg z); lia].
  pose proof (Zdigits2_gt z Hz). pose proof (Zdigits2_nonneg z).
  rewrite Z.pow_add_r, Z.pow_1_r by lia. lia. }
unfold round_nearest_even. destruct l as [|[]]; try destruct (Z.even z); lia.
Qed.


Lemma binary_round_aux_below sx mx ex lx B :
0 ≤ mx → emin prec emax ≤ B → Zdigits2 mx + ex ≤ B → B + 1 ≤ emax - prec →
below (B + 1) (binary_round_aux prec emax sx mx ex lx).
Proof.
intros Hmx Hmin Hmag Hmax. unfold binary_round_aux.
pose proof (shr_fexp_bounded mx ex lx B Hmx Hmin Hmag) as [H1 H2].
destruct (shr_fexp prec emax mx ex lx) as [mrs' e'] eqn:E1. simpl in H1, H2.
pose proof (round_nearest_even_bounded (shr_m mrs') (loc_of_shr_record mrs') H1) as [H3 H4].
set (m1 := round_nearest_even (shr_m mrs') (loc_of_shr_record mrs')) in *.
pose proof (shr_fexp_bounded m1 e' loc_Exact (B + 1) H3) as [H5 H6]; [lia..|].
destruct (shr_fexp prec emax m1 e' loc_Exact) as [mrs'' e''] eqn:E2. simpl in H5, H6.
destruct (shr_m mrs'') as [|q|q] eqn:E3; [done| |lia].
assert (e'' ≤ emax - prec) by (simpl in H6; lia).
destruct (Z.leb_spec e'' (emax - prec)); [|lia]. simpl. simpl in H6. lia.
Qed.

Lemma iter_xO mm d : Zpos (Pos.iter xO mm d) = Zpos mm * 2 ^ Zpos d.
Proof.
induction d as [|d IH] using Pos.peano_ind.
- simpl. lia.
- rewrite Pos.iter_succ, Pos2Z.inj_xO, IH, Pos2Z.inj_succ, Z.pow_succ_r by lia. ring.
Qed.

Lemma Zdigits2_mul_pow2 z d :
0 < z → 0 ≤ d → Zdigits2 (z * 2 ^ d) = Zdigits2 z + d.
Proof.
intros Hz Hd. rewrite !Zdigits2_log2 by (try apply Z.mul_pos_pos; lia).
rewrite Z.log2_mul_pow2 by lia. lia.
Qed.

Lemma shl_align_mag mm e e' :
Zdigits2 (Zpos (shl_align mm e e').1) + (shl_align mm e e').2
= Zdigits2 (Zpos mm) + e.
Proof.
unfold shl_align. destruct (e' - e) as [|d|d] eqn:Hd; simpl fst; simpl snd; try done.
rewrite iter_xO, Zdigits2_mul_pow2 by lia. lia.
Qed.

Lemma binary_round_below sx mm e B :
emin prec emax ≤ B → Zdigits2 (Zpos mm) + e ≤ B → B + 1 ≤ emax - prec →
below (B + 1) (binary_round prec emax sx mm e).
Proof.
intros Hmin Hmag Hmax. unfold binary_round.
pose proof (shl_align_mag mm e (fexp prec emax (Zpos (digits2_pos mm) + e))) as Hal.
destruct (shl_align mm e _) as [mz ez]. cbn [fst snd] in Hal.
apply binary_round_aux_below; lia.
Qed.

Lemma binary_normalize_below z e B :
emin prec emax ≤ B → Zdigits2 (Z.abs z) + e ≤ B → B + 1 ≤ emax - prec →
below (B + 1) (binary_normalize prec emax z e false).
Proof.
intros Hmin Hmag Hmax. destruct z; simpl; [done|..];
  apply binary_round_below; done.
Qed.

Lemma of_Z_below z K :
0 ≤ K → K + 1 ≤ emax - prec → Z.abs z < 2 ^ K → below (K + 1) (of_Z z).
Proof.
intros HK Hmax Hz. apply binary_normalize_below; [unfold emin, prec, emax; lia| |done].
pose proof (Zdigits2_le_of_lt (Z.abs z) K). lia.
Qed.

Lemma below_finite B x : below B x → is_finite x = true.
Proof. destruct x; simpl; done. Qed.

Lemma below_mono B B' x : B ≤ B' → below B x → below B' x.
Proof. destruct x; simpl; try done. lia. Qed.

Lemma add_below x y B :
emin prec emax ≤ B → B + 2 ≤ emax - prec →
below B x → below B y → below (B + 2) (add x y).
Proof.
intros Hmin Hmax Hx Hy. 
destruct x as [sx|sx| |sx mx ex], y as [sy|sy| |sy my ey]; cbn [below] in Hx, Hy; try done;
  try (destruct sx, sy; done); try (cbn [below add SFadd]; lia).
unfold add, SFadd.
set (ez := Z.min ex ey).
pose proof (shl_align_mag mx ex ez) as Hax.
pose proof (shl_align_mag my ey ez) as Hay.
assert (Hex : (shl_align mx ex ez).2 = ez).
{ unfold shl_align. destruct (ez - ex) eqn:?; simpl; lia. }
assert (Hey : (shl_align my ey ez).2 = ez).
{ unfold shl_align. destruct (ez - ey) eqn:?; simpl; lia. }
rewrite Hex in Hax. rewrite Hey in Hay.
set (ax := Zpos (shl_align mx ex ez).1) in *.
set (ay := Zpos (shl_align my ey ez).1) in *.
replace (B + 2) with ((B + 1) + 1) by lia.
apply binary_normalize_below; [lia| |lia].
assert (Hlx : ax < 2 ^ (B - ez)).
{ eapply Z.lt_le_trans; [apply Zdigits2_gt; lia|].
  apply Z.pow_le_mono_r; lia. }
assert (Hly : ay < 2 ^ (B - ez)).
{ eapply Z.lt_le_trans; [apply Zdigits2_gt; lia|].
  apply Z.pow_le_mono_r; lia. }
assert (0 ≤ B - ez).
{ pose proof (Zdigits2_nonneg ax). assert (0 < Zdigits2 ax); [|lia].
  unfold ax. simpl. lia. }
assert (Z.abs (cond_Zopp sx ax + cond_Zopp sy ay) < 2 ^ (B - ez + 1)).
{ rewrite Z.pow_add_r, Z.pow_1_r by lia.
  destruct sx, sy; unfold cond_Zopp; lia. }
pose proof (Zdigits2_le_of_lt (Z.abs (cond_Zopp sx ax + cond_Zopp sy ay)) (B - ez + 1)).
lia.
Qed.

Lemma Zdigits2_mono a b : 0 ≤ a ≤ b → Zdigits2 a ≤ Zdigits2 b.
Proof.
intros H. apply Zdigits2_le_of_lt; [|apply Zdigits2_nonneg].
pose proof (Zdigits2_gt b). lia.
Qed.

Lemma div_core_mag m1 e1 m2 e2 :
0 < m1 → 0 < m2 →
0 ≤ (SFdiv_core_binary prec emax m1 e1 m2 e2).1.1 ∧
Zdigits2 (SFdiv_core_binary prec emax m1 e1 m2 e2).1.1
  + (SFdiv_core_binary prec emax m1 e1 m2 e2).1.2 ≤ Zdigits2 m1 + e1 - e2.
Proof.
intros H1 H2. unfold SFdiv_core_binary.
set (e' := Z.min _ (e1 - e2)).
assert (He : e' ≤ e1 - e2) by apply Z.le_min_r.
set (m' := match e1 - e2 - e' with Z0 => m1 | Zpos _ => Z.shiftl m1 (e1 - e2 - e') | Zneg _ => 0 end).
assert (Hm : 0 ≤ m' ∧ Zdigits2 m' + e' ≤ Zdigits2 m1 + e1 - e2).
{ unfold m'. destruct (e1 - e2 - e') as [|s|s] eqn:Hs; [lia| |lia].
  rewrite Z.shiftl_mul_pow2 by lia. rewrite Zdigits2_mul_pow2 by lia.
  split; [|lia]. apply Z.mul_nonneg_nonneg; lia. }
destruct (Z.div_eucl m' m2) as [q r] eqn:E. cbn [fst snd].
assert (Hq : q = m' / m2) by (unfold Z.div; rewrite E; done).
assert (0 ≤ q) by (subst q; apply Z.div_pos; lia).
assert (q ≤ m').
{ subst q. apply Z.div_le_upper_bound; [lia|]. nia. }
pose proof (Zdigits2_mono q m'). lia.
Qed.

Lemma div_below x s2 m2 e2 B :
emin prec emax ≤ B - e2 → B - e2 + 1 ≤ emax - prec →
below B x → below (B - e2 + 1) (div x (S754_finite s2 m2 e2)).
Proof.
intros Hmin Hmax Hx. destruct x as [sx|sx| |sx mx ex]; cbn [below] in Hx; try done.
unfold div, SFdiv.
pose proof (div_core_mag (Zpos mx) ex (Zpos m2) e2) as [H1 H2]; [lia..|].
destruct (SFdiv_core_binary prec emax (Zpos mx) ex (Zpos m2) e2) as [[mz ez] lz].
cbn [fst snd] in H1, H2.
apply binary_round_aux_below; lia.
Qed.

Lemma Seconds_finite d :
minDuration ≤ d ≤ maxDuration → is_finite (Seconds d) = true.
Proof.
intros Hd. unfold Seconds.
assert (Hsec : Z.abs (Z.quot d Second) < 2 ^ 34).
{ unfold minDuration, maxDuration, Second in *.
  pose proof (Z.quot_rem' d 1000000000).
  pose proof (Z.rem_bound_abs d 1000000000 ltac:(lia)).
  change (2 ^ 34) with 17179869184. change (2 ^ 63) with 9223372036854775808 in Hd.
  generalize dependent (Z.quot d 1000000000). generalize dependent (Z.rem d 1000000000).
  intros. lia. }
assert (Hnsec : Z.abs (Z.rem d Second) < 2 ^ 30).
{ unfold Second. pose proof (Z.rem_bound_abs d 1000000000 ltac:(lia)).
  change (2 ^ 30) with 1073741824. lia. }
pose proof (of_Z_below _ 34 ltac:(lia) ltac:(unfold emax, prec; lia) Hsec) as Ha.
pose proof (of_Z_below _ 30 ltac:(lia) ltac:(unfold emax, prec; lia) Hnsec) as Hb.
change (of_Z 1000000000) with (S754_finite false 8388608000000000 (-23)).
pose proof (div_below _ false 8388608000000000 (-23) (30 + 1)
              ltac:(unfold emin, emax, prec; lia) ltac:(unfold emax, prec; lia) Hb) as Hc.
apply (below_finite (55 + 2)). apply add_below.
- unfold emin, emax, prec; lia.
- unfold emax, prec; lia.
- eapply below_mono; [|exact Ha]. lia.
- eapply below_mono; [|exact Hc]. lia.
Qed.

End Rounding.

(** * Facts about the conversions used by [Allow] and [validate] *)

Section Conversions.

Context {arch : Arch}.

Lemma binary_round_aux_not_negative mx ex lx :
  not_negative (binary_round_aux prec emax false mx ex lx).
Proof.
  unfold binary_round_aux.
  destruct (shr_fexp prec emax mx ex lx) as [mrs' e'].
  destruct (shr_fexp prec emax _ e' loc_Exact) as [mrs'' e''].
  destruct (shr_m mrs''); [done| |done].
  destruct (e'' <=? emax - prec); done.
Qed.

Lemma of_Z_not_negative z : 0 ≤ z → not_negative (of_Z z).
Proof.
  intros Hz. destruct z as [|p|p]; [done| |lia].
  unfold of_Z, binary_normalize, binary_round.
  destruct (shl_align p 0 _). apply binary_round_aux_not_negative.
Qed.

Lemma div_not_negative x s m e :
  not_negative x → s = false → not_negative (div x (S754_finite s m e)).
Proof.
  intros Hx ->. destruct x as [[]|[]| |[] mx ex]; try done.
  unfold div, SFdiv.
  destruct (SFdiv_core_binary prec emax (Zpos mx) ex (Zpos m) e) as [[mz ez] lz].
  apply binary_round_aux_not_negative.
Qed.

Lemma gtb_zero_not_negative x : not_negative x → gtb zero x = false.
Proof. destruct x as [[]|[]| |[] mx ex]; done. Qed.

Lemma Sub_range t u : minDuration ≤ Sub t u ≤ maxDuration.
Proof. unfold Sub, minDuration, maxDuration. lia. Qed.

Lemma trunc_mul_zero x y :
  is_finite x = true → is_finite y = true →
  (∃ s, x = S754_zero s) ∨ (∃ s, y = S754_zero s) →
  trunc (mul x y) = Some 0.
Proof.
  intros Hx Hy [[s ->]|[s ->]].
  - destruct y; done.
  - destruct x; done.
Qed.

Lemma uint_of_float64_zero f : trunc f = Some 0 → uint_of_float64 f = 0.
Proof.
  intros Hf. unfold uint_of_float64. rewrite Hf.
  rewrite decide_True; [done|]. unfold MaxUint, uint_size. lia.
Qed.

(** A rate of zero grants nothing, whatever the elapsed time. *)
Lemma granted_zero_rate r d :
  tokenRate r = zero → minDuration ≤ d ≤ maxDuration → granted r d = 0.
Proof.
  intros Hr Hd. unfold granted. apply uint_of_float64_zero.
  apply trunc_mul_zero; [by rewrite Hr|by apply Seconds_finite|].
  left. by exists false.
Qed.

(** No elapsed time grants nothing, for any rate that is a number. *)
Lemma granted_zero_elapsed r :
  is_finite (tokenRate r) = true → granted r 0 = 0.
Proof.
  intros Hr. unfold granted. apply uint_of_float64_zero.
  apply trunc_mul_zero; [done|done|]. right. by exists false.
Qed.

(** For a float that is not below zero, truncation and floor agree. *)
Lemma trunc_floor f z : floor f = Some z → 0 ≤ z → trunc f = Some z.
Proof.
  destruct f as [s|s| |s mm e]; simpl; try done.
  destruct e as [|e|e]; [done|done|].
  destruct s; [|done]. simpl. intros [= <-] Hz. f_equal.
  assert (Hlt : - Zpos mm / 2 ^ Zpos e < 0).
  { apply Z.div_lt_upper_bound; lia. }
  change (Z.neg mm) with (- Zpos mm) in *. lia.
Qed.

Lemma wrap_small z : 0 ≤ z ≤ MaxUint → wrap z = z.
Proof.
  unfold wrap, MaxUint. intros Hz. apply Z.mod_small. lia.
Qed.

Lemma wrap_range z : 0 ≤ wrap z ≤ MaxUint.
Proof.
  unfold wrap, MaxUint, uint_size.
  pose proof (Z.mod_pos_bound z (2 ^ 64)). lia.
Qed.

(** The constant [0] passes the validation with every burst size. *)
Lemma validate_zero_rate burst : validate zero burst = None.
Proof.
  unfold validate. change (ltb zero (of_Z 0)) with false.
  change (gtb (mul zero (of_Z 5000)) (of_Z MaxUint)) with false.
  cbv zeta. cbn match.
  rewrite gtb_zero_not_negative; [done|].
  apply div_not_negative; [|done].
  apply of_Z_not_negative. pose proof (wrap_range (MaxUint - burst)). lia.
Qed.

End Conversions.

(** * [Allow], call by call *)

Section Sequential.

Context {arch : Arch}.
Variable clock : nat → Time.

Lemma refill_tokens r buck t :
  tokens (refill r buck t)
  = Z.min (burstSize r)
      (wrap (granted r (Sub t (lastRefill buck)) + tokens buck)).
Proof. unfold refill. by case_decide. Qed.

Lemma refill_lastActivity r buck t :
  lastActivity (refill r buck t) = lastActivity buck.
Proof. unfold refill. by case_decide. Qed.

(** Whatever the snapshot, the refilled count lies between zero and the
    burst size. *)
Lemma refill_range r buck t :
  0 ≤ burstSize r → 0 ≤ tokens (refill r buck t) ≤ burstSize r.
Proof.
  intros Hb. rewrite refill_tokens.
  pose proof (wrap_range (granted r (Sub t (lastRefill buck)) + tokens buck)).
  lia.
Qed.

Lemma refill_nothing_granted r buck t :
  granted r (Sub t (lastRefill buck)) = 0 →
  0 ≤ tokens buck ≤ burstSize r → burstSize r ≤ MaxUint →
  refill r buck t = buck.
Proof.
  intros Hg Hb Hmax. unfold refill. rewrite Hg, Z.add_0_l.
  rewrite wrap_small by lia. rewrite decide_False; [done|]. lia.
Qed.

(** The first call for a key creates its bucket and is allowed. *)
Lemma Allow_loop_absent n key w :
  m (lim w) !! key = None →
  Allow_loop clock (S n) key w
  = (true,
     {| lim := with_map (lim w)
                 (<[key := fresh (lim w) (clock (ticks w))]> (m (lim w)));
        ticks := S (ticks w);
        trace := (trace w ++ [EvLoad key])
                   ++ [EvLoadOrStore key (fresh (lim w) (clock (ticks w)))] |}).
Proof.
  intros Hk. destruct w as [r k tr]. simpl in Hk.
  unfold Allow_loop, Allow_attempt, Load, LoadOrStore, now, log, get_limiter,
    put_map, mbind, M_bind, mret, M_ret. simpl. rewrite Hk. simpl.
  rewrite Hk. reflexivity.
Qed.

(** A call for a key with a bucket refills it and, when a token is there,
    swaps in the consumed bucket. *)
Lemma Allow_loop_present n key w val :
  m (lim w) !! key = Some val →
  Allow_loop clock (S n) key w
  = let t := clock (S (ticks w)) in
    let buck := refill (lim w) val t in
    if decide (0 < tokens buck) then
      (true,
       {| lim := with_map (lim w) (<[key := consume buck t]> (m (lim w)));
          ticks := S (S (ticks w));
          trace := (trace w ++ [EvLoad key])
                     ++ [EvCompareAndSwap key val (consume buck t)] |})
    else
      (false,
       {| lim := lim w; ticks := S (S (ticks w));
          trace := trace w ++ [EvLoad key] |}).
Proof.
  intros Hk. destruct w as [r k tr]. simpl in Hk.
  unfold Allow_loop, Allow_attempt, refill_and_swap, CompareAndSwap, Load,
    now, log, get_limiter, put_map, mbind, M_bind, mret, M_ret.
  simpl. rewrite Hk. simpl.
  case_decide; [|done]. simpl. rewrite Hk. rewrite decide_True by done.
  reflexivity.
Qed.

Lemma Allow_unfold key w :
  Allow clock key w
  = if decide (burstSize (lim w) = 0) then (false, w)
    else Allow_loop clock maxCASRetries key w.
Proof.
  unfold Allow, get_limiter, mbind, M_bind, mret, M_ret.
  by case_decide.
Qed.

End Sequential.

(** * The goroutine run alone is the sequential [Allow] *)

Section Alone.

Context {arch : Arch}.
Variable clock : nat → Time.

Lemma run_alone_done fuel v w : run_alone clock fuel (TDone v) w = (TDone v, w).
Proof. by destruct fuel. Qed.

Lemma run_alone_step fuel th w :
  is_done th = false →
  run_alone clock (S fuel) th w
  = run_alone clock fuel (thread_step clock th w).1 (thread_step clock th w).2.
Proof.
  intros Hd. destruct th; try done; cbn [run_alone]; unfold mbind, M_bind;
    by destruct (thread_step clock _ w).
Qed.

Ltac run_step :=
  rewrite run_alone_step by done;
  unfold thread_step at 1 2, Load, LoadOrStore, CompareAndSwap, now, log,
    get_limiter, put_map, mbind, M_bind, mret, M_ret;
  cbn [fst snd ticks lim trace].

Lemma run_alone_loop n : ∀ fuel key w,
  (5 * n + 1 ≤ fuel)%nat →
  run_alone clock fuel (TLoop key n) w
  = (TDone (Allow_loop clock n key w).1, (Allow_loop clock n key w).2).
Proof.
  induction n as [|n IH]; intros fuel key w Hfuel.
  - destruct fuel as [|fuel]; [lia|]. rewrite run_alone_step by done.
    unfold thread_step, Allow_loop, mret, M_ret. cbn [fst snd].
    by rewrite run_alone_done.
  - do 5 (destruct fuel as [|fuel]; [lia|]).
    destruct w as [l k tr].
    unfold Allow_loop; fold (Allow_loop clock).
    unfold Allow_attempt, refill_and_swap, Load, LoadOrStore,
      CompareAndSwap, now, log, get_limiter, put_map, mbind, M_bind, mret, M_ret.
    cbn [fst snd ticks lim trace].
    run_step. run_step.
    destruct (m l !! key) as [val|] eqn:Hk; cbn [fst snd].
    + run_step.
      destruct (decide (0 < tokens (refill l val (clock (S k))))); cbn [fst snd].
      * run_step. rewrite Hk.
        destruct (decide (val = val)); [|done]. cbn [fst snd].
        by rewrite run_alone_done.
      * by rewrite run_alone_done.
    + run_step. rewrite Hk. cbn [fst snd]. by rewrite run_alone_done.
Qed.

Lemma run_alone_Allow key w :
  run_alone clock (5 * maxCASRetries + 2) (TEntry key) w
  = (TDone (Allow clock key w).1, (Allow clock key w).2).
Proof.
  change (5 * maxCASRetries + 2)%nat with (S (5 * maxCASRetries + 1)).
  rewrite run_alone_step by done. rewrite Allow_unfold.
  unfold thread_step, get_limiter, mbind, M_bind, mret, M_ret. cbn [fst snd].
  case_decide; [by rewrite run_alone_done|].
  by apply run_alone_loop.
Qed.

End Alone.

(** * A rate of zero: exactly [burstSize] calls per key *)

Section ZeroRate.

Context {arch : Arch}.
Variable clock : nat → Time.

Lemma Allow_zero_rate_step key w :
  tokenRate (lim w) = zero →
  1 ≤ burstSize (lim w) ≤ MaxUint →
  0 ≤ remaining (lim w) key ≤ burstSize (lim w) →
  (Allow clock key w).1 = bool_decide (0 < remaining (lim w) key) ∧
  remaining (lim (Allow clock key w).2) key
    = remaining (lim w) key - (if (Allow clock key w).1 then 1 else 0) ∧
  tokenRate (lim (Allow clock key w).2) = zero ∧
  burstSize (lim (Allow clock key w).2) = burstSize (lim w).
Proof.
  intros Hrate Hburst Hrem. rewrite Allow_unfold.
  rewrite decide_False by lia. change maxCASRetries with (S 99).
  unfold remaining in *. destruct (m (lim w) !! key) as [val|] eqn:Hk.
  - rewrite (Allow_loop_present _ _ _ _ val Hk). cbv zeta.
    rewrite refill_nothing_granted;
      [|apply granted_zero_rate; [done|apply Sub_range]|done|lia].
    case_decide as Hpos; cbn [fst snd lim with_map m burstSize tokenRate].
    + rewrite lookup_insert_eq. cbn [tokens consume].
      rewrite wrap_small by lia. rewrite bool_decide_eq_true_2 by done.
      repeat split; try done; lia.
    + rewrite Hk. rewrite bool_decide_eq_false_2 by done.
      repeat split; try done; lia.
  - rewrite (Allow_loop_absent _ _ _ _ Hk).
    cbn [fst snd lim with_map m burstSize tokenRate].
    rewrite lookup_insert_eq. cbn [tokens fresh].
    rewrite wrap_small by lia. rewrite bool_decide_eq_true_2 by lia.
    repeat split; try done; lia.
Qed.

Lemma Allow_many_zero_rate calls : ∀ key w,
  tokenRate (lim w) = zero →
  1 ≤ burstSize (lim w) ≤ MaxUint →
  0 ≤ remaining (lim w) key ≤ burstSize (lim w) →
  (Allow_many clock calls key w).1
  = replicate (Nat.min calls (Z.to_nat (remaining (lim w) key))) true
      ++ replicate (calls - Z.to_nat (remaining (lim w) key)) false.
Proof.
  induction calls as [|calls IH]; intros key w Hrate Hburst Hrem; [done|].
  pose proof (Allow_zero_rate_step key w Hrate Hburst Hrem)
    as (Hv & Hrem' & Hrate' & Hburst').
  cbn [Allow_many]. unfold mbind, M_bind at 1.
  destruct (Allow clock key w) as [v w1]. cbn [fst snd] in *.
  unfold mbind, M_bind at 1.
  specialize (IH key w1 Hrate').
  destruct (Allow_many clock calls key w1) as [vs w2]. cbn [fst snd] in *.
  unfold mret, M_ret. cbn [fst].
  rewrite IH by (rewrite ?Hburst', ?Hrem'; destruct v; case_bool_decide; lia).
  rewrite Hrem'. subst v. case_bool_decide as Hpos.
  - replace (Z.to_nat (remaining (lim w) key))
      with (S (Z.to_nat (remaining (lim w) key - 1))) by lia.
    reflexivity.
  - replace (Z.to_nat (remaining (lim w) key)) with O by lia.
    replace (Z.to_nat (remaining (lim w) key - 0)) with O by lia.
    rewrite !Nat.min_0_r, !Nat.sub_0_r. reflexivity.
Qed.

(** C1.  After [New(0, N)] with [N >= 1], successive calls of [Allow] for
    one key return true for the first [N] calls and false for every call
    after them: a rate of zero never refills the bucket. *)
Theorem zero_rate_allows_exactly_burst (N : Z) (key : string) (calls : nat) :
  1 ≤ N ≤ MaxUint →
  ∃ r, New zero N = inr r ∧
    (Allow_many clock calls key (World r O [])).1
    = replicate (Nat.min calls (Z.to_nat N)) true
        ++ replicate (calls - Z.to_nat N) false.
Proof.
  intros HN. unfold New. rewrite validate_zero_rate.
  eexists; split; [reflexivity|].
  set (r := {| tokenRate := zero; burstSize := N; m := ∅; done := ChanOpen |}).
  assert (Hrem : remaining r key = N) by done.
  rewrite Allow_many_zero_rate; cbn [lim]; rewrite ?Hrem; try done.
  cbn [burstSize r]. lia.
Qed.

End ZeroRate.

(** * The token count stays within the burst size *)

Section Invariant.

Context {arch : Arch}.
Variable clock : nat → Time.

Lemma fresh_ok r r' t :
  burstSize r' = burstSize r → 1 ≤ burstSize r ≤ MaxUint →
  bucket_ok r (fresh r' t).
Proof.
  intros Hb Hr. unfold bucket_ok, fresh. cbn [tokens].
  rewrite wrap_small; lia.
Qed.

Lemma refill_ok r r' buck t :
  burstSize r' = burstSize r → 0 ≤ burstSize r →
  bucket_ok r (refill r' buck t).
Proof.
  intros Hb Hr. unfold bucket_ok. rewrite <- Hb. apply refill_range. lia.
Qed.

Lemma consume_ok r buck t :
  bucket_ok r buck → burstSize r ≤ MaxUint → 0 < tokens buck →
  bucket_ok r (consume buck t).
Proof.
  unfold bucket_ok, consume. cbn [tokens]. intros Hb Hr Hpos.
  rewrite wrap_small; lia.
Qed.

Lemma thread_step_ok r th w :
  0 ≤ burstSize r ≤ MaxUint →
  store_ok r w → thread_ok r th →
  store_ok r (thread_step clock th w).2 ∧
  thread_ok r (thread_step clock th w).1.
Proof.
  intros Hr [Hb Hs] Hth. destruct w as [l k tr]. cbn [lim] in Hb, Hs.
  destruct th as [key|key [|n]|key n t|key n buck|key n val|key n val buck|v];
    unfold thread_step, Load, LoadOrStore, CompareAndSwap, now, log,
      get_limiter, put_map, mbind, M_bind, mret, M_ret, store_ok;
    cbn [fst snd lim ticks trace thread_ok] in *.
  - split; [done|]. case_decide; cbn [thread_ok]; [done|lia].
  - done.
  - done.
  - split; [done|]. destruct (m l !! key) as [val|]; cbn [thread_ok]; [done|].
    split; [done|]. apply fresh_ok; [done|lia].
  - destruct Hth as [Hne Hth].
    destruct (m l !! key) as [actual|] eqn:Hk;
      cbn [fst snd lim with_map burstSize m thread_ok]; [done|].
    split; [|done]. split; [done|]. intros key' buck'.
    rewrite lookup_insert. case_decide; [|apply Hs]. by intros [= <-].
  - split; [done|]. case_decide; cbn [thread_ok]; [|done].
    split; [done|].
    apply consume_ok; [apply refill_ok; [done|lia]|lia|done].
  - destruct Hth as [Hne Hth].
    destruct (m l !! key) as [cur|] eqn:Hk; [case_decide|];
      cbn [fst snd lim with_map burstSize m thread_ok]; try done.
    split; [|done]. split; [done|]. intros key' buck'.
    rewrite lookup_insert. case_decide; [|apply Hs]. by intros [= <-].
  - done.
Qed.

Lemma sweeper_step_ok r sw w :
  store_ok r w → store_ok r (sweeper_step clock sw w).2.
Proof.
  intros [Hb Hs]. destruct w as [l k tr]. cbn [lim] in Hb, Hs.
  destruct sw as [|[|key rest]|key buck rest|key rest|];
    unfold sweeper_step, Delete, now, log, get_limiter, put_map,
      mbind, M_bind, mret, M_ret, store_ok;
    cbn [fst snd lim ticks trace with_map burstSize m]; try done.
  split; [done|]. intros key' buck'. rewrite lookup_delete.
  case_decide; [done|apply Hs].
Qed.

Lemma sys_step_ok r cfg cfg' :
  0 ≤ burstSize r ≤ MaxUint →
  system_ok r cfg → sys_step clock cfg cfg' → system_ok r cfg'.
Proof.
  intros Hr [Hs Hth] Hstep.
  destruct Hstep as [cfg key|cfg i th th' w' Hi Hst|cfg sw' w' Hst|cfg Hsel Hdone|cfg r' Hclose];
    unfold system_ok; cbn [shared threads].
  - split; [done|]. apply Forall_app. split; [done|]. by constructor.
  - pose proof (thread_step_ok r th (shared cfg) Hr Hs) as Hok.
    rewrite Hst in Hok. cbn [fst snd] in Hok.
    destruct Hok as [? ?]; [by eapply Forall_lookup_1|].
    split; [done|]. by apply Forall_insert.
  - pose proof (sweeper_step_ok r (evictor cfg) (shared cfg) Hs) as Hok.
    rewrite Hst in Hok. done.
  - done.
  - split; [|done]. unfold Close in Hclose.
    destruct (done (lim (shared cfg))); [|done].
    injection Hclose as <-. exact Hs.
Qed.

Lemma reachable_ok r cfg :
  0 ≤ burstSize r ≤ MaxUint → m r = ∅ →
  reachable clock r cfg → system_ok r cfg.
Proof.
  intros Hr Hm Hreach. unfold reachable in Hreach.
  revert cfg Hreach. apply (rtc_ind_r (λ cfg, system_ok r cfg)).
  - split; [|by constructor]. split; [done|].
    intros key buck. cbn [initial shared lim]. by rewrite Hm, lookup_empty.
  - intros y z _ Hyz Hy. by eapply sys_step_ok.
Qed.

(** C2.  In every state the system can reach from a limiter returned by
    [New], through calls of [Allow], the sweeper and [Close], every bucket
    in the map has [0 <= tokens <= burstSize]; and each operation on a
    bucket keeps the count in that range: the creation of a bucket for a
    fresh key, the refill, and the consumption of a token that is written
    back by compare-and-swap. *)
Theorem tokens_within_burst (rate : float64) (burst : Z) (r : rateLimiter)
    (cfg : config) :
  0 ≤ burst ≤ MaxUint →
  New rate burst = inr r →
  reachable clock r cfg →
  (∀ key buck, m (lim (shared cfg)) !! key = Some buck →
     0 ≤ tokens buck ≤ burst) ∧
  (∀ t, burst ≠ 0 → 0 ≤ tokens (fresh r t) ≤ burst) ∧
  (∀ val t, 0 ≤ tokens (refill r val t) ≤ burst) ∧
  (∀ val t, 0 < tokens (refill r val t) →
     0 ≤ tokens (consume (refill r val t) t) ≤ burst).
Proof.
  intros Hburst Hnew Hreach. unfold New in Hnew.
  destruct (validate rate burst); [done|]. injection Hnew as <-.
  set (r := {| tokenRate := rate; burstSize := burst; m := ∅; done := ChanOpen |}) in *.
  assert (Hr : 0 ≤ burstSize r ≤ MaxUint) by done.
  pose proof (reachable_ok r cfg Hr eq_refl Hreach) as [[_ Hs] _].
  repeat split; try (by eapply Hs).
  - apply (fresh_ok r r t eq_refl). cbn [burstSize r]. lia.
  - apply (fresh_ok r r t eq_refl). cbn [burstSize r]. lia.
  - apply (refill_ok r r val t eq_refl). lia.
  - apply (refill_ok r r val t eq_refl). lia.
  - apply (consume_ok r _ t); [apply (refill_ok r r val t eq_refl); lia|lia|done].
  - apply (consume_ok r _ t); [apply (refill_ok r r val t eq_refl); lia|lia|done].
Qed.

End Invariant.

(** * The refill time *)

Section RefillTime.

Context {arch : Arch}.
Variable clock : nat → Time.

Lemma granted_spec r buck t g :
  spec_grantable r buck t = Some g → 0 ≤ g ≤ MaxUint →
  granted r (Sub t (lastRefill buck)) = g.
Proof.
  unfold spec_grantable, granted, uint_of_float64. intros Hfl Hg.
  rewrite (trunc_floor _ g Hfl) by lia. by rewrite decide_True.
Qed.

Lemma refill_spec r buck t g :
  spec_grantable r buck t = Some g →
  0 ≤ g → 0 ≤ tokens buck → tokens buck + g ≤ MaxUint →
  refill r buck t
  = if decide (spec_candidateTokens r buck g ≠ tokens buck)
    then {| tokens := spec_candidateTokens r buck g; lastRefill := t;
            lastActivity := lastActivity buck |}
    else buck.
Proof.
  intros Hfl Hg Hb Hsum. unfold refill, spec_candidateTokens.
  rewrite (granted_spec r buck t g Hfl) by lia.
  rewrite wrap_small by lia. rewrite (Z.add_comm g).
  repeat case_decide; done.
Qed.

(** C5, as amended.  Let the product [tokenRate * elapsedSeconds] be not
    negative and let [oldTokens] plus its floor fit a [uint].  Then the
    refill inside [Allow] sets the refill time of the bucket to [now]
    exactly when the recomputed count
    [min(burstSize, oldTokens + floor(tokenRate * elapsedSeconds))] differs
    from the old count, and keeps the old refill time otherwise; when no
    whole token is granted the bucket stays as it is; and the refill time
    so chosen is that of the bucket found in the map after the call. *)
Theorem refill_time_set_iff_tokens_change (key : string) (w : world)
    (val : bucket) (g : Z) (t : Time) (cand : Z) :
  t = clock (S (ticks w)) →
  cand = spec_candidateTokens (lim w) val g →
  1 ≤ burstSize (lim w) →
  m (lim w) !! key = Some val →
  spec_grantable (lim w) val t = Some g →
  0 ≤ g → 0 ≤ tokens val → tokens val + g ≤ MaxUint →
  tokens (refill (lim w) val t) = cand ∧
  lastRefill (refill (lim w) val t)
    = (if decide (cand ≠ tokens val) then t else lastRefill val) ∧
  (g = 0 → tokens val ≤ burstSize (lim w) → refill (lim w) val t = val) ∧
  ∃ buck, m (lim (Allow clock key w).2) !! key = Some buck ∧
    lastRefill buck = (if decide (cand ≠ tokens val) then t else lastRefill val).
Proof.
  intros Ht Hcand Hburst Hk Hfl Hg Hval Hsum.
  pose proof (refill_spec (lim w) val t g Hfl Hg Hval Hsum) as Href.
  rewrite <- Hcand in Href.
  assert (Htok : tokens (refill (lim w) val t) = cand).
  { rewrite Href. case_decide as Hc; [done|]. congruence. }
  assert (Hlast : lastRefill (refill (lim w) val t)
                  = if decide (cand ≠ tokens val) then t else lastRefill val).
  { rewrite Href. by case_decide. }
  split; [done|]. split; [done|]. split.
  { intros -> Hle. rewrite Href, decide_False; [done|].
    subst cand. unfold spec_candidateTokens. lia. }
  rewrite Allow_unfold, decide_False by lia. change maxCASRetries with (S 99).
  rewrite (Allow_loop_present _ _ _ _ val Hk). cbv zeta. rewrite <- Ht.
  destruct (decide (0 < tokens (refill (lim w) val t))) as [Hpos|Hpos];
    cbn [snd lim with_map m].
  - rewrite lookup_insert_eq. eexists. split; [done|]. exact Hlast.
  - exists val. split; [done|]. rewrite decide_False; [done|].
    rewrite Htok in Hpos. subst cand. unfold spec_candidateTokens in *. lia.
Qed.

End RefillTime.

(** With rate one, five tokens and a clock reading half a second before the
    refill time, [floor(tokenRate * elapsedSeconds)] is [-1] and the
    recomputed count of the formula is 4, which differs from the old count
    of 5; yet the refill of [Allow] keeps the bucket as it is, refill time
    included, on every target: [uint(-0.5)] is 0. *)
Lemma negative_product_keeps_refill_time :
  spec_grantable skew_limiter skew_bucket half_second_back = Some (-1) ∧
  spec_candidateTokens skew_limiter skew_bucket (-1) = 4 ∧
  tokens skew_bucket = 5 ∧
  lastRefill skew_bucket ≠ half_second_back ∧
  ∀ arch : Arch,
    @refill arch skew_limiter skew_bucket half_second_back = skew_bucket.
Proof.
  split; [by vm_compute|]. split; [by vm_compute|]. split; [done|].
  split; [by vm_compute|]. intros arch. by vm_compute.
Qed.

(** * The first call for a key *)

Section FreshKey.

Context {arch : Arch}.
Variable clock : nat → Time.

(** C6.  With a burst size of at least one and no bucket for the key, the
    load misses and [Allow] builds a bucket with [burstSize - 1] tokens
    whose two time stamps are the time read at the top of the iteration,
    and hands it to [LoadOrStore].  When the key is still absent the bucket
    is stored and the call returns true; when another goroutine stored a
    value first, that value becomes the snapshot of the iteration.  Run
    alone, the call returns true and leaves the bucket in the map. *)
Theorem fresh_key_gets_bucket (key : string) (n : nat) (t : Time) (w : world) :
  1 ≤ burstSize (lim w) ≤ MaxUint →
  m (lim w) !! key = None →
  thread_step clock (TLoad key n t) w
    = (TLoadOrStore key n (spec_fresh (burstSize (lim w)) t),
       {| lim := lim w; ticks := ticks w; trace := trace w ++ [EvLoad key] |}) ∧
  thread_step clock (TLoadOrStore key n (spec_fresh (burstSize (lim w)) t)) w
    = (TDone true,
       {| lim := with_map (lim w)
                   (<[key := spec_fresh (burstSize (lim w)) t]> (m (lim w)));
          ticks := ticks w;
          trace := trace w
                     ++ [EvLoadOrStore key (spec_fresh (burstSize (lim w)) t)] |}) ∧
  (∀ w' actual, m (lim w') !! key = Some actual →
     thread_step clock (TLoadOrStore key n (spec_fresh (burstSize (lim w)) t)) w'
     = (TNow key n actual,
        {| lim := lim w'; ticks := ticks w';
           trace := trace w'
                      ++ [EvLoadOrStore key (spec_fresh (burstSize (lim w)) t)] |})) ∧
  Allow clock key w
    = (true,
       {| lim := with_map (lim w)
                   (<[key := spec_fresh (burstSize (lim w)) (clock (ticks w))]>
                      (m (lim w)));
          ticks := S (ticks w);
          trace := (trace w ++ [EvLoad key])
                     ++ [EvLoadOrStore key
                           (spec_fresh (burstSize (lim w)) (clock (ticks w)))] |}).
Proof.
  intros Hburst Hk.
  assert (Hb : ∀ t', fresh (lim w) t' = spec_fresh (burstSize (lim w)) t').
  { intros t'. unfold fresh, spec_fresh. rewrite wrap_small by lia. done. }
  repeat split.
  - unfold thread_step, Load, log, get_limiter, mbind, M_bind, mret, M_ret.
    cbn [lim]. rewrite Hk, Hb. done.
  - unfold thread_step, LoadOrStore, log, get_limiter, put_map, mbind, M_bind,
      mret, M_ret. cbn [lim]. rewrite Hk. done.
  - intros w' actual Hk'.
    unfold thread_step, LoadOrStore, log, get_limiter, put_map, mbind, M_bind,
      mret, M_ret. cbn [lim]. rewrite Hk'. done.
  - rewrite Allow_unfold, decide_False by lia. change maxCASRetries with (S 99).
    rewrite (Allow_loop_absent _ _ _ _ Hk), Hb. done.
Qed.

End FreshKey.

(** * A burst size of zero *)

Section ZeroCapacity.

Context {arch : Arch}.
Variable clock : nat → Time.

Lemma Allow_zero_capacity key w :
  burstSize (lim w) = 0 → Allow clock key w = (false, w).
Proof. intros Hb. rewrite Allow_unfold. by rewrite decide_True. Qed.

Lemma thread_step_zero_capacity key w :
  burstSize (lim w) = 0 → thread_step clock (TEntry key) w = (TDone false, w).
Proof.
  intros Hb. unfold thread_step, get_limiter, mbind, M_bind, mret, M_ret.
  by rewrite decide_True.
Qed.

Lemma sys_step_zero_capacity cfg cfg' :
  zero_capacity cfg → sys_step clock cfg cfg' → zero_capacity cfg'.
Proof.
  intros (Hb & Hm & Hth) Hstep.
  destruct Hstep as [cfg key|cfg i th th' w' Hi Hst|cfg sw' w' Hst|cfg Hsel Hdone|cfg r' Hclose];
    unfold zero_capacity; cbn [shared threads].
  - repeat split; try done. apply Forall_app. split; [done|]. by constructor.
  - pose proof (Forall_lookup_1 _ _ _ _ Hth Hi) as Hout.
    destruct th; try done.
    + rewrite thread_step_zero_capacity in Hst by done.
      injection Hst as <- <-. repeat split; try done. by apply Forall_insert.
    + injection Hst as <- <-. repeat split; try done. by apply Forall_insert.
  - destruct (shared cfg) as [l k tr]. cbn [lim] in Hb, Hm.
    destruct (evictor cfg) as [|[|key rest]|key buck rest|key rest|];
      unfold sweeper_step, Delete, now, log, get_limiter, put_map,
        mbind, M_bind, mret, M_ret in Hst;
      cbn [lim ticks trace] in Hst; injection Hst as <- <-;
      cbn [lim with_map burstSize m]; repeat split; try done.
    rewrite Hm. apply delete_empty.
  - done.
  - unfold Close in Hclose. destruct (done (lim (shared cfg))); [|done].
    injection Hclose as <-. done.
Qed.

(** C7.  With a burst size of zero, in whatever state the system is,
    a call of [Allow] returns false at once and leaves the world as it
    was: no operation on the map is logged, the clock is not read, and the
    map, which holds no bucket, stays empty. *)
Theorem zero_capacity_rejects (rate : float64) (r : rateLimiter)
    (cfg : config) (key : string) :
  New rate 0 = inr r →
  reachable clock r cfg →
  Allow clock key (shared cfg) = (false, shared cfg) ∧
  thread_step clock (TEntry key) (shared cfg) = (TDone false, shared cfg) ∧
  m (lim (shared cfg)) = ∅.
Proof.
  intros Hnew Hreach. unfold New in Hnew.
  destruct (validate rate 0); [done|]. injection Hnew as <-.
  assert (Hz : zero_capacity cfg).
  { revert cfg Hreach. apply (rtc_ind_r (λ cfg, zero_capacity cfg)).
    - repeat split; by constructor.
    - intros y z _ Hyz Hy. by eapply sys_step_zero_capacity. }
  destruct Hz as (Hb & Hm & _).
  split; [by apply Allow_zero_capacity|].
  split; [by apply thread_step_zero_capacity|done].
Qed.

End ZeroCapacity.

(** * Denials *)

Section Denial.

Context {arch : Arch}.
Variable clock : nat → Time.

(** A step of a goroutine that changes the map ends the call with true:
    a call that is denied has not written. *)
Lemma thread_step_write_allows th w :
  m (lim (thread_step clock th w).2) ≠ m (lim w) →
  (thread_step clock th w).1 = TDone true.
Proof.
  destruct w as [l k tr].
  destruct th as [key|key [|n]|key n t|key n buck|key n val|key n val buck|v];
    unfold thread_step, Load, LoadOrStore, CompareAndSwap, now, log,
      get_limiter, put_map, mbind, M_bind, mret, M_ret;
    cbn [fst snd lim ticks trace]; try done.
  - destruct (m l !! key); done.
  - destruct (m l !! key); [case_decide|]; done.
Qed.

(** C8.  When the refilled snapshot holds no token, the call is denied
    without any operation on the map: the step that decides the denial
    only reads the clock.  A step of a call that changes the map ends the
    call with true, so a denied call has written nothing.  Run alone, a
    call of [Allow] that returns false leaves the limiter, and with it
    every stored bucket and its [lastActivity], unchanged, and has only
    read the map. *)
Theorem deny_writes_nothing (key : string) (n : nat) (val : bucket)
    (th : thread) (w : world) :
  (¬ 0 < tokens (refill (lim w) val (clock (ticks w))) →
   thread_step clock (TNow key n val) w
   = (TDone false,
      {| lim := lim w; ticks := S (ticks w); trace := trace w |})) ∧
  (m (lim (thread_step clock th w).2) ≠ m (lim w) →
   (thread_step clock th w).1 = TDone true) ∧
  ((Allow clock key w).1 = false →
   lim (Allow clock key w).2 = lim w ∧
   ∃ ops, trace (Allow clock key w).2 = trace w ++ ops ∧ Forall is_read ops).
Proof.
  split; [|split; [apply thread_step_write_allows|]].
  - intros Hdeny.
    unfold thread_step, now, get_limiter, mbind, M_bind, mret, M_ret.
    cbn [lim ticks]. by rewrite decide_False.
  - rewrite Allow_unfold. case_decide as Hb.
    + intros _. split; [done|]. exists []. by rewrite app_nil_r.
    + change maxCASRetries with (S 99).
      destruct (m (lim w) !! key) as [val'|] eqn:Hk.
      * rewrite (Allow_loop_present _ _ _ _ val' Hk). cbv zeta.
        case_decide; [done|]. intros _. cbn [snd lim trace].
        split; [done|]. exists [EvLoad key]. split; [done|].
        by repeat constructor.
      * by rewrite (Allow_loop_absent _ _ _ _ Hk).
Qed.

End Denial.

(** * Elapsed time that is zero or negative *)

Section ClockSkew.

Context {arch : Arch}.

(** C4, as amended.  The refill does not clamp the elapsed time.  With no
    elapsed time it grants nothing, and with a negative elapsed time it
    grants nothing when the product [tokenRate * elapsedSeconds] truncates
    to zero, as it does for a rate of zero; the bucket is then left as it
    was. *)
Theorem nonpositive_elapsed_grants_nothing (r : rateLimiter) (buck : bucket)
    (t : Time) :
  is_finite (tokenRate r) = true →
  0 ≤ tokens buck ≤ burstSize r → burstSize r ≤ MaxUint →
  Sub t (lastRefill buck) ≤ 0 →
  Sub t (lastRefill buck) = 0 ∨ tokenRate r = zero ∨
    trunc (mul (tokenRate r) (Seconds (Sub t (lastRefill buck)))) = Some 0 →
  granted r (Sub t (lastRefill buck)) = 0 ∧ refill r buck t = buck.
Proof.
  intros Hrate Hbuck Hburst Hneg Hcase.
  assert (Hg : granted r (Sub t (lastRefill buck)) = 0).
  { destruct Hcase as [-> | [Hz | Htr]].
    - by apply granted_zero_elapsed.
    - apply granted_zero_rate; [done|apply Sub_range].
    - by apply uint_of_float64_zero. }
  split; [done|]. by apply refill_nothing_granted.
Qed.

End ClockSkew.

(** On amd64 a clock that stepped back by three seconds makes the refill
    convert [-3.0] to [2^64 - 3]; the sum with the five tokens wraps around
    to two, and the refill lowers the count from five to two.  The call of
    [Allow] then leaves one token in the bucket, where four would be left
    had the elapsed time counted as zero. *)
Lemma negative_elapsed_changes_tokens :
  validate (tokenRate skew_limiter) (burstSize skew_limiter) = None ∧
  Sub skew_now (lastRefill skew_bucket) = - (3 * Second) ∧
  @granted amd64 skew_limiter (Sub skew_now (lastRefill skew_bucket))
    = 2 ^ 64 - 3 ∧
  @refill amd64 skew_limiter skew_bucket skew_now
    = {| tokens := 2; lastRefill := skew_now;
         lastActivity := lastActivity skew_bucket |} ∧
  m (lim (@Allow amd64 (λ _, skew_now) "key" skew_world).2) !! "key"
    = Some {| tokens := 1; lastRefill := skew_now; lastActivity := skew_now |}.
Proof. vm_compute. done. Qed.

(** * Validation at the overflow boundary *)

(** A negative rate is rejected. *)
Lemma validate_negative rate burst :
  ltb rate zero = true →
  validate rate burst = Some (errors_New "token rate should not be negative").
Proof. intros H. unfold validate. change (of_Z 0) with zero. by rewrite H. Qed.

(** The two boundary cases of the tests: [MaxUint / 5000] passes,
    [MaxUint / 5000 + 1] does not. *)
Lemma validate_test_boundary :
  validate (of_Z (MaxUint / 5000)) 0 = None ∧
  validate (of_Z (MaxUint / 5000 + 1)) 0
    = Some (errors_New "token rate limit overflow").
Proof. vm_compute. done. Qed.

(** C9.  The rate 3689348814741910.5 passes the validation with a burst
    size of zero, and of one, and [New] returns a limiter, although
    [tokenRate * 5000 + burstSize] is at least [2^64 + 884], beyond
    [MaxUint]; the product as computed in [float64] is [2^64], which [uint]
    cannot hold. *)
Theorem validate_misses_overflow :
  validate boundary_rate 0 = None ∧
  validate boundary_rate 1 = None ∧
  (∃ r, New boundary_rate 0 = inr r) ∧
  spec_overflows boundary_rate 0 ∧
  float_num boundary_rate * 5000 = (2 ^ 64 + 884) * float_den boundary_rate ∧
  trunc (mul boundary_rate (of_Z 5000)) = Some (2 ^ 64).
Proof.
  split; [by vm_compute|]. split; [by vm_compute|].
  split; [eexists; by vm_compute|].
  split; [|by vm_compute]. split; [done|]. by vm_compute.
Qed.

(** * Shutdown *)

(** Closing twice panics. *)
Lemma close_twice_panics :
  New (of_Z 10) 10
    = inr {| tokenRate := of_Z 10; burstSize := 10; m := ∅; done := ChanOpen |} ∧
  Close {| tokenRate := of_Z 10; burstSize := 10; m := ∅; done := ChanOpen |}
    = Returned {| tokenRate := of_Z 10; burstSize := 10; m := ∅;
                  done := ChanClosed |} ∧
  Close {| tokenRate := of_Z 10; burstSize := 10; m := ∅; done := ChanClosed |}
    = Panicked "close of closed channel".
Proof. vm_compute. done. Qed.

Section Shutdown.

Context {arch : Arch}.
Variable clock : nat → Time.

(** C10, as amended.  The first [Close] of a limiter returned by [New]
    returns: it closes the [done] channel, on which the sweeper leaves its
    [select], and touches neither the map nor the configuration.  A second
    [Close] of the same limiter panics. *)
Theorem close_once_then_panic (rate : float64) (burst : Z) (r : rateLimiter) :
  New rate burst = inr r →
  ∃ r', Close r = Returned r' ∧
    done r' = ChanClosed ∧ m r' = m r ∧
    tokenRate r' = tokenRate r ∧ burstSize r' = burstSize r ∧
    (∀ w ths, lim w = r' →
       sys_step clock (Config w ths SwSelect) (Config w ths SwReturned)) ∧
    Close r' = Panicked "close of closed channel".
Proof.
  intros Hnew. unfold New in Hnew.
  destruct (validate rate burst); [done|]. injection Hnew as <-.
  eexists. split; [done|]. repeat split.
  intros w ths Hw.
  apply (step_sweeper_done clock (Config w ths SwSelect)); [done|].
  cbn [shared]. by rewrite Hw.
Qed.

End Shutdown.

(** * Concurrent calls for one key *)

Section Counting.

Lemma verdict_count_insert (v : bool) (ths : list thread) (i : nat) (th th' : thread) :
  ths !! i = Some th →
  (length (filter (λ th, is_verdict v th = true) (<[i := th']> ths))
   + (if is_verdict v th then 1 else 0)
   = length (filter (λ th, is_verdict v th = true) ths)
     + (if is_verdict v th' then 1 else 0))%nat.
Proof.
  revert i. induction ths as [|a ths IH]; intros i Hi; [done|].
  destruct i as [|i]; simpl in Hi.
  - injection Hi as ->. simpl. rewrite !filter_cons.
    destruct (is_verdict v th) eqn:E1, (is_verdict v th') eqn:E2;
      repeat case_decide; simpl; try congruence; lia.
  - simpl. rewrite !filter_cons. specialize (IH i Hi).
    case_decide; simpl; lia.
Qed.

Lemma verdict_count_lt (v : bool) (ths : list thread) (i : nat) (th : thread) :
  ths !! i = Some th → is_verdict v th = false →
  (length (filter (λ th, is_verdict v th = true) ths) < length ths)%nat.
Proof.
  revert i. induction ths as [|a ths IH]; intros i Hi Hv; [done|].
  rewrite filter_cons. destruct i as [|i]; simpl in Hi.
  - injection Hi as ->. rewrite decide_False by congruence.
    pose proof (length_filter (λ th, is_verdict v th = true) ths). simpl. lia.
  - specialize (IH i Hi Hv). case_decide; simpl; lia.
Qed.

End Counting.

Section RefillFacts.

Context {arch : Arch}.

Lemma uint_of_float64_nonneg f : 0 ≤ uint_of_float64 f.
Proof.
  unfold uint_of_float64.
  pose proof (wrap_range (cvt_unrepresentable f)).
  destruct (trunc f); [case_decide|]; lia.
Qed.

(** The refill depends on the rate and the burst size only. *)
Lemma refill_settings r r' buck t :
  tokenRate r' = tokenRate r → burstSize r' = burstSize r →
  refill r' buck t = refill r buck t.
Proof. intros Hr Hb. unfold refill, granted. by rewrite Hr, Hb. Qed.

End RefillFacts.

(** * Clock readings held by the calls, the buckets and the sweeper *)

Section Stamps.

Context {arch : Arch}.
Variable clock : nat → Time.

Lemma read_before_mono k k' t :
  (k ≤ k')%nat → read_before clock k t → read_before clock k' t.
Proof. intros Hk (i & Hi & ->). exists i. split; [lia|done]. Qed.

Lemma stamped_mono k k' b :
  (k ≤ k')%nat → stamped clock k b → stamped clock k' b.
Proof. intros Hk [? ?]. split; by eapply read_before_mono. Qed.

Lemma thread_stamped_mono k k' th :
  (k ≤ k')%nat → thread_stamped clock k th → thread_stamped clock k' th.
Proof.
  intros Hk. destruct th; cbn [thread_stamped]; try done.
  - by apply read_before_mono.
  - by apply stamped_mono.
  - by apply stamped_mono.
  - intros [? ?]. split; by eapply stamped_mono.
Qed.

Lemma sweeper_quiet_mono k k' sw :
  (k ≤ k')%nat → sweeper_quiet clock k sw → sweeper_quiet clock k' sw.
Proof. intros Hk. destruct sw; cbn [sweeper_quiet]; try done. by apply stamped_mono. Qed.

Lemma read_before_now k : read_before clock (S k) (clock k).
Proof. exists k. split; [lia|done]. Qed.

Lemma refill_stamped l val k :
  stamped clock k val →
  stamped clock (S k) (consume (refill l val (clock k)) (clock k)).
Proof.
  intros [Hr Ha]. split; cbn [consume lastRefill lastActivity].
  - unfold refill. case_decide; cbn [lastRefill].
    + apply read_before_now.
    + eapply read_before_mono; [|exact Hr]. lia.
  - apply read_before_now.
Qed.

(** A step of a call keeps the stamps, and reads the clock at most once. *)
Lemma thread_step_stamps th w :
  (∀ k0 b, m (lim w) !! k0 = Some b → stamped clock (ticks w) b) →
  thread_stamped clock (ticks w) th →
  (ticks w ≤ ticks (thread_step clock th w).2 ≤ S (ticks w))%nat ∧
  (∀ k0 b, m (lim (thread_step clock th w).2) !! k0 = Some b →
           stamped clock (ticks (thread_step clock th w).2) b) ∧
  thread_stamped clock (ticks (thread_step clock th w).2)
    (thread_step clock th w).1.
Proof.
  intros Hm Hth. destruct w as [l k tr]. cbn [lim ticks] in *.
  assert (Hm' : ∀ k0 b, m l !! k0 = Some b → stamped clock (S k) b).
  { intros k0 b Hb. eapply stamped_mono; [|by eapply Hm]. lia. }
  destruct th as [k0|k0 [|n]|k0 n t|k0 n b|k0 n val|k0 n val buck|v];
    cbn [thread_stamped] in Hth;
    unfold thread_step, Load, LoadOrStore, CompareAndSwap, now, log,
      get_limiter, put_map, mbind, M_bind, mret, M_ret;
    cbn [fst snd lim ticks trace].
  - split; [lia|]. split; [done|]. by case_decide.
  - split; [lia|]. done.
  - split; [lia|]. split; [done|]. cbn [thread_stamped]. apply read_before_now.
  - split; [lia|]. split; [done|].
    destruct (m l !! k0) as [val|] eqn:Hk; cbn [thread_stamped].
    + by eapply Hm.
    + split; done.
  - destruct (m l !! k0) as [actual|] eqn:Hk; cbn [fst snd lim ticks with_map m].
    + split; [lia|]. split; [done|]. cbn [thread_stamped]. by eapply Hm.
    + split; [lia|]. split; [|done].
      intros k1 b1. rewrite lookup_insert. case_decide.
      * by intros [= <-].
      * apply Hm.
  - split; [lia|]. split; [done|].
    case_decide; cbn [thread_stamped]; [|done].
    split; [by eapply stamped_mono; [|exact Hth]; lia|by apply refill_stamped].
  - destruct Hth as [Hval Hbuck].
    destruct (m l !! k0) as [cur|] eqn:Hk; [case_decide|];
      cbn [fst snd lim ticks with_map m]; (split; [lia|]); (split; [|done]);
      try done.
    intros k1 b1. rewrite lookup_insert. case_decide.
    + by intros [= <-].
    + apply Hm.
  - split; [lia|]. done.
Qed.

Lemma step_at_stamps cfg i :
  stamps_inv clock cfg →
  stamps_inv clock (step_at clock i cfg) ∧
  (ticks (shared (step_at clock i cfg)) ≤ S (ticks (shared cfg)))%nat.
Proof.
  intros (Hm & Hths & Hsw). unfold step_at.
  destruct (threads cfg !! i) as [th|] eqn:Hi; [|by split; [|lia]].
  pose proof (Forall_lookup_1 _ _ _ _ Hths Hi) as Hth.
  pose proof (thread_step_stamps th (shared cfg) Hm Hth) as (Hk & Hm' & Hth').
  destruct (thread_step clock th (shared cfg)) as [th' w']. cbn [fst snd] in *.
  cbn [shared threads evictor]. split; [|lia]. unfold stamps_inv.
  cbn [shared threads evictor]. split; [done|]. split.
  - apply Forall_insert; [|done].
    eapply Forall_impl; [exact Hths|]. intros th0.
    apply thread_stamped_mono. lia.
  - eapply sweeper_quiet_mono; [|exact Hsw]. lia.
Qed.

(** While every earlier reading is less than an hour before the current
    one, a step of the sweeper deletes nothing: the limiter and the calls
    stay as they are. *)
Lemma sweeper_at_stamps cfg :
  stamps_inv clock cfg →
  (∀ i, (i < ticks (shared cfg))%nat →
        Sub (clock (ticks (shared cfg))) (clock i) < Hour) →
  stamps_inv clock (sweeper_at clock cfg) ∧
  lim (shared (sweeper_at clock cfg)) = lim (shared cfg) ∧
  threads (sweeper_at clock cfg) = threads cfg ∧
  (ticks (shared (sweeper_at clock cfg)) ≤ S (ticks (shared cfg)))%nat.
Proof.
  intros (Hm & Hths & Hsw) Hhour. unfold sweeper_at, stamps_inv.
  destruct (shared cfg) as [l k tr]. cbn [lim ticks] in *.
  assert (Hths' : Forall (thread_stamped clock (S k)) (threads cfg)).
  { eapply Forall_impl; [exact Hths|]. intros th0.
    apply thread_stamped_mono. lia. }
  destruct (evictor cfg) as [|[|k0 rest]|k0 buck rest|k0 rest|];
    cbn [sweeper_quiet] in Hsw;
    unfold sweeper_step, Delete, now, log, get_limiter, put_map,
      mbind, M_bind, mret, M_ret;
    cbn [fst snd lim ticks trace shared threads evictor]; try done.
  - split; [|split; [done|split; [done|lia]]].
    split; [exact Hm|]. split; [exact Hths|done].
  - split; [|split; [done|split; [done|lia]]].
    split; [exact Hm|]. split; [exact Hths|done].
  - split; [|split; [done|split; [done|lia]]].
    split; [exact Hm|]. split; [exact Hths|].
    destruct (m l !! k0) as [buck|] eqn:Hk; cbn [sweeper_quiet]; [|done].
    by eapply Hm.
  - destruct Hsw as [_ (i & Hi & Hact)].
    rewrite decide_False by (rewrite Hact; specialize (Hhour i Hi); lia).
    split; [|split; [done|split; [done|lia]]].
    split; [|split; [exact Hths'|done]].
    intros k1 b1 Hb1. eapply stamped_mono; [|by eapply Hm]. lia.
  - split; [|split; [done|split; [done|lia]]].
    split; [exact Hm|]. split; [exact Hths|done].
Qed.

End Stamps.

(** A property of the limiter and the calls that every step of a call
    keeps is kept by every run of the calls and the sweeper, as long as the
    readings of the run are less than an hour apart. *)
Section RunInvariant.

Context {arch : Arch}.
Variable clock : nat → Time.
Variable B : nat.
Variable P : config → Prop.

Hypothesis within_the_hour :
  ∀ i j, (i < j < B)%nat → Sub (clock j) (clock i) < Hour.
Hypothesis P_call : ∀ cfg i,
  stamps_inv clock cfg → (ticks (shared cfg) < B)%nat →
  P cfg → P (step_at clock i cfg).
Hypothesis P_frame : ∀ cfg cfg',
  lim (shared cfg') = lim (shared cfg) → threads cfg' = threads cfg →
  P cfg → P cfg'.

Lemma run_cons tn sched cfg :
  run clock (tn :: sched) cfg = run clock sched (turn_at clock tn cfg).
Proof. done. Qed.

Lemma run_preserves sched : ∀ cfg,
  (ticks (shared cfg) + length sched ≤ B)%nat →
  stamps_inv clock cfg → P cfg →
  stamps_inv clock (run clock sched cfg) ∧ P (run clock sched cfg).
Proof.
  induction sched as [|tn sched IH]; intros cfg Hk Hs Hp; [done|].
  rewrite run_cons. cbn [length] in Hk. destruct tn as [i|]; cbn [turn_at].
  - destruct (step_at_stamps clock cfg i Hs) as [Hs' Hk'].
    apply IH; [lia|done|]. apply P_call; [done|lia|done].
  - destruct (sweeper_at_stamps clock cfg Hs) as (Hs' & Hl & Hth & Hk').
    { intros i Hi. apply within_the_hour. lia. }
    apply IH; [lia|done|]. by eapply P_frame.
Qed.

End RunInvariant.

(** * Every write of a call is an update of the bucket in the map *)

Section Writes.

Context {arch : Arch}.
Variable clock : nat → Time.
Variable r : rateLimiter.

Lemma fresh_settings l t : burstSize l = burstSize r → fresh l t = fresh r t.
Proof. intros Hb. unfold fresh. by rewrite Hb. Qed.

Lemma derived_mono k k' th :
  (k ≤ k')%nat → derived clock r k th → derived clock r k' th.
Proof.
  intros Hk. destruct th; cbn [derived]; try done.
  - by apply read_before_mono.
  - intros (j & Hj & ->). exists j. split; [lia|done].
  - intros (j & Hj & Hpos & ->). exists j. split; [lia|done].
Qed.

Lemma step_at_write_inv cfg i :
  write_inv clock r cfg → write_inv clock r (step_at clock i cfg).
Proof.
  intros (Hrate & Hburst & Hths). unfold step_at.
  destruct (threads cfg !! i) as [th|] eqn:Hi; [|done].
  pose proof (Forall_lookup_1 _ _ _ _ Hths Hi) as Hth.
  destruct (shared cfg) as [l k tr] eqn:Hw. cbn [lim ticks] in *.
  assert (Hmono : Forall (derived clock r (S k)) (threads cfg)).
  { eapply Forall_impl; [exact Hths|]. intros th0. apply derived_mono. lia. }
  destruct th as [k0|k0 [|n]|k0 n t|k0 n b|k0 n val|k0 n val buck|v];
    cbn [derived] in Hth;
    unfold thread_step, Load, LoadOrStore, CompareAndSwap, now, log,
      get_limiter, put_map, mbind, M_bind, mret, M_ret;
    cbn [fst snd lim ticks trace]; unfold write_inv;
    cbn [shared threads lim ticks].
  - split; [done|]. split; [done|]. apply Forall_insert; [done|]. by case_decide.
  - split; [done|]. split; [done|]. by apply Forall_insert.
  - split; [done|]. split; [done|]. apply Forall_insert; [done|].
    cbn [derived]. apply read_before_now.
  - split; [done|]. split; [done|]. apply Forall_insert; [done|].
    destruct (m l !! k0); cbn [derived]; [done|].
    destruct Hth as (j & Hj & ->). exists j. split; [done|].
    by apply fresh_settings.
  - destruct (m l !! k0) as [actual|] eqn:Hk; cbn [fst snd lim ticks with_map];
      (split; [done|]); (split; [done|]); by apply Forall_insert.
  - split; [done|]. split; [done|]. apply Forall_insert; [done|].
    rewrite (refill_settings r l) by done.
    case_decide; cbn [derived]; [|done]. exists k. split; [lia|done].
  - destruct (m l !! k0) as [cur|] eqn:Hk; [case_decide|];
      cbn [fst snd lim ticks with_map];
      (split; [done|]); (split; [done|]); by apply Forall_insert.
  - split; [done|]. split; [done|]. by apply Forall_insert.
Qed.

Lemma sweeper_at_write_inv cfg :
  write_inv clock r cfg → write_inv clock r (sweeper_at clock cfg).
Proof.
  intros (Hrate & Hburst & Hths). unfold sweeper_at, write_inv.
  destruct (shared cfg) as [l k tr]. cbn [lim ticks] in *.
  assert (Hmono : Forall (derived clock r (S k)) (threads cfg)).
  { eapply Forall_impl; [exact Hths|]. intros th0. apply derived_mono. lia. }
  destruct (evictor cfg) as [|[|k0 rest]|k0 buck rest|k0 rest|];
    unfold sweeper_step, Delete, now, log, get_limiter, put_map,
      mbind, M_bind, mret, M_ret;
    cbn [fst snd lim ticks trace shared threads with_map tokenRate burstSize];
    done.
Qed.

Lemma run_write_inv sched : ∀ cfg,
  write_inv clock r cfg → write_inv clock r (run clock sched cfg).
Proof.
  induction sched as [|tn sched IH]; intros cfg Hinv; [done|].
  change (run clock (tn :: sched) cfg) with (run clock sched (turn_at clock tn cfg)).
  apply IH. destruct tn; cbn [turn_at].
  - by apply step_at_write_inv.
  - by apply sweeper_at_write_inv.
Qed.

Lemma write_inv_initial calls key :
  write_inv clock r (concurrent_calls r calls key).
Proof.
  unfold write_inv. cbn [concurrent_calls shared threads lim].
  split; [done|]. split; [done|]. by apply Forall_replicate.
Qed.

(** A step of a call that changes the bucket of a key makes the call
    return true, and what it stores is the fresh bucket when the key was
    absent, and otherwise the bucket that was in the map, refilled and with
    one token consumed. *)
Lemma write_inv_write cfg i key :
  write_inv clock r cfg →
  m (lim (shared (step_at clock i cfg))) !! key ≠ m (lim (shared cfg)) !! key →
  allowed (step_at clock i cfg) = S (allowed cfg) ∧
  ∃ j, (j < ticks (shared cfg))%nat ∧
    match m (lim (shared cfg)) !! key with
    | None =>
        m (lim (shared (step_at clock i cfg))) !! key = Some (fresh r (clock j))
    | Some old =>
        0 < tokens (refill r old (clock j)) ∧
        m (lim (shared (step_at clock i cfg))) !! key
          = Some (consume (refill r old (clock j)) (clock j))
    end.
Proof.
  intros (Hrate & Hburst & Hths). unfold step_at.
  destruct (threads cfg !! i) as [th|] eqn:Hi; [|done].
  pose proof (Forall_lookup_1 _ _ _ _ Hths Hi) as Hth.
  assert (Hall : is_verdict true th = false →
    allowed (Config (thread_step clock th (shared cfg)).2
               (<[i := TDone true]> (threads cfg)) (evictor cfg))
    = S (allowed cfg)).
  { intros Hv. unfold allowed. cbn [threads].
    pose proof (verdict_count_insert true _ _ _ (TDone true) Hi) as Hc.
    rewrite Hv in Hc. simpl in Hc. lia. }
  destruct (shared cfg) as [l k tr] eqn:Hw. cbn [lim ticks] in *.
  destruct th as [k0|k0 [|n]|k0 n t|k0 n b|k0 n val|k0 n val buck|v];
    cbn [derived] in Hth; revert Hall;
    unfold thread_step, Load, LoadOrStore, CompareAndSwap, now, log,
      get_limiter, put_map, mbind, M_bind, mret, M_ret;
    cbn [fst snd lim ticks trace shared]; intros Hall; try done.
  - destruct (m l !! k0) as [actual|] eqn:Hk;
      cbn [fst snd lim shared with_map m]; [done|].
    destruct (decide (k0 = key)) as [->|Hne];
      [|by rewrite lookup_insert_ne].
    intros _. split; [by apply Hall|].
    destruct Hth as (j & Hj & ->). exists j. split; [done|].
    rewrite Hk. apply lookup_insert_eq.
  - destruct (m l !! k0) as [cur|] eqn:Hk; [case_decide as Hcv|];
      cbn [fst snd lim shared with_map m]; try done.
    subst cur. destruct (decide (k0 = key)) as [->|Hne];
      [|by rewrite lookup_insert_ne].
    intros _. split; [by apply Hall|].
    destruct Hth as (j & Hj & Hpos & ->). exists j. split; [done|].
    rewrite Hk. split; [done|]. apply lookup_insert_eq.
Qed.

End Writes.

(** * Races between calls of [Allow] for one key *)

Section Race.

Context {arch : Arch}.
Variable clock : nat → Time.
Variable B : nat.
Variable r : rateLimiter.
Variable key : string.

Hypothesis burst_range : 1 ≤ burstSize r ≤ 101.
Hypothesis no_wrap :
  ∀ i j, (i < j < B)%nat →
    granted r (Sub (clock j) (clock i)) + burstSize r ≤ MaxUint.

Lemma racing_mono W W' cur cur' th :
  (W < W')%nat →
  racing (burstSize r) key W cur th →
  racing (burstSize r) key W' cur' th.
Proof.
  intros HW.
  assert (Hsnap : ∀ n val, attempt_ok (burstSize r) W cur n val →
                           attempt_ok (burstSize r) W' cur' n val).
  { intros n val (wi & ? & ? & ? & ?). exists wi. repeat split; try done; lia. }
  destruct th; cbn [racing]; try done.
  - intros [? ?]. split; [done|lia].
  - intros [? ?]. split; [done|lia].
  - intros (? & ? & ?). repeat split; try done; lia.
  - intros [? ?]. split; [done|]. by apply Hsnap.
  - intros (? & ? & ?). repeat split; try done; try lia. by apply Hsnap.
Qed.

Lemma burst_inv_quiet cfg i th th' w' :
  burst_inv r key cfg →
  threads cfg !! i = Some th →
  is_verdict true th' = is_verdict true th →
  tokenRate (lim w') = tokenRate (lim (shared cfg)) →
  burstSize (lim w') = burstSize (lim (shared cfg)) →
  m (lim w') !! key = m (lim (shared cfg)) !! key →
  racing (burstSize r) key (allowed cfg) (m (lim (shared cfg)) !! key) th' →
  burst_inv r key (Config w' (<[i := th']> (threads cfg)) (evictor cfg)).
Proof.
  intros (Hrate & Hburst & Hlen & Hstore & Hths) Hi Hv Hr' Hb' Hm' Hth'.
  assert (Hall : allowed (Config w' (<[i := th']> (threads cfg)) (evictor cfg))
                 = allowed cfg).
  { unfold allowed. cbn [threads].
    pose proof (verdict_count_insert true _ _ _ th' Hi) as Hc.
    rewrite Hv in Hc. lia. }
  unfold burst_inv. rewrite Hall. cbn [shared threads].
  rewrite Hr', Hb', Hm', length_insert.
  repeat split; try done. by apply Forall_insert.
Qed.

Lemma burst_inv_write cfg i th w' b' :
  burst_inv r key cfg →
  threads cfg !! i = Some th →
  is_verdict true th = false →
  tokenRate (lim w') = tokenRate (lim (shared cfg)) →
  burstSize (lim w') = burstSize (lim (shared cfg)) →
  m (lim w') !! key = Some b' →
  burstSize r - Z.of_nat (S (allowed cfg)) ≤ tokens b' ≤ burstSize r - 1 →
  burst_inv r key (Config w' (<[i := TDone true]> (threads cfg)) (evictor cfg)).
Proof.
  intros (Hrate & Hburst & Hlen & Hstore & Hths) Hi Hv Hr' Hb' Hm' Htok.
  assert (Hall : allowed (Config w' (<[i := TDone true]> (threads cfg)) (evictor cfg))
                 = S (allowed cfg)).
  { unfold allowed. cbn [threads].
    pose proof (verdict_count_insert true _ _ _ (TDone true) Hi) as Hc.
    rewrite Hv in Hc. simpl in Hc. lia. }
  unfold burst_inv. rewrite Hall. cbn [shared threads].
  rewrite Hr', Hb', Hm', length_insert.
  repeat split; try done; try lia.
  apply Forall_insert; [|done].
  eapply Forall_impl; [exact Hths|]. intros th0. apply racing_mono. lia.
Qed.

(** A refill at reading [k] of a snapshot stamped earlier does not wrap
    around, so it never lowers the count. *)
Lemma refill_grows l val k :
  tokenRate l = tokenRate r → burstSize l = burstSize r →
  (k < B)%nat → read_before clock k (lastRefill val) →
  0 ≤ tokens val ≤ burstSize r - 1 →
  tokens val ≤ tokens (refill l val (clock k)) ≤ burstSize r.
Proof.
  intros Hrate Hburst Hk (i & Hi & Hlast) Hval.
  rewrite refill_tokens, Hlast, Hburst.
  assert (Hg : granted l (Sub (clock k) (clock i))
               = granted r (Sub (clock k) (clock i)))
    by (unfold granted; by rewrite Hrate).
  rewrite Hg. pose proof (no_wrap i k ltac:(lia)).
  pose proof (uint_of_float64_nonneg
                (mul (tokenRate r) (Seconds (Sub (clock k) (clock i))))).
  fold (granted r (Sub (clock k) (clock i))) in *.
  rewrite wrap_small by lia. lia.
Qed.

Lemma burst_inv_step cfg i :
  stamps_inv clock cfg → (ticks (shared cfg) < B)%nat →
  burst_inv r key cfg → burst_inv r key (step_at clock i cfg).
Proof.
  intros (_ & Hstamps & _) Hticks Hinv. unfold step_at.
  assert (Hmax : burstSize r ≤ MaxUint) by (unfold MaxUint, uint_size; lia).
  destruct (threads cfg !! i) as [th|] eqn:Hi; [|done].
  pose proof Hinv as (Hrate & Hburst & Hlen & Hstore & Hths).
  pose proof (Forall_lookup_1 _ _ _ _ Hths Hi) as Hth.
  pose proof (Forall_lookup_1 _ _ _ _ Hstamps Hi) as Hst.
  assert (HW : is_verdict true th = false →
               Z.of_nat (allowed cfg) < burstSize r).
  { intros Hv. pose proof (verdict_count_lt true _ _ _ Hi Hv).
    unfold allowed. lia. }
  destruct (shared cfg) as [l k tr] eqn:Hw. cbn [lim ticks] in *.
  destruct th as [k0|k0 [|n]|k0 n t|k0 n b|k0 n val|k0 n val buck|v];
    cbn [racing] in Hth; cbn [thread_stamped] in Hst;
    unfold thread_step, Load, LoadOrStore, CompareAndSwap, now, log,
      get_limiter, put_map, mbind, M_bind, mret, M_ret;
    cbn [fst snd lim ticks trace].
  - (* entry *)
    subst k0. rewrite decide_False by lia.
    apply (burst_inv_quiet cfg i (TEntry key)); rewrite ?Hw; try done.
    cbn [racing]. auto.
  - (* retries exhausted: excluded *)
    specialize (HW eq_refl). destruct Hth as [_ Hn]. lia.
  - (* top of an iteration *)
    destruct Hth as [-> Hn].
    apply (burst_inv_quiet cfg i (TLoop key (S n))); rewrite ?Hw; try done.
    cbn [racing]. split; [done|lia].
  - (* Load *)
    destruct Hth as (-> & Hn).
    destruct (m l !! key) as [val|] eqn:Hk.
    + destruct Hstore as (HW1 & Htok).
      apply (burst_inv_quiet cfg i (TLoad key n t)); rewrite ?Hw; try done.
      cbn [racing lim]. rewrite Hk. split; [done|].
      exists (allowed cfg). repeat split; try done; lia.
    + apply (burst_inv_quiet cfg i (TLoad key n t)); rewrite ?Hw; try done.
      cbn [racing lim fresh tokens]. rewrite Hburst.
      rewrite wrap_small by lia. done.
  - (* LoadOrStore *)
    destruct Hth as (-> & Hn & Hb).
    destruct (m l !! key) as [actual|] eqn:Hk.
    + destruct Hstore as (HW1 & Htok).
      apply (burst_inv_quiet cfg i (TLoadOrStore key n b)); rewrite ?Hw; try done.
      cbn [racing lim]. rewrite Hk. split; [done|].
      exists (allowed cfg). repeat split; try done; lia.
    + apply (burst_inv_write cfg i (TLoadOrStore key n b) _ b);
        rewrite ?Hw; try done.
      * cbn [lim with_map m]. apply lookup_insert_eq.
      * rewrite Hstore. lia.
  - (* refill and consume *)
    destruct Hth as (-> & wi & Hwi & Hfail & Hcur & Htok).
    specialize (HW eq_refl). destruct Hst as [Hread _].
    pose proof (refill_grows l val k Hrate Hburst Hticks Hread ltac:(lia))
      as Hgrow.
    rewrite decide_True by lia.
    apply (burst_inv_quiet cfg i (TNow key n val)); rewrite ?Hw; try done.
    cbn [racing consume tokens]. split; [done|].
    split; [by exists wi|]. rewrite wrap_small by lia. lia.
  - (* CompareAndSwap *)
    destruct Hth as (-> & (wi & Hwi & Hfail & Hcur & Htok) & Hbuck).
    specialize (HW eq_refl).
    assert (Hlost : m l !! key ≠ Some val →
              burst_inv r key
                (Config {| lim := l; ticks := k;
                           trace := tr ++ [EvCompareAndSwap key val buck] |}
                   (<[i := TLoop key n]> (threads cfg)) (evictor cfg))).
    { intros Hne.
      apply (burst_inv_quiet cfg i (TSwap key n val buck)); rewrite ?Hw; try done.
      cbn [racing]. split; [done|].
      destruct (decide (wi = allowed cfg)) as [Heq|Hneq]; [by apply Hcur in Heq|].
      lia. }
    destruct (m l !! key) as [cur|] eqn:Hk; [|by apply Hlost].
    case_decide as Hcv; [|apply Hlost; congruence]. subst cur.
    destruct Hstore as (HW1 & Htok').
    apply (burst_inv_write cfg i (TSwap key n val buck) _ buck);
      rewrite ?Hw; try done.
    + cbn [lim with_map m]. apply lookup_insert_eq.
    + lia.
  - (* returned *)
    subst v. rewrite <- Hw.
    replace (Config (shared cfg) (<[i := TDone true]> (threads cfg)) (evictor cfg))
      with cfg; [done|].
    rewrite list_insert_id by done. by destruct cfg.
Qed.

End Race.

Section Accounts.

Context {arch : Arch}.
Variable clock : nat → Time.
Variable B : nat.
Variable r : rateLimiter.
Variable key : string.

Hypothesis burst_range : 1 ≤ burstSize r ≤ MaxUint.
Hypothesis nothing_granted :
  ∀ i j, (i < j < B)%nat → granted r (Sub (clock j) (clock i)) = 0.

Lemma account_inv_quiet cfg i th th' w' :
  account_inv r key cfg →
  threads cfg !! i = Some th →
  is_verdict true th' = is_verdict true th →
  tokenRate (lim w') = tokenRate (lim (shared cfg)) →
  burstSize (lim w') = burstSize (lim (shared cfg)) →
  m (lim w') !! key = m (lim (shared cfg)) !! key →
  spend_ok (burstSize r) key th' →
  account_inv r key (Config w' (<[i := th']> (threads cfg)) (evictor cfg)).
Proof.
  intros (Hrate & Hburst & Hstore & Hths) Hi Hv Hr' Hb' Hm' Hth'.
  assert (Hall : allowed (Config w' (<[i := th']> (threads cfg)) (evictor cfg))
                 = allowed cfg).
  { unfold allowed. cbn [threads].
    pose proof (verdict_count_insert true _ _ _ th' Hi) as Hc.
    rewrite Hv in Hc. lia. }
  unfold account_inv. rewrite Hall. cbn [shared threads].
  rewrite Hr', Hb', Hm'. repeat split; try done. by apply Forall_insert.
Qed.

Lemma account_inv_write cfg i th w' b' :
  account_inv r key cfg →
  threads cfg !! i = Some th →
  is_verdict true th = false →
  tokenRate (lim w') = tokenRate (lim (shared cfg)) →
  burstSize (lim w') = burstSize (lim (shared cfg)) →
  m (lim w') !! key = Some b' →
  0 ≤ tokens b' →
  tokens b' + Z.of_nat (S (allowed cfg)) = burstSize r →
  account_inv r key (Config w' (<[i := TDone true]> (threads cfg)) (evictor cfg)).
Proof.
  intros (Hrate & Hburst & Hstore & Hths) Hi Hv Hr' Hb' Hm' Hpos Htok.
  assert (Hall : allowed (Config w' (<[i := TDone true]> (threads cfg)) (evictor cfg))
                 = S (allowed cfg)).
  { unfold allowed. cbn [threads].
    pose proof (verdict_count_insert true _ _ _ (TDone true) Hi) as Hc.
    rewrite Hv in Hc. simpl in Hc. lia. }
  unfold account_inv. rewrite Hall. cbn [shared threads].
  rewrite Hr', Hb', Hm'. repeat split; try done. by apply Forall_insert.
Qed.

Lemma account_inv_step cfg i :
  stamps_inv clock cfg → (ticks (shared cfg) < B)%nat →
  account_inv r key cfg → account_inv r key (step_at clock i cfg).
Proof.
  intros (_ & Hstamps & _) Hticks Hinv. unfold step_at.
  destruct (threads cfg !! i) as [th|] eqn:Hi; [|done].
  pose proof Hinv as (Hrate & Hburst & Hstore & Hths).
  pose proof (Forall_lookup_1 _ _ _ _ Hths Hi) as Hth.
  pose proof (Forall_lookup_1 _ _ _ _ Hstamps Hi) as Hst.
  destruct (shared cfg) as [l k tr] eqn:Hw. cbn [lim ticks] in *.
  destruct th as [k0|k0 [|n]|k0 n t|k0 n b|k0 n val|k0 n val buck|v];
    cbn [spend_ok] in Hth; cbn [thread_stamped] in Hst;
    unfold thread_step, Load, LoadOrStore, CompareAndSwap, now, log,
      get_limiter, put_map, mbind, M_bind, mret, M_ret;
    cbn [fst snd lim ticks trace].
  - subst k0. case_decide.
    + apply (account_inv_quiet cfg i (TEntry key)); rewrite ?Hw; done.
    + apply (account_inv_quiet cfg i (TEntry key)); rewrite ?Hw; done.
  - subst k0. apply (account_inv_quiet cfg i (TLoop key 0)); rewrite ?Hw; done.
  - subst k0. apply (account_inv_quiet cfg i (TLoop key (S n))); rewrite ?Hw; done.
  - subst k0. destruct (m l !! key) as [val|] eqn:Hk.
    + apply (account_inv_quiet cfg i (TLoad key n t)); rewrite ?Hw; try done.
      cbn [spend_ok]. split; [done|].
      pose proof (Nat2Z.is_nonneg (allowed cfg)). lia.
    + apply (account_inv_quiet cfg i (TLoad key n t)); rewrite ?Hw; try done.
      cbn [spend_ok fresh tokens]. rewrite Hburst. rewrite wrap_small by lia. done.
  - destruct Hth as [-> Hb]. destruct (m l !! key) as [actual|] eqn:Hk.
    + apply (account_inv_quiet cfg i (TLoadOrStore key n b)); rewrite ?Hw; try done.
      cbn [spend_ok]. split; [done|].
      pose proof (Nat2Z.is_nonneg (allowed cfg)). lia.
    + apply (account_inv_write cfg i (TLoadOrStore key n b) _ b);
        rewrite ?Hw; try done.
      * cbn [lim with_map m]. apply lookup_insert_eq.
      * lia.
      * rewrite Hstore. lia.
  - destruct Hth as [-> Hval]. destruct Hst as [(i0 & Hi0 & Hlast) _].
    rewrite refill_nothing_granted; [| |lia|lia].
    2:{ rewrite Hlast. unfold granted. rewrite Hrate.
        apply (nothing_granted i0 k). lia. }
    case_decide.
    + apply (account_inv_quiet cfg i (TNow key n val)); rewrite ?Hw; try done.
      cbn [spend_ok consume tokens]. rewrite wrap_small by lia.
      repeat split; try done; lia.
    + apply (account_inv_quiet cfg i (TNow key n val)); rewrite ?Hw; done.
  - destruct Hth as (-> & Hval & Hbuck).
    destruct (m l !! key) as [cur|] eqn:Hk; [case_decide as Hcv|].
    + subst cur. destruct Hstore as [Hpos Htok].
      apply (account_inv_write cfg i (TSwap key n val buck) _ buck);
        rewrite ?Hw; try done.
      * cbn [lim with_map m]. apply lookup_insert_eq.
      * lia.
      * lia.
    + apply (account_inv_quiet cfg i (TSwap key n val buck)); rewrite ?Hw; done.
    + apply (account_inv_quiet cfg i (TSwap key n val buck)); rewrite ?Hw; done.
  - rewrite <- Hw.
    replace (Config (shared cfg) (<[i := TDone v]> (threads cfg)) (evictor cfg))
      with cfg; [done|].
    rewrite list_insert_id by done. by destruct cfg.
Qed.

End Accounts.

Section Termination.

Context {arch : Arch}.
Variable clock : nat → Time.

Lemma thread_step_steps_left th w :
  (steps_left (thread_step clock th w).1 ≤ steps_left th - 1)%nat.
Proof.
  destruct w as [l k tr].
  destruct th as [k0|k0 [|n]|k0 n t|k0 n b|k0 n val|k0 n val buck|v];
    unfold thread_step, Load, LoadOrStore, CompareAndSwap, now, log,
      get_limiter, put_map, mbind, M_bind, mret, M_ret, maxCASRetries;
    cbn [fst snd lim ticks trace];
    repeat match goal with
           | |- context [m l !! k0] => destruct (m l !! k0)
           | |- context [decide _] => case_decide
           end;
    cbn [fst steps_left]; unfold maxCASRetries; lia.
Qed.

Lemma step_at_left i cfg j :
  (left_at (step_at clock i cfg) j
   ≤ left_at cfg j - (if decide (i = j) then 1 else 0))%nat.
Proof.
  unfold left_at, step_at.
  destruct (threads cfg !! i) as [th|] eqn:Hi;
    [|case_decide; subst; rewrite ?Hi; simpl; lia].
  pose proof (thread_step_steps_left th (shared cfg)) as Hle.
  destruct (thread_step clock th (shared cfg)) as [th' w']. cbn [fst threads] in *.
  case_decide as Hij.
  - subst j. rewrite list_lookup_insert_eq by (by eapply lookup_lt_Some).
    rewrite Hi. done.
  - rewrite list_lookup_insert_ne by done. by rewrite Nat.sub_0_r.
Qed.

Lemma exec_left sched : ∀ cfg j,
  (left_at (exec clock sched cfg) j ≤ left_at cfg j - occurrences j sched)%nat.
Proof.
  induction sched as [|i sched IH]; intros cfg j.
  { change (exec clock [] cfg) with cfg. unfold occurrences.
    rewrite filter_nil. cbn [length]. lia. }
  change (exec clock (i :: sched) cfg) with (exec clock sched (step_at clock i cfg)).
  specialize (IH (step_at clock i cfg) j).
  pose proof (step_at_left i cfg j).
  unfold occurrences in *. rewrite filter_cons.
  repeat case_decide; simpl; try congruence; lia.
Qed.

Lemma step_at_length i cfg :
  length (threads (step_at clock i cfg)) = length (threads cfg).
Proof.
  unfold step_at. destruct (threads cfg !! i); [|done].
  destruct (thread_step clock _ _). cbn [threads]. apply length_insert.
Qed.

Lemma exec_length sched : ∀ cfg,
  length (threads (exec clock sched cfg)) = length (threads cfg).
Proof.
  induction sched as [|i sched IH]; intros cfg; [done|].
  change (exec clock (i :: sched) cfg) with (exec clock sched (step_at clock i cfg)).
  by rewrite IH, step_at_length.
Qed.

Lemma steps_left_done th : steps_left th = O → is_done th = true.
Proof. destruct th; cbn [steps_left]; unfold maxCASRetries; try lia. done. Qed.

(** A complete schedule brings every call to its end. *)
Lemma complete_finished calls key r sched :
  complete calls sched = true →
  finished (exec clock sched (concurrent_calls r calls key)) = true.
Proof.
  intros Hc. unfold finished. apply forallb_forall. intros th Hin.
  apply list_elem_of_In, list_elem_of_lookup in Hin as [j Hj].
  assert (Hlt : (j < calls)%nat).
  { apply lookup_lt_Some in Hj. rewrite exec_length in Hj.
    cbn [concurrent_calls threads] in Hj. by rewrite length_replicate in Hj. }
  unfold complete in Hc. rewrite forallb_forall in Hc.
  specialize (Hc j). rewrite in_seq in Hc.
  apply Nat.leb_le in Hc; [|lia].
  pose proof (exec_left sched (concurrent_calls r calls key) j) as Hle.
  unfold left_at in Hle. rewrite Hj in Hle. cbn [from_option] in Hle.
  cbn [concurrent_calls threads] in Hle.
  rewrite lookup_replicate_2 in Hle by done. cbn [from_option steps_left] in Hle.
  apply steps_left_done. lia.
Qed.

End Termination.

Section BurstOfCalls.

Context {arch : Arch}.
Variable clock : nat → Time.

Lemma verdict_count_entries v key calls :
  length (filter (λ th, is_verdict v th = true) (replicate calls (TEntry key))) = O.
Proof.
  induction calls as [|calls IH]; [done|].
  cbn [replicate]. rewrite filter_cons. by rewrite decide_False.
Qed.

Lemma sweeper_at_threads cfg : threads (sweeper_at clock cfg) = threads cfg.
Proof.
  unfold sweeper_at. by destruct (sweeper_step clock (evictor cfg) (shared cfg)).
Qed.

Lemma run_left sched : ∀ cfg j,
  (left_at (run clock sched cfg) j
   ≤ left_at cfg j - occurrences j (calls_of sched))%nat.
Proof.
  induction sched as [|tn sched IH]; intros cfg j.
  { change (run clock [] cfg) with cfg. unfold occurrences. cbn [calls_of flat_map].
    rewrite filter_nil. cbn [length]. lia. }
  rewrite run_cons. specialize (IH (turn_at clock tn cfg) j).
  destruct tn as [i|]; cbn [turn_at calls_of flat_map app] in *.
  - pose proof (step_at_left clock i cfg j).
    fold (calls_of sched). unfold occurrences in *. rewrite filter_cons.
    repeat case_decide; simpl; try congruence; lia.
  - fold (calls_of sched). unfold left_at in *.
    by rewrite sweeper_at_threads in IH.
Qed.

Lemma run_length sched : ∀ cfg,
  length (threads (run clock sched cfg)) = length (threads cfg).
Proof.
  induction sched as [|tn sched IH]; intros cfg; [done|].
  rewrite run_cons, IH. destruct tn; cbn [turn_at].
  - apply step_at_length.
  - by rewrite sweeper_at_threads.
Qed.

(** A schedule that gives every call its 502 turns brings every call to
    its end, whatever the sweeper does in between. *)
Lemma complete_run_finished calls key r sched :
  complete calls (calls_of sched) = true →
  finished (run clock sched (concurrent_calls r calls key)) = true.
Proof.
  intros Hc. unfold finished. apply forallb_forall. intros th Hin.
  apply list_elem_of_In, list_elem_of_lookup in Hin as [j Hj].
  assert (Hlt : (j < calls)%nat).
  { apply lookup_lt_Some in Hj. rewrite run_length in Hj.
    cbn [concurrent_calls threads] in Hj. by rewrite length_replicate in Hj. }
  unfold complete in Hc. rewrite forallb_forall in Hc.
  specialize (Hc j). rewrite in_seq in Hc.
  apply Nat.leb_le in Hc; [|lia].
  pose proof (run_left sched (concurrent_calls r calls key) j) as Hle.
  unfold left_at in Hle. rewrite Hj in Hle. cbn [from_option] in Hle.
  cbn [concurrent_calls threads] in Hle.
  rewrite lookup_replicate_2 in Hle by done. cbn [from_option steps_left] in Hle.
  apply steps_left_done. lia.
Qed.

Lemma stamps_inv_initial r calls key :
  m r = ∅ → stamps_inv clock (concurrent_calls r calls key).
Proof.
  intros Hm. unfold stamps_inv. cbn [concurrent_calls shared threads evictor lim].
  rewrite Hm. split; [by intros k0 b; rewrite lookup_empty|].
  split; [by apply Forall_replicate|done].
Qed.

Lemma burst_inv_initial r key calls :
  m r = ∅ → burstSize r = Z.of_nat calls →
  burst_inv r key (concurrent_calls r calls key).
Proof.
  intros Hm Hb. unfold burst_inv, allowed.
  cbn [concurrent_calls shared threads lim].
  rewrite Hm, lookup_empty, length_replicate, verdict_count_entries.
  repeat split; try done. apply Forall_replicate. done.
Qed.

Lemma burst_inv_frame r key cfg cfg' :
  lim (shared cfg') = lim (shared cfg) → threads cfg' = threads cfg →
  burst_inv r key cfg → burst_inv r key cfg'.
Proof. unfold burst_inv, allowed. by intros -> ->. Qed.

Lemma burst_inv_no_denial r key cfg :
  burst_inv r key cfg → denied cfg = O.
Proof.
  intros (_ & _ & _ & _ & Hths). unfold denied.
  induction Hths as [|th ths Hth _ IH]; [done|].
  rewrite filter_cons. rewrite decide_False; [done|].
  destruct th; cbn [racing] in Hth; try done. by subst.
Qed.

Lemma burst_inv_all_allowed r key cfg :
  burst_inv r key cfg → finished cfg = true →
  allowed cfg = length (threads cfg).
Proof.
  intros (_ & _ & _ & _ & Hths). unfold allowed, finished.
  induction Hths as [|th ths Hth _ IH]; intros Hfin; [done|].
  cbn [forallb] in Hfin. apply andb_true_iff in Hfin as [Hd Hfin].
  rewrite filter_cons. destruct th; try done. cbn [racing] in Hth. subst.
  rewrite decide_True by done. cbn [length]. by rewrite IH.
Qed.

Lemma account_inv_initial r key calls :
  m r = ∅ → account_inv r key (concurrent_calls r calls key).
Proof.
  intros Hm. unfold account_inv, allowed.
  cbn [concurrent_calls shared threads lim].
  rewrite Hm, lookup_empty, verdict_count_entries.
  repeat split; try done. by apply Forall_replicate.
Qed.

Lemma account_inv_frame r key cfg cfg' :
  lim (shared cfg') = lim (shared cfg) → threads cfg' = threads cfg →
  account_inv r key cfg → account_inv r key cfg'.
Proof. unfold account_inv, allowed. by intros -> ->. Qed.

(** C3, as amended.  Take [N] concurrent calls of [Allow] for one fresh key
    on a limiter of burst size [N] returned by [New], and the state [cfg]
    after any interleaving of the steps of the calls and of the sweeper.

    - No update is lost and no token is spent twice: a step of a call that
      changes the bucket of the key makes exactly that call return true,
      and it stores the fresh bucket when the key was absent, and otherwise
      the bucket that was in the map at that moment, refilled and with one
      token consumed.
    - Let the readings of the clock lie less than an hour after the earlier
      ones, so that the sweeper evicts nothing.  While no refill grants a
      token, the tokens left in the bucket and the calls allowed so far add
      up to [N].  And with [N] at most 101, one more than the retry bound,
      and no refill wrapping around, no call is denied; once all calls
      have returned, all [N] of them are allowed; a schedule that gives
      each call its 502 turns makes all calls return; and the bucket holds
      at least [N] minus the calls allowed so far and at most [N - 1]
      tokens. *)
Theorem burst_of_calls_all_allowed (rate : float64) (N : Z) (r : rateLimiter)
    (key : string) (sched : list turn) (cfg : config) :
  1 ≤ N ≤ MaxUint →
  New rate N = inr r →
  cfg = run clock sched (concurrent_calls r (Z.to_nat N) key) →
  (∀ i,
     m (lim (shared (step_at clock i cfg))) !! key ≠ m (lim (shared cfg)) !! key →
     allowed (step_at clock i cfg) = S (allowed cfg) ∧
     ∃ j, (j < ticks (shared cfg))%nat ∧
       match m (lim (shared cfg)) !! key with
       | None =>
           m (lim (shared (step_at clock i cfg))) !! key
             = Some (fresh r (clock j))
       | Some old =>
           0 < tokens (refill r old (clock j)) ∧
           m (lim (shared (step_at clock i cfg))) !! key
             = Some (consume (refill r old (clock j)) (clock j))
       end) ∧
  ((∀ i j, (i < j < length sched)%nat → Sub (clock j) (clock i) < Hour) →
   ((∀ i j, (i < j < length sched)%nat →
       granted r (Sub (clock j) (clock i)) = 0) →
    Z.of_nat (allowed cfg) ≤ N ∧
    ∀ buck, m (lim (shared cfg)) !! key = Some buck →
            tokens buck + Z.of_nat (allowed cfg) = N) ∧
   (N ≤ 101 →
    (∀ i j, (i < j < length sched)%nat →
       granted r (Sub (clock j) (clock i)) + N ≤ MaxUint) →
    denied cfg = O ∧
    (finished cfg = true → allowed cfg = Z.to_nat N) ∧
    (complete (Z.to_nat N) (calls_of sched) = true → finished cfg = true) ∧
    ∀ buck, m (lim (shared cfg)) !! key = Some buck →
            N - Z.of_nat (allowed cfg) ≤ tokens buck ≤ N - 1)).
Proof.
  intros HN Hnew ->. unfold New in Hnew.
  destruct (validate rate N); [done|]. injection Hnew as <-.
  set (r := {| tokenRate := rate; burstSize := N; m := ∅; done := ChanOpen |}) in *.
  set (cfg0 := concurrent_calls r (Z.to_nat N) key).
  assert (Hs0 : stamps_inv clock cfg0) by (by apply stamps_inv_initial).
  assert (Hk0 : (ticks (shared cfg0) + length sched ≤ length sched)%nat)
    by (cbn [cfg0 concurrent_calls shared ticks]; lia).
  split.
  { intros i. apply write_inv_write, run_write_inv, write_inv_initial. }
  intros Hhour. split.
  - intros Hnone.
    assert (Hinv : account_inv r key (run clock sched cfg0)).
    { apply (run_preserves clock (length sched) (account_inv r key) Hhour);
        try done.
      - intros cfg i.
        apply (account_inv_step clock (length sched) r key);
          [exact HN|exact Hnone].
      - apply account_inv_frame.
      - by apply account_inv_initial. }
    destruct Hinv as (_ & _ & Hstore & _).
    destruct (m (lim (shared (run clock sched cfg0))) !! key) as [b|].
    + cbn [burstSize r] in Hstore. split; [lia|]. intros buck [= <-]. lia.
    + rewrite Hstore. split; [lia|done].
  - intros H101 Hwrap.
    assert (Hinv : burst_inv r key (run clock sched cfg0)).
    { apply (run_preserves clock (length sched) (burst_inv r key) Hhour);
        try done.
      - intros cfg i.
        apply (burst_inv_step clock (length sched) r key);
          [cbn [burstSize r]; lia|exact Hwrap].
      - apply burst_inv_frame.
      - apply burst_inv_initial; [done|]. cbn [burstSize r]. lia. }
    split; [by eapply burst_inv_no_denial|]. split; [|split].
    + intros Hfin.
      rewrite (burst_inv_all_allowed r key _ Hinv Hfin), run_length.
      cbn [cfg0 concurrent_calls threads]. apply length_replicate.
    + apply complete_run_finished.
    + intros buck Hb. destruct Hinv as (_ & _ & _ & Hstore & _).
      rewrite Hb in Hstore. cbn [burstSize r] in Hstore. lia.
Qed.

End BurstOfCalls.

(** With 102 concurrent calls on a fresh key of a limiter of burst size 102,
    the schedule [starve] ends with 101 calls allowed and one denied: the
    denied call lost a hundred compare-and-swap races in a row and ran out
    of retries, although a token is left. *)
Lemma hundred_lost_races_deny :
  New zero 102
    = inr {| tokenRate := zero; burstSize := 102; m := ∅; done := ChanOpen |} ∧
  finished
    (@exec amd64 (λ _, 0) starve
       (concurrent_calls
          {| tokenRate := zero; burstSize := 102; m := ∅; done := ChanOpen |}
          102 "k")) = true ∧
  allowed
    (@exec amd64 (λ _, 0) starve
       (concurrent_calls
          {| tokenRate := zero; burstSize := 102; m := ∅; done := ChanOpen |}
          102 "k")) = 101%nat ∧
  denied
    (@exec amd64 (λ _, 0) starve
       (concurrent_calls
          {| tokenRate := zero; burstSize := 102; m := ∅; done := ChanOpen |}
          102 "k")) = 1%nat ∧
  tokens <$>
    m (lim (shared
      (@exec amd64 (λ _, 0) starve
         (concurrent_calls
            {| tokenRate := zero; burstSize := 102; m := ∅; done := ChanOpen |}
            102 "k")))) !! "k" = Some 1.
Proof. vm_compute. done. Qed.

(** With 101 concurrent calls on a fresh key of a limiter of burst size
    101 and a clock that advances by an hour with every reading, the
    schedule [evict_last] ends with 100 calls allowed and one denied: the
    denied call lost 99 races to other calls and its last one to the
    sweeper, which evicted the key between its snapshot and its swap. *)
Lemma eviction_during_run_denies :
  New zero 101 = inr zero_101 ∧
  finished (@run amd64 hour_clock evict_last (concurrent_calls zero_101 101 "k"))
    = true ∧
  allowed (@run amd64 hour_clock evict_last (concurrent_calls zero_101 101 "k"))
    = 100%nat ∧
  denied (@run amd64 hour_clock evict_last (concurrent_calls zero_101 101 "k"))
    = 1%nat ∧
  m (lim (shared (@run amd64 hour_clock evict_last
                    (concurrent_calls zero_101 101 "k")))) !! "k" = None.
Proof. vm_compute. done. Qed.

(** * Runs of a schedule are runs of the system *)

Section Runs.

Context {arch : Arch}.
Variable clock : nat → Time.

Lemma reachable_step_at r cfg i :
  reachable clock r cfg → reachable clock r (step_at clock i cfg).
Proof.
  intros Hreach. unfold step_at.
  destruct (threads cfg !! i) as [th|] eqn:Hi; [|done].
  destruct (thread_step clock th (shared cfg)) as [th' w'] eqn:Hst.
  eapply rtc_r; [exact Hreach|]. by eapply step_thread.
Qed.

Lemma reachable_exec r sched :
  ∀ cfg, reachable clock r cfg → reachable clock r (exec clock sched cfg).
Proof.
  induction sched as [|i sched IH]; intros cfg Hreach; [done|].
  change (exec clock (i :: sched) cfg) with (exec clock sched (step_at clock i cfg)).
  apply IH. by apply reachable_step_at.
Qed.

(** A run of calls and sweeper is a run of the system. *)
Lemma reachable_run r sched :
  ∀ cfg, reachable clock r cfg → reachable clock r (run clock sched cfg).
Proof.
  induction sched as [|tn sched IH]; intros cfg Hreach; [done|].
  change (run clock (tn :: sched) cfg) with (run clock sched (turn_at clock tn cfg)).
  apply IH. destruct tn as [i|]; cbn [turn_at].
  - by apply reachable_step_at.
  - unfold sweeper_at.
    destruct (sweeper_step clock (evictor cfg) (shared cfg)) as [sw' w'] eqn:Hst.
    eapply rtc_r; [exact Hreach|]. by apply step_sweeper.
Qed.

Lemma reachable_concurrent_calls r calls key :
  reachable clock r (concurrent_calls r calls key).
Proof.
  induction calls as [|calls IH]; [apply rtc_refl|].
  unfold concurrent_calls. rewrite replicate_S_end.
  eapply rtc_r; [exact IH|].
  apply (step_call clock (concurrent_calls r calls key) key).
Qed.

End Runs.

(** * The scenarios of the test suite *)

(** [TestInput] *)
Lemma test_input :
  validate (of_Z 21) 32 = None ∧
  validate (of_Z MaxUint) MaxUint
    = Some (errors_New "token rate limit overflow") ∧
  validate (of_Z (MaxUint / 5000)) 0 = None ∧
  validate (of_Z (MaxUint / 5000 + 1)) 0
    = Some (errors_New "token rate limit overflow") ∧
  validate (of_Z 23) 20 = None ∧
  validate (div (of_Z (- 234)) (of_Z 100)) 23
    = Some (errors_New "token rate should not be negative").
Proof. vm_compute. done. Qed.

(** [TestAllow]: eleven calls in a row on a limiter of rate and burst ten. *)
Lemma test_allow_burst :
  (@Allow_many amd64 still_clock 11 "key" (World ten_ten O [])).1
  = replicate 10 true ++ [false].
Proof. vm_compute. done. Qed.

(** [TestAllowTokenRateFill]: rate one, burst ten; ten calls are allowed and
    the eleventh is denied; five seconds later five calls are allowed and
    the sixth is denied. *)
Lemma test_allow_token_rate_fill :
  (@Allow_many amd64 (λ i, if (i <? 21)%nat then 0 else 5 * Second) 17 "user1"
     (World {| tokenRate := of_Z 1; burstSize := 10; m := ∅; done := ChanOpen |}
        O [])).1
  = replicate 10 true ++ [false] ++ replicate 5 true ++ [false].
Proof. vm_compute. done. Qed.

(** A clock three seconds behind the refill time grants nothing on arm64,
    where the conversion of a negative float saturates at zero. *)
Lemma negative_elapsed_saturates_on_arm64 :
  @granted arm64 skew_limiter (Sub skew_now (lastRefill skew_bucket)) = 0 ∧
  @refill arm64 skew_limiter skew_bucket skew_now = skew_bucket.
Proof. vm_compute. done. Qed.

(** * The theorems at concrete inputs *)

Lemma zero_rate_allows_exactly_burst_witness :
  1 ≤ 3 ≤ MaxUint ∧
  ∃ r, New zero 3 = inr r ∧
    (@Allow_many amd64 still_clock 5 "key" (World r O [])).1
    = [true; true; true; false; false].
Proof.
  assert (H : 1 ≤ 3 ≤ MaxUint) by (by vm_compute).
  split; [exact H|].
  exact (@zero_rate_allows_exactly_burst amd64 still_clock 3 "key" 5 H).
Defined.

Lemma tokens_within_burst_witness :
  0 ≤ 10 ≤ MaxUint ∧
  New (of_Z 10) 10 = inr ten_ten ∧
  @reachable amd64 still_clock ten_ten one_call ∧
  m (lim (shared one_call)) !! "key"
    = Some {| tokens := 9; lastRefill := 0; lastActivity := 0 |} ∧
  ∀ key buck, m (lim (shared one_call)) !! key = Some buck →
    0 ≤ tokens buck ≤ 10.
Proof.
  assert (H1 : 0 ≤ 10 ≤ MaxUint) by (by vm_compute).
  assert (H2 : New (of_Z 10) 10 = inr ten_ten) by (by vm_compute).
  assert (H3 : @reachable amd64 still_clock ten_ten one_call)
    by (apply reachable_exec, reachable_concurrent_calls).
  split; [exact H1|]. split; [exact H2|]. split; [exact H3|].
  split; [by vm_compute|].
  exact (proj1 (@tokens_within_burst amd64 still_clock (of_Z 10) 10
                  ten_ten one_call H1 H2 H3)).
Defined.

Lemma second_clock_Sub i j :
  (i ≤ j)%nat → Z.of_nat j ≤ 1000000 →
  Sub (second_clock j) (second_clock i) = Z.of_nat (j - i) * Second.
Proof.
  intros Hij Hj. unfold Sub, second_clock, minDuration, maxDuration, Second.
  change (2 ^ 63) with 9223372036854775808. lia.
Qed.

Lemma forallb_below (f : nat → bool) (B : nat) :
  forallb f (seq 0 B) = true → ∀ d, (d < B)%nat → f d = true.
Proof.
  intros Hf d Hd. rewrite forallb_forall in Hf. apply Hf, in_seq. lia.
Qed.

Lemma burst_of_calls_all_allowed_witness :
  1 ≤ 2 ≤ MaxUint ∧
  New (of_Z 10) 2 = inr ten_two ∧
  (∀ i j, (i < j < length two_calls_swept)%nat →
     Sub (second_clock j) (second_clock i) < Hour) ∧
  (∀ i j, (i < j < length two_calls_swept)%nat →
     @granted amd64 ten_two (Sub (second_clock j) (second_clock i)) + 2 ≤ MaxUint) ∧
  complete 2 (calls_of two_calls_swept) = true ∧
  denied (@run amd64 second_clock two_calls_swept
            (concurrent_calls ten_two 2 "key")) = O ∧
  finished (@run amd64 second_clock two_calls_swept
              (concurrent_calls ten_two 2 "key")) = true ∧
  allowed (@run amd64 second_clock two_calls_swept
             (concurrent_calls ten_two 2 "key")) = 2%nat ∧
  New zero 2 = inr zero_two ∧
  ∀ buck,
    m (lim (shared (@run amd64 second_clock two_calls_swept
                      (concurrent_calls zero_two 2 "key")))) !! "key"
      = Some buck →
    tokens buck
      + Z.of_nat (allowed (@run amd64 second_clock two_calls_swept
                             (concurrent_calls zero_two 2 "key"))) = 2.
Proof.
  assert (Hlen : length two_calls_swept = 1506%nat) by (vm_compute; reflexivity).
  assert (H1 : 1 ≤ 2 ≤ MaxUint) by (by vm_compute).
  assert (H2 : New (of_Z 10) 2 = inr ten_two) by (vm_compute; reflexivity).
  assert (H3 : ∀ i j, (i < j < length two_calls_swept)%nat →
                 Sub (second_clock j) (second_clock i) < Hour).
  { intros i j Hij. rewrite Hlen in Hij. rewrite second_clock_Sub by lia.
    apply Z.ltb_lt.
    apply (forallb_below (λ d, Z.of_nat d * Second <? Hour) 1506);
      [vm_compute; reflexivity|lia]. }
  assert (H4 : ∀ i j, (i < j < length two_calls_swept)%nat →
                 @granted amd64 ten_two (Sub (second_clock j) (second_clock i)) + 2
                 ≤ MaxUint).
  { intros i j Hij. rewrite Hlen in Hij. rewrite second_clock_Sub by lia.
    apply Z.leb_le.
    apply (forallb_below
             (λ d, @granted amd64 ten_two (Z.of_nat d * Second) + 2 <=? MaxUint)
             1506); [vm_compute; reflexivity|lia]. }
  assert (H5 : complete 2 (calls_of two_calls_swept) = true)
    by (vm_compute; reflexivity).
  assert (H6 : 2 ≤ 101) by lia.
  assert (H7 : New zero 2 = inr zero_two) by (vm_compute; reflexivity).
  assert (H8 : ∀ i j, (i < j < length two_calls_swept)%nat →
                 @granted amd64 zero_two (Sub (second_clock j) (second_clock i)) = 0).
  { intros i j _. apply granted_zero_rate; [reflexivity|apply Sub_range]. }
  split; [exact H1|]. split; [exact H2|]. split; [exact H3|].
  split; [exact H4|]. split; [exact H5|].
  destruct (proj2 (proj2 (@burst_of_calls_all_allowed amd64 second_clock
                            (of_Z 10) 2 ten_two "key" two_calls_swept
                            (@run amd64 second_clock two_calls_swept
                               (concurrent_calls ten_two 2 "key"))
                            H1 H2 eq_refl) H3) H6 H4)
    as (Hden & Hall & Hfin & _).
  split; [exact Hden|]. split; [exact (Hfin H5)|].
  split; [exact (Hall (Hfin H5))|]. split; [exact H7|].
  exact (proj2 (proj1 (proj2 (@burst_of_calls_all_allowed amd64 second_clock
                                zero 2 zero_two "key" two_calls_swept
                                (@run amd64 second_clock two_calls_swept
                                   (concurrent_calls zero_two 2 "key"))
                                H1 H7 eq_refl) H3) H8)).
Defined.

Lemma nonpositive_elapsed_grants_nothing_witness :
  is_finite (tokenRate skew_limiter) = true ∧
  Sub (10 * Second) (lastRefill skew_bucket) = 0 ∧
  @granted amd64 skew_limiter (Sub (10 * Second) (lastRefill skew_bucket)) = 0 ∧
  @refill amd64 skew_limiter skew_bucket (10 * Second) = skew_bucket.
Proof.
  assert (H1 : is_finite (tokenRate skew_limiter) = true) by (by vm_compute).
  assert (H2 : 0 ≤ tokens skew_bucket ≤ burstSize skew_limiter) by (by vm_compute).
  assert (H3 : burstSize skew_limiter ≤ MaxUint) by (by vm_compute).
  assert (H4 : Sub (10 * Second) (lastRefill skew_bucket) = 0) by (by vm_compute).
  assert (H5 : Sub (10 * Second) (lastRefill skew_bucket) ≤ 0) by (by vm_compute).
  split; [exact H1|]. split; [exact H4|].
  exact (@nonpositive_elapsed_grants_nothing amd64 skew_limiter skew_bucket
           (10 * Second) H1 H2 H3 H5 (or_introl H4)).
Defined.

Lemma refill_time_set_iff_tokens_change_witness :
  m (lim waiting_world) !! "key" = Some spent_bucket ∧
  spec_grantable (lim waiting_world) spent_bucket (2 * Second) = Some 2 ∧
  @refill amd64 (lim waiting_world) spent_bucket (2 * Second)
    = {| tokens := 2; lastRefill := 2 * Second; lastActivity := 0 |} ∧
  ∃ buck,
    m (lim (@Allow amd64 ticking_clock "key" waiting_world).2) !! "key" = Some buck ∧
    lastRefill buck = 2 * Second.
Proof.
  assert (H1 : 2 * Second = ticking_clock (S (ticks waiting_world)))
    by (by vm_compute).
  assert (H2 : 2 = spec_candidateTokens (lim waiting_world) spent_bucket 2)
    by (by vm_compute).
  assert (H3 : 1 ≤ burstSize (lim waiting_world)) by (by vm_compute).
  assert (H4 : m (lim waiting_world) !! "key" = Some spent_bucket)
    by (by vm_compute).
  assert (H5 : spec_grantable (lim waiting_world) spent_bucket (2 * Second) = Some 2)
    by (by vm_compute).
  assert (H6 : 0 ≤ 2) by lia.
  assert (H7 : 0 ≤ tokens spent_bucket) by (by vm_compute).
  assert (H8 : tokens spent_bucket + 2 ≤ MaxUint) by (by vm_compute).
  split; [exact H4|]. split; [exact H5|]. split; [by vm_compute|].
  exact (proj2 (proj2 (proj2 (@refill_time_set_iff_tokens_change amd64
                         ticking_clock "key" waiting_world spent_bucket 2
                         (2 * Second) 2 H1 H2 H3 H4 H5 H6 H7 H8)))).
Defined.

Lemma fresh_key_gets_bucket_witness :
  1 ≤ burstSize (lim (World ten_ten O [])) ≤ MaxUint ∧
  m (lim (World ten_ten O [])) !! "key" = None ∧
  @Allow amd64 still_clock "key" (World ten_ten O [])
  = (true,
     {| lim := with_map ten_ten
                 {["key" := {| tokens := 9; lastRefill := 0; lastActivity := 0 |}]};
        ticks := 1;
        trace := [EvLoad "key";
                  EvLoadOrStore "key"
                    {| tokens := 9; lastRefill := 0; lastActivity := 0 |}] |}).
Proof.
  assert (H1 : 1 ≤ burstSize (lim (World ten_ten O [])) ≤ MaxUint)
    by (by vm_compute).
  assert (H2 : m (lim (World ten_ten O [])) !! "key" = None) by (by vm_compute).
  split; [exact H1|]. split; [exact H2|].
  exact (proj2 (proj2 (proj2 (@fresh_key_gets_bucket amd64 still_clock "key" O 0
                                (World ten_ten O []) H1 H2)))).
Defined.

Lemma zero_capacity_rejects_witness :
  New (of_Z 10) 0 = inr no_capacity ∧
  @reachable amd64 still_clock no_capacity one_rejected ∧
  threads one_rejected = [TDone false] ∧
  @Allow amd64 still_clock "other" (shared one_rejected) = (false, shared one_rejected) ∧
  m (lim (shared one_rejected)) = ∅.
Proof.
  assert (H1 : New (of_Z 10) 0 = inr no_capacity) by (by vm_compute).
  assert (H2 : @reachable amd64 still_clock no_capacity one_rejected)
    by (apply reachable_exec, reachable_concurrent_calls).
  split; [exact H1|]. split; [exact H2|]. split; [by vm_compute|].
  pose proof (@zero_capacity_rejects amd64 still_clock (of_Z 10) no_capacity
                one_rejected "other" H1 H2) as (Ha & _ & Hm).
  split; [exact Ha|exact Hm].
Defined.

Lemma deny_writes_nothing_witness :
  @thread_step amd64 still_clock (TNow "key" 99 spent_bucket) spent_world
  = (TDone false,
     {| lim := lim spent_world; ticks := 1; trace := [] |}) ∧
  (@Allow amd64 still_clock "key" spent_world).1 = false ∧
  lim (@Allow amd64 still_clock "key" spent_world).2 = lim spent_world.
Proof.
  pose proof (@deny_writes_nothing amd64 still_clock "key" 99 spent_bucket
                (TDone false) spent_world) as (Hstep & _ & Hseq).
  assert (H1 : ¬ 0 < tokens (@refill amd64 (lim spent_world) spent_bucket
                               (still_clock (ticks spent_world))))
    by (by vm_compute).
  assert (H2 : (@Allow amd64 still_clock "key" spent_world).1 = false)
    by (by vm_compute).
  split; [exact (Hstep H1)|]. split; [exact H2|]. exact (proj1 (Hseq H2)).
Defined.

Lemma close_once_then_panic_witness :
  New (of_Z 10) 10 = inr ten_ten ∧
  ∃ r', Close ten_ten = Returned r' ∧ done r' = ChanClosed ∧
    Close r' = Panicked "close of closed channel".
Proof.
  assert (H : New (of_Z 10) 10 = inr ten_ten) by (by vm_compute).
  split; [exact H|].
  destruct (@close_once_then_panic amd64 still_clock (of_Z 10) 10 ten_ten H)
    as (r' & Hc & Hd & _ & _ & _ & _ & Hp).
  exists r'. split; [exact Hc|]. split; [exact Hd|exact Hp].
Defined.

(** * Further properties of [Allow], the sweeper, [Close] and [validate] *)

(** ** Keys are independent, and calls leave the settings alone *)

Section Frame.

Context {arch : Arch}.
Variable clock : nat → Time.

Lemma thread_step_frame th w key' :
  thread_key th ≠ Some key' →
  m (lim (thread_step clock th w).2) !! key' = m (lim w) !! key'.
Proof.
  intros Hk. destruct w as [l k tr].
  destruct th as [k0|k0 [|n]|k0 n t|k0 n b|k0 n val|k0 n val buck|v];
    unfold thread_step, Load, LoadOrStore, CompareAndSwap, now, log,
      get_limiter, put_map, mbind, M_bind, mret, M_ret;
    cbn [fst snd lim ticks trace]; try done.
  - destruct (m l !! k0); [done|]. cbn [snd lim with_map m].
    apply lookup_insert_ne. cbn [thread_key] in Hk. congruence.
  - destruct (m l !! k0); [case_decide|]; try done. cbn [snd lim with_map m].
    apply lookup_insert_ne. cbn [thread_key] in Hk. congruence.
Qed.

Lemma thread_step_keeps_keys th w key' :
  is_Some (m (lim w) !! key') →
  is_Some (m (lim (thread_step clock th w).2) !! key').
Proof.
  intros Hs. destruct w as [l k tr].
  destruct th as [k0|k0 [|n]|k0 n t|k0 n b|k0 n val|k0 n val buck|v];
    unfold thread_step, Load, LoadOrStore, CompareAndSwap, now, log,
      get_limiter, put_map, mbind, M_bind, mret, M_ret;
    cbn [fst snd lim ticks trace]; try done.
  - destruct (m l !! k0); [done|]. cbn [snd lim with_map m].
    rewrite lookup_insert. by case_decide.
  - destruct (m l !! k0); [case_decide|]; try done. cbn [snd lim with_map m].
    rewrite lookup_insert. by case_decide.
Qed.

Lemma thread_step_settings th w :
  same_settings (lim w) (lim (thread_step clock th w).2).
Proof.
  destruct w as [l k tr].
  destruct th as [k0|k0 [|n]|k0 n t|k0 n b|k0 n val|k0 n val buck|v];
    unfold thread_step, Load, LoadOrStore, CompareAndSwap, now, log,
      get_limiter, put_map, mbind, M_bind, mret, M_ret;
    cbn [fst snd lim ticks trace]; try done.
  - by destruct (m l !! k0).
  - destruct (m l !! k0); [case_decide|]; done.
Qed.

Lemma Allow_frame key w key' :
  key ≠ key' → m (lim (Allow clock key w).2) !! key' = m (lim w) !! key'.
Proof.
  intros Hne. rewrite Allow_unfold. case_decide; [done|].
  change maxCASRetries with (S 99).
  destruct (m (lim w) !! key) as [val|] eqn:Hk.
  - rewrite (Allow_loop_present _ _ _ _ val Hk). cbv zeta.
    case_decide; [|done]. cbn [snd lim with_map m]. by apply lookup_insert_ne.
  - rewrite (Allow_loop_absent _ _ _ _ Hk). cbn [snd lim with_map m].
    by apply lookup_insert_ne.
Qed.

Lemma Allow_keeps_keys key w key' :
  is_Some (m (lim w) !! key') →
  is_Some (m (lim (Allow clock key w).2) !! key').
Proof.
  intros Hs. rewrite Allow_unfold. case_decide; [done|].
  change maxCASRetries with (S 99).
  destruct (m (lim w) !! key) as [val|] eqn:Hk.
  - rewrite (Allow_loop_present _ _ _ _ val Hk). cbv zeta.
    case_decide; [|done]. cbn [snd lim with_map m].
    rewrite lookup_insert. by case_decide.
  - rewrite (Allow_loop_absent _ _ _ _ Hk). cbn [snd lim with_map m].
    rewrite lookup_insert. by case_decide.
Qed.

Lemma Allow_settings key w : same_settings (lim w) (lim (Allow clock key w).2).
Proof.
  rewrite Allow_unfold. case_decide; [done|].
  change maxCASRetries with (S 99).
  destruct (m (lim w) !! key) as [val|] eqn:Hk.
  - rewrite (Allow_loop_present _ _ _ _ val Hk). cbv zeta. by case_decide.
  - by rewrite (Allow_loop_absent _ _ _ _ Hk).
Qed.

(** X3.  A call of [Allow] for one key never touches the bucket of another
    key: neither a single step of its goroutine, wherever in the loop it
    stands, nor the call as a whole changes what the map holds for a
    different key. *)
Theorem other_keys_untouched (th : thread) (key key' : string) (w : world) :
  thread_key th = Some key → key ≠ key' →
  m (lim (thread_step clock th w).2) !! key' = m (lim w) !! key' ∧
  m (lim (Allow clock key w).2) !! key' = m (lim w) !! key'.
Proof.
  intros Hth Hne. split; [|by apply Allow_frame].
  apply thread_step_frame. rewrite Hth. congruence.
Qed.

(** X4.  [Allow] never removes a key and never assigns [tokenRate],
    [burstSize] or [done]: a key present before a step of a call, or before
    a whole call, is present after it, and the three fields are the same. *)
Theorem calls_keep_keys_and_settings (th : thread) (key key' : string) (w : world) :
  is_Some (m (lim w) !! key') →
  is_Some (m (lim (thread_step clock th w).2) !! key') ∧
  is_Some (m (lim (Allow clock key w).2) !! key') ∧
  same_settings (lim w) (lim (thread_step clock th w).2) ∧
  same_settings (lim w) (lim (Allow clock key w).2).
Proof.
  intros Hs. split; [by apply thread_step_keeps_keys|].
  split; [by apply Allow_keeps_keys|].
  split; [apply thread_step_settings|apply Allow_settings].
Qed.

End Frame.

(** ** No token is spent twice *)

Section Spending.

Context {arch : Arch}.
Variable clock : nat → Time.
Variable r : rateLimiter.
Variable key : string.

Hypothesis burst_range : 1 ≤ burstSize r ≤ MaxUint.

Lemma spend_inv_quiet cfg i th th' w' :
  spend_inv r key cfg →
  threads cfg !! i = Some th →
  is_verdict true th' = is_verdict true th →
  tokenRate (lim w') = tokenRate (lim (shared cfg)) →
  burstSize (lim w') = burstSize (lim (shared cfg)) →
  m (lim w') !! key = m (lim (shared cfg)) !! key →
  spend_ok (burstSize r) key th' →
  spend_inv r key (Config w' (<[i := th']> (threads cfg)) (evictor cfg)).
Proof.
  intros (Hrate & Hburst & Hstore & Hths) Hi Hv Hr' Hb' Hm' Hth'.
  assert (Hall : allowed (Config w' (<[i := th']> (threads cfg)) (evictor cfg))
                 = allowed cfg).
  { unfold allowed. cbn [threads].
    pose proof (verdict_count_insert true _ _ _ th' Hi) as Hc.
    rewrite Hv in Hc. lia. }
  unfold spend_inv. rewrite Hall. cbn [shared threads].
  rewrite Hr', Hb', Hm'. repeat split; try done. by apply Forall_insert.
Qed.

Lemma spend_inv_write cfg i th w' b' :
  spend_inv r key cfg →
  threads cfg !! i = Some th →
  is_verdict true th = false →
  tokenRate (lim w') = tokenRate (lim (shared cfg)) →
  burstSize (lim w') = burstSize (lim (shared cfg)) →
  m (lim w') !! key = Some b' →
  0 ≤ tokens b' →
  tokens b' + Z.of_nat (S (allowed cfg)) = burstSize r →
  spend_inv r key (Config w' (<[i := TDone true]> (threads cfg)) (evictor cfg)).
Proof.
  intros (Hrate & Hburst & Hstore & Hths) Hi Hv Hr' Hb' Hm' Hpos Htok.
  assert (Hall : allowed (Config w' (<[i := TDone true]> (threads cfg)) (evictor cfg))
                 = S (allowed cfg)).
  { unfold allowed. cbn [threads].
    pose proof (verdict_count_insert true _ _ _ (TDone true) Hi) as Hc.
    rewrite Hv in Hc. simpl in Hc. lia. }
  unfold spend_inv. rewrite Hall. cbn [shared threads].
  rewrite Hr', Hb', Hm'. repeat split; try done. by apply Forall_insert.
Qed.

Lemma spend_inv_step cfg i :
  spend_inv r key cfg → spend_inv r key (step_at clock i cfg).
Proof.
  intros Hinv. unfold step_at.
  destruct (threads cfg !! i) as [th|] eqn:Hi; [|done].
  pose proof Hinv as (Hrate & Hburst & Hstore & Hths).
  pose proof (Forall_lookup_1 _ _ _ _ Hths Hi) as Hth.
  destruct (shared cfg) as [l k tr] eqn:Hw. cbn [lim] in *.
  destruct th as [k0|k0 [|n]|k0 n t|k0 n b|k0 n val|k0 n val buck|v];
    cbn [spend_ok] in Hth;
    unfold thread_step, Load, LoadOrStore, CompareAndSwap, now, log,
      get_limiter, put_map, mbind, M_bind, mret, M_ret;
    cbn [fst snd lim ticks trace].
  - subst k0. case_decide.
    + apply (spend_inv_quiet cfg i (TEntry key)); rewrite ?Hw; done.
    + apply (spend_inv_quiet cfg i (TEntry key)); rewrite ?Hw; done.
  - subst k0. apply (spend_inv_quiet cfg i (TLoop key 0)); rewrite ?Hw; done.
  - subst k0. apply (spend_inv_quiet cfg i (TLoop key (S n))); rewrite ?Hw; done.
  - subst k0. destruct (m l !! key) as [val|] eqn:Hk.
    + apply (spend_inv_quiet cfg i (TLoad key n t)); rewrite ?Hw; try done.
      cbn [spend_ok]. split; [done|].
      pose proof (Nat2Z.is_nonneg (allowed cfg)). lia.
    + apply (spend_inv_quiet cfg i (TLoad key n t)); rewrite ?Hw; try done.
      cbn [spend_ok fresh tokens]. rewrite Hburst. rewrite wrap_small by lia. done.
  - destruct Hth as [-> Hb]. destruct (m l !! key) as [actual|] eqn:Hk.
    + apply (spend_inv_quiet cfg i (TLoadOrStore key n b)); rewrite ?Hw; try done.
      cbn [spend_ok]. split; [done|].
      pose proof (Nat2Z.is_nonneg (allowed cfg)). lia.
    + apply (spend_inv_write cfg i (TLoadOrStore key n b) _ b);
        rewrite ?Hw; try done.
      * cbn [lim with_map m]. apply lookup_insert_eq.
      * lia.
      * rewrite Hstore. lia.
  - destruct Hth as [-> Hval].
    rewrite refill_nothing_granted;
      [|apply granted_zero_rate; [done|apply Sub_range]|lia|lia].
    case_decide.
    + apply (spend_inv_quiet cfg i (TNow key n val)); rewrite ?Hw; try done.
      cbn [spend_ok consume tokens]. rewrite wrap_small by lia.
      repeat split; try done; lia.
    + apply (spend_inv_quiet cfg i (TNow key n val)); rewrite ?Hw; done.
  - destruct Hth as (-> & Hval & Hbuck).
    destruct (m l !! key) as [cur|] eqn:Hk; [case_decide as Hcv|].
    + subst cur. destruct Hstore as [Hpos Htok].
      apply (spend_inv_write cfg i (TSwap key n val buck) _ buck);
        rewrite ?Hw; try done.
      * cbn [lim with_map m]. apply lookup_insert_eq.
      * lia.
      * lia.
    + apply (spend_inv_quiet cfg i (TSwap key n val buck)); rewrite ?Hw; done.
    + apply (spend_inv_quiet cfg i (TSwap key n val buck)); rewrite ?Hw; done.
  - rewrite <- Hw.
    replace (Config (shared cfg) (<[i := TDone v]> (threads cfg)) (evictor cfg))
      with cfg; [done|].
    rewrite list_insert_id by done. by destruct cfg.
Qed.

Lemma spend_inv_exec sched :
  ∀ cfg, spend_inv r key cfg → spend_inv r key (exec clock sched cfg).
Proof.
  induction sched as [|i sched IH]; intros cfg Hinv; [done|].
  change (exec clock (i :: sched) cfg) with (exec clock sched (step_at clock i cfg)).
  apply IH. by apply spend_inv_step.
Qed.

End Spending.

Section NoDoubleSpend.

Context {arch : Arch}.
Variable clock : nat → Time.

(** X1.  The compare-and-swap loop never spends a token twice.  On a
    limiter from [New(0, N)], for any number of concurrent calls of [Allow]
    for one key, any interleaving of their steps and any point of the run
    (finished or not), at most [N] calls have been allowed, and once the key
    has a bucket its tokens and the calls allowed so far add up to [N]. *)
Theorem zero_rate_never_overspends (N : Z) (r : rateLimiter) (calls : nat)
    (key : string) (sched : list nat) :
  1 ≤ N ≤ MaxUint →
  New zero N = inr r →
  Z.of_nat (allowed (exec clock sched (concurrent_calls r calls key))) ≤ N ∧
  ∀ buck,
    m (lim (shared (exec clock sched (concurrent_calls r calls key)))) !! key
      = Some buck →
    tokens buck
      + Z.of_nat (allowed (exec clock sched (concurrent_calls r calls key))) = N.
Proof.
  intros HN Hnew. unfold New in Hnew.
  destruct (validate zero N); [done|]. injection Hnew as <-.
  set (r := {| tokenRate := zero; burstSize := N; m := ∅; done := ChanOpen |}).
  assert (Hinv : spend_inv r key (exec clock sched (concurrent_calls r calls key))).
  { apply spend_inv_exec; [done|].
    unfold spend_inv, allowed. cbn [concurrent_calls shared threads lim r m].
    rewrite lookup_empty, verdict_count_entries.
    repeat split; try done. by apply Forall_replicate. }
  destruct Hinv as (_ & _ & Hstore & _).
  destruct (m (lim (shared (exec clock sched (concurrent_calls r calls key)))) !! key)
    as [b|].
  - cbn [burstSize r] in Hstore. split; [lia|]. intros buck [= <-]. lia.
  - rewrite Hstore. split; [lia|done].
Qed.

End NoDoubleSpend.

(** ** Each key has a budget of its own *)

Section PerKey.

Context {arch : Arch}.
Variable clock : nat → Time.

Lemma Allow_each_cons key rest w :
  Allow_each clock (key :: rest) w
  = ((Allow clock key w).1 :: (Allow_each clock rest (Allow clock key w).2).1,
     (Allow_each clock rest (Allow clock key w).2).2).
Proof.
  cbn [Allow_each]. unfold mbind, M_bind, mret, M_ret.
  destruct (Allow clock key w) as [v w1]. cbn [fst snd].
  by destruct (Allow_each clock rest w1).
Qed.

Lemma remaining_frame key key' w :
  key ≠ key' →
  remaining (lim (Allow clock key w).2) key' = remaining (lim w) key'.
Proof.
  intros Hne. unfold remaining. rewrite (Allow_frame clock key w key' Hne).
  pose proof (Allow_settings clock key w) as (_ & Hb & _). by rewrite Hb.
Qed.

Lemma Allow_each_zero_rate N keys : ∀ seen w,
  tokenRate (lim w) = zero →
  burstSize (lim w) = N → 1 ≤ N ≤ MaxUint →
  (∀ k, remaining (lim w) k = Z.max 0 (N - Z.of_nat (calls_for k seen))) →
  (Allow_each clock keys w).1 = budget_verdicts N seen keys.
Proof.
  induction keys as [|key rest IH]; intros seen w Hrate Hburst HN Hrem; [done|].
  rewrite Allow_each_cons. cbn [fst budget_verdicts].
  assert (Hb : 1 ≤ burstSize (lim w) ≤ MaxUint) by (rewrite Hburst; done).
  assert (Hr : 0 ≤ remaining (lim w) key ≤ burstSize (lim w))
    by (rewrite Hrem, Hburst; lia).
  pose proof (Allow_zero_rate_step clock key w Hrate Hb Hr)
    as (Hv & Hrem' & Hrate' & Hburst').
  f_equal.
  - rewrite Hv, Hrem. apply bool_decide_ext. lia.
  - apply IH; try done; [congruence|].
    intros k. destruct (decide (key = k)) as [->|Hne].
    + rewrite Hrem', Hv, Hrem. unfold calls_for. rewrite filter_cons.
      rewrite decide_True by done. cbn [length].
      rewrite Nat2Z.inj_succ.
      destruct (decide (0 < 0 `max` (N - Z.of_nat (length (filter (λ k0, k0 = k) seen)))));
        [rewrite bool_decide_true by done|rewrite bool_decide_false by done]; lia.
    + rewrite remaining_frame by done. rewrite Hrem.
      unfold calls_for. rewrite filter_cons. by rewrite decide_False.
Qed.

(** X2.  Each key has a budget of its own.  On a limiter from [New(0, N)],
    in any sequence of calls of [Allow] for any mix of keys, a call is
    allowed exactly when fewer than [N] earlier calls of the sequence were
    for the same key; calls for other keys do not count. *)
Theorem zero_rate_budget_is_per_key (N : Z) (r : rateLimiter) (keys : list string) :
  1 ≤ N ≤ MaxUint →
  New zero N = inr r →
  (Allow_each clock keys (World r O [])).1 = budget_verdicts N [] keys.
Proof.
  intros HN Hnew. unfold New in Hnew. rewrite validate_zero_rate in Hnew.
  injection Hnew as <-.
  apply Allow_each_zero_rate; try done.
  intros k. unfold remaining, calls_for. cbn [lim m burstSize].
  rewrite lookup_empty, filter_nil. cbn [length]. lia.
Qed.

End PerKey.

(** ** Calls return within a bounded number of steps *)

Section WaitFree.

Context {arch : Arch}.
Variable clock : nat → Time.


(** X6.  A call of [Allow] that runs without interference never retries:
    it performs at most two operations on the map, a [Load] followed by at
    most one [LoadOrStore] or [CompareAndSwap], all for its own key, and
    reads the clock at most twice; with no operation at all the burst size
    is zero. *)
Theorem lone_call_never_retries (key : string) (w : world) :
  (ticks (Allow clock key w).2 ≤ ticks w + 2)%nat ∧
  ((trace (Allow clock key w).2 = trace w ∧ burstSize (lim w) = 0) ∨
   trace (Allow clock key w).2 = trace w ++ [EvLoad key] ∨
   (∃ buck, trace (Allow clock key w).2
            = trace w ++ [EvLoad key; EvLoadOrStore key buck]) ∨
   (∃ val buck, trace (Allow clock key w).2
                = trace w ++ [EvLoad key; EvCompareAndSwap key val buck])).
Proof.
  rewrite Allow_unfold. case_decide as Hb.
  - cbn [snd]. split; [lia|]. by left.
  - change maxCASRetries with (S 99).
    destruct (m (lim w) !! key) as [val|] eqn:Hk.
    + rewrite (Allow_loop_present _ _ _ _ val Hk). cbv zeta.
      case_decide; cbn [snd trace ticks].
      * split; [lia|]. do 3 right. rewrite <- app_assoc. by eexists _, _.
      * split; [lia|]. right. by left.
    + rewrite (Allow_loop_absent _ _ _ _ Hk). cbn [snd trace ticks].
      split; [lia|]. do 2 right. left. rewrite <- app_assoc. by eexists.
Qed.

(** X7.  A compare-and-swap on a key that the sweeper has deleted since the
    snapshot was loaded fails without writing.  If iterations of the loop
    are left, the call goes round again: running on without interference it
    finds the key absent and is allowed with a fresh bucket of
    [burstSize - 1] tokens.  If it was the last iteration, the call is
    denied and the key stays absent. *)
Theorem swap_after_eviction_retries_afresh (key : string) (n : nat)
    (val buck : bucket) (w : world) :
  1 ≤ burstSize (lim w) ≤ MaxUint →
  m (lim w) !! key = None →
  thread_step clock (TSwap key n val buck) w
    = (TLoop key n,
       {| lim := lim w; ticks := ticks w;
          trace := trace w ++ [EvCompareAndSwap key val buck] |}) ∧
  ((0 < n)%nat →
   (run_alone clock 4 (TSwap key n val buck) w).1 = TDone true ∧
   m (lim (run_alone clock 4 (TSwap key n val buck) w).2) !! key
     = Some (spec_fresh (burstSize (lim w)) (clock (ticks w)))) ∧
  (n = O →
   (run_alone clock 4 (TSwap key n val buck) w).1 = TDone false ∧
   m (lim (run_alone clock 4 (TSwap key n val buck) w).2) !! key = None).
Proof.
  intros Hburst Hk. destruct w as [l k tr]. cbn [lim ticks trace] in *.
  assert (Hs : thread_step clock (TSwap key n val buck)
                 {| lim := l; ticks := k; trace := tr |}
               = (TLoop key n,
                  {| lim := l; ticks := k;
                     trace := tr ++ [EvCompareAndSwap key val buck] |})).
  { unfold thread_step, CompareAndSwap, log, get_limiter, mbind, M_bind,
      mret, M_ret. cbn [lim]. by rewrite Hk. }
  split; [done|]. split.
  - intros Hn. destruct n as [|n]; [lia|].
    assert (Hrun : run_alone clock 4 (TSwap key (S n) val buck)
                     {| lim := l; ticks := k; trace := tr |}
                   = (TDone true,
                      {| lim := with_map l (<[key := fresh l (clock k)]> (m l));
                         ticks := S k;
                         trace := ((tr ++ [EvCompareAndSwap key val buck])
                                     ++ [EvLoad key])
                                    ++ [EvLoadOrStore key (fresh l (clock k))] |})).
    { rewrite run_alone_step, Hs by done. cbn [fst snd].
      rewrite run_alone_step by done.
      unfold thread_step at 1 2, now, mbind, M_bind, mret, M_ret.
      cbn [fst snd lim ticks trace].
      rewrite run_alone_step by done.
      unfold thread_step at 1 2, Load, log, get_limiter, mbind, M_bind, mret, M_ret.
      cbn [fst snd lim ticks trace]. rewrite Hk.
      rewrite run_alone_step by done.
      unfold thread_step at 1 2, LoadOrStore, log, get_limiter, put_map, mbind,
        M_bind, mret, M_ret.
      cbn [fst snd lim ticks trace]. rewrite Hk. cbn [fst snd].
      by rewrite run_alone_done. }
    rewrite Hrun. cbn [fst snd lim with_map m].
    split; [done|]. rewrite lookup_insert_eq.
    unfold fresh, spec_fresh. by rewrite wrap_small by lia.
  - intros ->.
    assert (Hrun : run_alone clock 4 (TSwap key 0 val buck)
                     {| lim := l; ticks := k; trace := tr |}
                   = (TDone false,
                      {| lim := l; ticks := k;
                         trace := tr ++ [EvCompareAndSwap key val buck] |})).
    { rewrite run_alone_step, Hs by done. cbn [fst snd].
      rewrite run_alone_step by done.
      unfold thread_step at 1 2, mret, M_ret. cbn [fst snd].
      by rewrite run_alone_done. }
    rewrite Hrun. cbn [fst snd lim]. done.
Qed.

End WaitFree.

(** ** A pass of the sweeper *)

Section Sweep.

Variable clock : nat → Time.

Lemma run_sweeper_step fuel sw w :
  run_sweeper clock (S fuel) sw w
  = match (sweeper_step clock sw w).1 with
    | SwSelect | SwReturned => sweeper_step clock sw w
    | sw' => run_sweeper clock fuel sw' (sweeper_step clock sw w).2
    end.
Proof.
  cbn [run_sweeper]. unfold mbind, M_bind.
  by destruct (sweeper_step clock sw w) as [[] ?].
Qed.

Lemma sweeper_step_range k0 rest w b :
  m (lim w) !! k0 = Some b →
  sweeper_step clock (SwRange (k0 :: rest)) w = (SwVisit k0 b rest, w).
Proof.
  intros Hb. unfold sweeper_step, get_limiter, mbind, M_bind, mret, M_ret.
  by rewrite Hb.
Qed.

Lemma run_sweeper_range t keys : ∀ fuel w,
  NoDup keys →
  (∀ k, k ∈ keys → is_Some (m (lim w) !! k)) →
  (∀ i, (ticks w ≤ i)%nat → clock i = t) →
  (3 * length keys + 1 ≤ fuel)%nat →
  (run_sweeper clock fuel (SwRange keys) w).1 = SwSelect ∧
  same_settings (lim w) (lim (run_sweeper clock fuel (SwRange keys) w).2) ∧
  (ticks w ≤ ticks (run_sweeper clock fuel (SwRange keys) w).2)%nat ∧
  ∀ k, m (lim (run_sweeper clock fuel (SwRange keys) w).2) !! k
       = if decide (k ∈ keys) then swept t (m (lim w) !! k) else m (lim w) !! k.
Proof.
  induction keys as [|k0 rest IH]; intros fuel w Hnd Hin Hclock Hfuel.
  - destruct fuel as [|fuel]; [simpl in Hfuel; lia|].
    cbn [run_sweeper]. unfold sweeper_step, mbind, M_bind, mret, M_ret.
    cbn [fst snd]. repeat split; done.
  - cbn [length] in Hfuel.
    do 3 (destruct fuel as [|fuel]; [lia|]).
    apply NoDup_cons in Hnd as [Hk0 Hnd].
    destruct (Hin k0) as [b Hb]; [by left|].
    destruct w as [l k tr]. cbn [lim ticks] in *.
    set (w3 := {| lim := with_map l (delete k0 (m l)); ticks := S k;
                  trace := tr ++ [EvDelete k0] |}).
    set (w2 := {| lim := l; ticks := S k; trace := tr |}).
    assert (Heq : run_sweeper clock (S (S (S fuel))) (SwRange (k0 :: rest))
                    {| lim := l; ticks := k; trace := tr |}
                  = if decide (Hour ≤ Sub t (lastActivity b))
                    then run_sweeper clock fuel (SwRange rest) w3
                    else run_sweeper clock (S fuel) (SwRange rest) w2).
    { rewrite run_sweeper_step, (sweeper_step_range k0 rest _ b) by done.
      cbn [fst snd]. rewrite run_sweeper_step.
      unfold sweeper_step at 1 2 3, now, mbind, M_bind, mret, M_ret.
      cbn [fst snd lim ticks trace]. rewrite (Hclock k) by lia.
      destruct (decide (Hour ≤ Sub t (lastActivity b))); [|done].
      by rewrite run_sweeper_step. }
    rewrite Heq. clear Heq.
    destruct (decide (Hour ≤ Sub t (lastActivity b))) as [Hidle|Hidle].
    + destruct (IH fuel w3) as (Hsel & Hset & Hticks & Hm); try done.
      { intros k' Hk'. cbn [w3 lim with_map m].
        rewrite lookup_delete_ne by (intros ->; done). apply Hin. by right. }
      { intros i Hi. apply Hclock. cbn [w3 ticks] in Hi. lia. }
      { lia. }
      split; [done|]. split; [done|]. split; [cbn [w3 ticks] in Hticks; lia|].
      intros k'. rewrite Hm. cbn [w3 lim with_map m].
      destruct (decide (k' = k0)) as [->|Hne].
      * rewrite decide_False by done. rewrite decide_True by (by left).
        rewrite lookup_delete_eq, Hb. cbn [swept]. by rewrite decide_True.
      * rewrite lookup_delete_ne by done.
        destruct (decide (k' ∈ rest)) as [Hr|Hr].
        -- rewrite decide_True by (by right). done.
        -- rewrite decide_False; [done|]. by intros [?|?]%elem_of_cons.
    + destruct (IH (S fuel) w2) as (Hsel & Hset & Hticks & Hm); try done.
      { intros k' Hk'. apply Hin. by right. }
      { intros i Hi. apply Hclock. cbn [w2 ticks] in Hi. lia. }
      { lia. }
      split; [done|]. split; [done|]. split; [cbn [w2 ticks] in Hticks; lia|].
      intros k'. rewrite Hm. cbn [w2 lim].
      destruct (decide (k' = k0)) as [->|Hne].
      * rewrite decide_False by done. rewrite decide_True by (by left).
        rewrite Hb. cbn [swept]. by rewrite decide_False.
      * destruct (decide (k' ∈ rest)) as [Hr|Hr].
        -- rewrite decide_True by (by right). done.
        -- rewrite decide_False; [done|]. by intros [?|?]%elem_of_cons.
Qed.

(** A whole pass ends back in [select], changes no setting, and leaves of
    each entry what [swept] says. *)
Lemma sweep_spec t w :
  (∀ i, (ticks w ≤ i)%nat → clock i = t) →
  (sweep clock w).1 = SwSelect ∧
  same_settings (lim w) (lim (sweep clock w).2) ∧
  (ticks w ≤ ticks (sweep clock w).2)%nat ∧
  ∀ k, m (lim (sweep clock w).2) !! k = swept t (m (lim w) !! k).
Proof.
  intros Hclock. unfold sweep.
  replace (3 * size (m (lim w)) + 2)%nat with (S (3 * size (m (lim w)) + 1)) by lia.
  cbn [run_sweeper].
  unfold sweeper_step at 1 2 3 4, log, get_limiter, mbind, M_bind, mret, M_ret.
  cbn [lim].
  set (w1 := {| lim := lim w; ticks := ticks w; trace := trace w ++ [EvRange] |}).
  destruct (run_sweeper_range t (map_to_list (m (lim w))).*1
              (3 * size (m (lim w)) + 1) w1) as (Hsel & Hset & Hticks & Hm).
  - apply NoDup_fst_map_to_list.
  - intros k Hk. apply list_elem_of_fmap in Hk as [[k' b] [-> Hkb]].
    apply elem_of_map_to_list in Hkb. by exists b.
  - done.
  - rewrite length_fmap, length_map_to_list. lia.
  - split; [done|]. split; [done|]. split; [done|].
    intros k. rewrite Hm. cbn [w1 lim]. case_decide as Hk; [done|].
    destruct (m (lim w) !! k) as [b|] eqn:Hb; [|done].
    exfalso. apply Hk. apply list_elem_of_fmap. exists (k, b).
    split; [done|]. by apply elem_of_map_to_list.
Qed.

End Sweep.

(** ** Eviction and the calls around it *)

Section Eviction.

Context {arch : Arch}.
Variable clock : nat → Time.

(** X8.  A pass of the sweeper that runs undisturbed while the clock reads
    [t] ends back in [select] and removes exactly the idle keys: a key whose
    [lastActivity] lies an hour or more before [t] is gone, a key active
    within the hour keeps its bucket unchanged, and no key is added. *)
Theorem sweep_removes_exactly_idle_keys (t : Time) (w : world) (key : string)
    (buck : bucket) :
  (∀ i, (ticks w ≤ i)%nat → clock i = t) →
  m (lim w) !! key = Some buck →
  (sweep clock w).1 = SwSelect ∧
  (Hour ≤ Sub t (lastActivity buck) →
   m (lim (sweep clock w).2) !! key = None) ∧
  (Sub t (lastActivity buck) < Hour →
   m (lim (sweep clock w).2) !! key = Some buck) ∧
  (∀ k, m (lim w) !! k = None → m (lim (sweep clock w).2) !! k = None).
Proof.
  intros Hclock Hk.
  destruct (sweep_spec clock t w Hclock) as (Hsel & _ & _ & Hm).
  split; [done|]. repeat split.
  - intros Hidle. rewrite Hm, Hk. cbn [swept]. by rewrite decide_True.
  - intros Hfresh. rewrite Hm, Hk. cbn [swept]. rewrite decide_False; [done|lia].
  - intros k Hnone. by rewrite Hm, Hnone.
Qed.

(** X9.  Eviction resets a key: after a pass of the sweeper has removed an
    idle key, the next call of [Allow] for it is allowed, whatever tokens
    the old bucket held, and stores a fresh bucket of [burstSize - 1]
    tokens stamped with the current time. *)
Theorem evicted_key_starts_afresh (t : Time) (w : world) (key : string)
    (buck : bucket) :
  (∀ i, (ticks w ≤ i)%nat → clock i = t) →
  1 ≤ burstSize (lim w) ≤ MaxUint →
  m (lim w) !! key = Some buck →
  Hour ≤ Sub t (lastActivity buck) →
  (Allow clock key (sweep clock w).2).1 = true ∧
  m (lim (Allow clock key (sweep clock w).2).2) !! key
    = Some (spec_fresh (burstSize (lim w)) t).
Proof.
  intros Hclock Hburst Hk Hidle.
  destruct (sweep_spec clock t w Hclock) as (_ & (_ & Hb & _) & Hticks & Hm).
  assert (Hgone : m (lim (sweep clock w).2) !! key = None).
  { rewrite Hm, Hk. cbn [swept]. by rewrite decide_True. }
  rewrite Allow_unfold, decide_False by lia. change maxCASRetries with (S 99).
  rewrite (Allow_loop_absent _ _ _ _ Hgone). cbn [fst snd lim with_map m].
  split; [done|]. rewrite lookup_insert_eq. f_equal.
  unfold fresh, spec_fresh. rewrite Hb, wrap_small by lia.
  by rewrite (Hclock _ Hticks).
Qed.

Lemma Allow_denied_lim key w :
  (Allow clock key w).1 = false → lim (Allow clock key w).2 = lim w.
Proof.
  rewrite Allow_unfold. case_decide; [done|].
  change maxCASRetries with (S 99).
  destruct (m (lim w) !! key) as [val|] eqn:Hk.
  - rewrite (Allow_loop_present _ _ _ _ val Hk). cbv zeta. by case_decide.
  - by rewrite (Allow_loop_absent _ _ _ _ Hk).
Qed.

Lemma Allow_many_S calls key w :
  Allow_many clock (S calls) key w
  = ((Allow clock key w).1 :: (Allow_many clock calls key (Allow clock key w).2).1,
     (Allow_many clock calls key (Allow clock key w).2).2).
Proof.
  cbn [Allow_many]. unfold mbind, M_bind, mret, M_ret.
  destruct (Allow clock key w) as [v w1]. cbn [fst snd].
  by destruct (Allow_many clock calls key w1).
Qed.

Lemma Allow_many_denied_lim calls : ∀ key w,
  (Allow_many clock calls key w).1 = replicate calls false →
  lim (Allow_many clock calls key w).2 = lim w.
Proof.
  induction calls as [|calls IH]; intros key w; [done|].
  rewrite Allow_many_S. cbn [fst snd replicate]. intros [= Hv Hvs].
  etrans; [by apply IH|by apply Allow_denied_lim].
Qed.

(** X10.  Denied calls do not keep a key alive.  However many calls of
    [Allow] for a key are denied, its bucket, and with it [lastActivity],
    stays as it was; so a key that was idle for an hour is still removed by
    the next pass of the sweeper, denied calls in between or not. *)
Theorem denied_calls_do_not_keep_key_alive (t : Time) (w : world) (key : string)
    (buck : bucket) (calls : nat) :
  m (lim w) !! key = Some buck →
  (Allow_many clock calls key w).1 = replicate calls false →
  (∀ i, (ticks (Allow_many clock calls key w).2 ≤ i)%nat → clock i = t) →
  Hour ≤ Sub t (lastActivity buck) →
  m (lim (Allow_many clock calls key w).2) !! key = Some buck ∧
  m (lim (sweep clock (Allow_many clock calls key w).2).2) !! key = None.
Proof.
  intros Hk Hden Hclock Hidle.
  pose proof (Allow_many_denied_lim calls key w Hden) as Hlim.
  assert (Hk' : m (lim (Allow_many clock calls key w).2) !! key = Some buck)
    by (by rewrite Hlim).
  split; [done|].
  destruct (sweep_spec clock t _ Hclock) as (_ & _ & _ & Hm).
  rewrite Hm, Hk'. cbn [swept]. by rewrite decide_True.
Qed.

(** X11.  An allowed call keeps its key alive: the bucket written by an
    allowed call of [Allow] is stamped with a clock reading of that call, so
    a pass of the sweeper that runs less than an hour after those readings
    leaves the bucket in the map unchanged. *)
Theorem allowed_key_survives_sweep (t : Time) (w : world) (key : string) :
  (Allow clock key w).1 = true →
  (∀ i, (ticks (Allow clock key w).2 ≤ i)%nat → clock i = t) →
  t - clock (ticks w) < Hour → t - clock (S (ticks w)) < Hour →
  ∃ buck,
    m (lim (Allow clock key w).2) !! key = Some buck ∧
    m (lim (sweep clock (Allow clock key w).2).2) !! key = Some buck.
Proof.
  intros Hv Hclock H1 H2.
  assert (Hb : ∃ buck, m (lim (Allow clock key w).2) !! key = Some buck ∧
                 (lastActivity buck = clock (ticks w) ∨
                  lastActivity buck = clock (S (ticks w)))).
  { revert Hv. rewrite Allow_unfold. case_decide; [done|].
    change maxCASRetries with (S 99).
    destruct (m (lim w) !! key) as [val|] eqn:Hk.
    - rewrite (Allow_loop_present _ _ _ _ val Hk). cbv zeta.
      case_decide; [|done]. intros _. cbn [snd lim with_map m].
      rewrite lookup_insert_eq. eexists. split; [done|]. by right.
    - rewrite (Allow_loop_absent _ _ _ _ Hk). intros _. cbn [snd lim with_map m].
      rewrite lookup_insert_eq. eexists. split; [done|]. by left. }
  destruct Hb as (buck & Hk & Hact). exists buck. split; [done|].
  destruct (sweep_spec clock t _ Hclock) as (_ & _ & _ & Hm).
  rewrite Hm, Hk. cbn [swept]. rewrite decide_False; [done|].
  unfold Sub, minDuration, maxDuration, Hour, Minute, Second in *.
  destruct Hact as [-> | ->]; lia.
Qed.

End Eviction.

(** ** After [Close] *)

Section AfterShutdown.

Context {arch : Arch}.
Variable clock : nat → Time.

(** X12.  [Close] does not stop the limiter from answering: [Allow] never
    reads [done], so on a closed limiter a call gives the same verdict and
    leaves the same map as on the open one, and the channel stays closed. *)
Theorem closed_limiter_still_allows (key : string) (w : world) (r' : rateLimiter) :
  Close (lim w) = Returned r' →
  (Allow clock key (with_done w r')).1 = (Allow clock key w).1 ∧
  m (lim (Allow clock key (with_done w r')).2) = m (lim (Allow clock key w).2) ∧
  done (lim (Allow clock key (with_done w r')).2) = ChanClosed.
Proof.
  intros Hc. unfold Close in Hc. destruct (done (lim w)) eqn:Hd; [|done].
  injection Hc as <-. rewrite !Allow_unfold. cbn [with_done lim burstSize].
  case_decide; [done|]. change maxCASRetries with (S 99).
  destruct (m (lim w) !! key) as [val|] eqn:Hk.
  - rewrite (Allow_loop_present _ _ _ _ val Hk).
    rewrite (Allow_loop_present _ _ _ _ val); [|done]. cbv zeta.
    cbn [with_done lim ticks trace m].
    rewrite (refill_settings (lim w)) by done.
    case_decide; cbn [fst snd lim with_map m done]; done.
  - rewrite (Allow_loop_absent _ _ _ _ Hk).
    rewrite Allow_loop_absent; [|done].
    unfold fresh. cbn [with_done fst snd lim ticks with_map m done burstSize]. done.
Qed.

Lemma sys_step_returned cfg cfg' key :
  evictor cfg = SwReturned → sys_step clock cfg cfg' →
  evictor cfg' = SwReturned ∧
  (is_Some (m (lim (shared cfg)) !! key) →
   is_Some (m (lim (shared cfg')) !! key)).
Proof.
  intros Hev Hstep.
  destruct Hstep as [cfg k|cfg i th th' w' Hi Hst|cfg sw' w' Hst|cfg Hsel Hdone|cfg r' Hclose];
    cbn [shared evictor].
  - done.
  - split; [done|]. intros Hs.
    pose proof (thread_step_keeps_keys clock th (shared cfg) key Hs) as Hk.
    by rewrite Hst in Hk.
  - rewrite Hev in Hst. unfold sweeper_step, mret, M_ret in Hst.
    by injection Hst as <- <-.
  - congruence.
  - unfold Close in Hclose. destruct (done (lim (shared cfg))); [|done].
    by injection Hclose as <-.
Qed.

(** X13.  Once the sweeper goroutine has returned nothing evicts any more:
    in every later state of the system, whatever calls arrive and run, the
    sweeper is still gone and every key that was in the map is still
    there. *)
Theorem no_eviction_after_sweeper_returned (cfg cfg' : config) (key : string) :
  evictor cfg = SwReturned →
  rtc (sys_step clock) cfg cfg' →
  is_Some (m (lim (shared cfg)) !! key) →
  evictor cfg' = SwReturned ∧ is_Some (m (lim (shared cfg')) !! key).
Proof.
  intros Hev Hrun Hs. revert cfg' Hrun.
  apply (rtc_ind_r (λ c, evictor c = SwReturned ∧ is_Some (m (lim (shared c)) !! key)));
    [done|].
  intros y z _ Hyz [Hy Hsy].
  destruct (sys_step_returned y z key Hy Hyz) as [Hz Hk]. auto.
Qed.

Lemma sys_step_done_closed cfg cfg' :
  (evictor cfg = SwReturned → done (lim (shared cfg)) = ChanClosed) →
  sys_step clock cfg cfg' →
  evictor cfg' = SwReturned → done (lim (shared cfg')) = ChanClosed.
Proof.
  intros Hinv Hstep.
  destruct Hstep as [cfg k|cfg i th th' w' Hi Hst|cfg sw' w' Hst|cfg Hsel Hdone|cfg r' Hclose];
    cbn [shared evictor].
  - done.
  - pose proof (thread_step_settings clock th (shared cfg)) as (_ & _ & Hd).
    rewrite Hst in Hd. cbn [snd] in Hd. by rewrite Hd.
  - assert (Hd : done (lim w') = done (lim (shared cfg)) ∧
                 (sw' = SwReturned → evictor cfg = SwReturned)).
    { destruct (shared cfg) as [l k tr].
      destruct (evictor cfg) as [|[|key rest]|key buck rest|key rest|];
        unfold sweeper_step, Delete, now, log, get_limiter, put_map,
          mbind, M_bind, mret, M_ret in Hst;
        cbn [lim ticks trace] in Hst; injection Hst as <- <-;
        cbn [lim with_map done]; try done.
      - by destruct (m l !! key).
      - by case_decide. }
    destruct Hd as [Hd Hsw]. rewrite Hd. auto.
  - done.
  - unfold Close in Hclose. destruct (done (lim (shared cfg))); [|done].
    by injection Hclose as <-.
Qed.

(** X14.  Only [Close] stops the sweeper: in every state the system can
    reach from a limiter returned by [New], a sweeper goroutine that has
    returned means that the [done] channel is closed. *)
Theorem sweeper_runs_until_close (rate : float64) (burst : Z) (r : rateLimiter)
    (cfg : config) :
  New rate burst = inr r →
  reachable clock r cfg →
  evictor cfg = SwReturned →
  done (lim (shared cfg)) = ChanClosed.
Proof.
  intros Hnew Hreach. unfold New in Hnew.
  destruct (validate rate burst); [done|]. injection Hnew as <-.
  revert cfg Hreach.
  apply (rtc_ind_r (λ c, evictor c = SwReturned → done (lim (shared c)) = ChanClosed));
    [done|].
  intros y z _ Hyz Hy. by apply (sys_step_done_closed y z).
Qed.

End AfterShutdown.

(** ** Rates that are not finite numbers *)

(** X15.  [validate] on the special values of float64, for every burst
    size: a rate of +Inf is refused as an overflow, a rate of -Inf as
    negative, and a NaN rate passes all three comparisons, so that [New]
    returns a limiter for it. *)
Theorem validate_special_values (burst : Z) :
  validate (S754_infinity false) burst
    = Some (errors_New "token rate limit overflow") ∧
  validate (S754_infinity true) burst
    = Some (errors_New "token rate should not be negative") ∧
  validate S754_nan burst = None ∧
  New S754_nan burst
    = inr {| tokenRate := S754_nan; burstSize := burst; m := ∅; done := ChanOpen |}.
Proof.
  split; [done|]. split; [done|].
  assert (Hnan : validate S754_nan burst = None).
  { unfold validate. cbn [ltb SFltb SFcompare mul SFmul gtb].
    destruct (div (of_Z (wrap (MaxUint - burst))) (of_Z 5000)); done. }
  split; [done|]. unfold New. by rewrite Hnan.
Qed.

(** ** The further theorems at concrete inputs *)

Lemma zero_rate_never_overspends_witness :
  1 ≤ 2 ≤ MaxUint ∧ New zero 2 = inr zero_two ∧
  Z.of_nat (allowed (@exec amd64 still_clock five_calls
                       (concurrent_calls zero_two 5 "key"))) ≤ 2 ∧
  allowed (@exec amd64 still_clock five_calls
             (concurrent_calls zero_two 5 "key")) = 2%nat ∧
  denied (@exec amd64 still_clock five_calls
            (concurrent_calls zero_two 5 "key")) = 3%nat.
Proof.
  assert (H1 : 1 ≤ 2 ≤ MaxUint) by (by vm_compute).
  assert (H2 : New zero 2 = inr zero_two) by (by vm_compute).
  split; [exact H1|]. split; [exact H2|].
  split; [exact (proj1 (@zero_rate_never_overspends amd64 still_clock 2 zero_two
                          5 "key" five_calls H1 H2))|].
  split; by vm_compute.
Defined.

Lemma zero_rate_budget_is_per_key_witness :
  1 ≤ 2 ≤ MaxUint ∧ New zero 2 = inr zero_two ∧
  (@Allow_each amd64 still_clock mixed_keys (World zero_two O [])).1
    = budget_verdicts 2 [] mixed_keys ∧
  budget_verdicts 2 [] mixed_keys = [true; true; true; false; true].
Proof.
  assert (H1 : 1 ≤ 2 ≤ MaxUint) by (by vm_compute).
  assert (H2 : New zero 2 = inr zero_two) by (by vm_compute).
  split; [exact H1|]. split; [exact H2|].
  split; [exact (@zero_rate_budget_is_per_key amd64 still_clock 2 zero_two
                   mixed_keys H1 H2)|].
  by vm_compute.
Defined.

Lemma other_keys_untouched_witness :
  thread_key (TLoadOrStore "other" 99 spent_bucket) = Some "other" ∧
  "other" ≠ "key" ∧
  m (lim (@thread_step amd64 still_clock (TLoadOrStore "other" 99 spent_bucket)
            spent_world).2) !! "key" = Some spent_bucket ∧
  m (lim (@Allow amd64 still_clock "other" spent_world).2) !! "key"
    = Some spent_bucket.
Proof.
  assert (H1 : thread_key (TLoadOrStore "other" 99 spent_bucket) = Some "other")
    by reflexivity.
  assert (H2 : "other" ≠ "key") by discriminate.
  split; [exact H1|]. split; [exact H2|].
  exact (@other_keys_untouched amd64 still_clock
           (TLoadOrStore "other" 99 spent_bucket) "other" "key" spent_world H1 H2).
Defined.

Lemma calls_keep_keys_and_settings_witness :
  is_Some (m (lim spent_world) !! "key") ∧
  is_Some (m (lim (@Allow amd64 still_clock "other" spent_world).2) !! "key") ∧
  same_settings (lim spent_world)
    (lim (@Allow amd64 still_clock "other" spent_world).2).
Proof.
  assert (H1 : is_Some (m (lim spent_world) !! "key"))
    by (exists spent_bucket; reflexivity).
  split; [exact H1|].
  pose proof (@calls_keep_keys_and_settings amd64 still_clock (TEntry "other")
                "other" "key" spent_world H1) as (_ & Hk & _ & Hs).
  split; [exact Hk|exact Hs].
Defined.


Lemma swap_after_eviction_retries_afresh_witness :
  threads evicted_mid_call !! 1%nat
    = Some (TSwap "key" 99
              {| tokens := 9; lastRefill := 0; lastActivity := 0 |}
              {| tokens := 9; lastRefill := 2 * Hour; lastActivity := 2 * Hour |}) ∧
  1 ≤ burstSize (lim (shared evicted_mid_call)) ≤ MaxUint ∧
  m (lim (shared evicted_mid_call)) !! "key" = None ∧
  (@run_alone amd64 hour_clock 4
     (TSwap "key" 99
        {| tokens := 9; lastRefill := 0; lastActivity := 0 |}
        {| tokens := 9; lastRefill := 2 * Hour; lastActivity := 2 * Hour |})
     (shared evicted_mid_call)).1 = TDone true ∧
  m (lim (@run_alone amd64 hour_clock 4
            (TSwap "key" 99
               {| tokens := 9; lastRefill := 0; lastActivity := 0 |}
               {| tokens := 9; lastRefill := 2 * Hour; lastActivity := 2 * Hour |})
            (shared evicted_mid_call)).2) !! "key"
    = Some (spec_fresh (burstSize (lim (shared evicted_mid_call)))
              (hour_clock (ticks (shared evicted_mid_call)))).
Proof.
  split; [vm_compute; reflexivity|].
  assert (H1 : 1 ≤ burstSize (lim (shared evicted_mid_call)) ≤ MaxUint)
    by (by vm_compute).
  assert (H2 : m (lim (shared evicted_mid_call)) !! "key" = None)
    by (vm_compute; reflexivity).
  assert (H3 : (0 < 99)%nat) by lia.
  split; [exact H1|]. split; [exact H2|].
  exact (proj1 (proj2 (@swap_after_eviction_retries_afresh amd64 hour_clock "key"
                         99 {| tokens := 9; lastRefill := 0; lastActivity := 0 |}
                         {| tokens := 9; lastRefill := 2 * Hour;
                            lastActivity := 2 * Hour |}
                         (shared evicted_mid_call) H1 H2)) H3).
Defined.

Lemma sweep_removes_exactly_idle_keys_witness :
  (∀ i, (ticks spent_world ≤ i)%nat → late_clock i = 2 * Hour) ∧
  m (lim spent_world) !! "key" = Some spent_bucket ∧
  Hour ≤ Sub (2 * Hour) (lastActivity spent_bucket) ∧
  (sweep late_clock spent_world).1 = SwSelect ∧
  m (lim (sweep late_clock spent_world).2) !! "key" = None.
Proof.
  assert (H1 : ∀ i, (ticks spent_world ≤ i)%nat → late_clock i = 2 * Hour)
    by (intros i _; reflexivity).
  assert (H2 : m (lim spent_world) !! "key" = Some spent_bucket) by reflexivity.
  assert (H3 : Hour ≤ Sub (2 * Hour) (lastActivity spent_bucket))
    by (by vm_compute).
  split; [exact H1|]. split; [exact H2|]. split; [exact H3|].
  pose proof (sweep_removes_exactly_idle_keys late_clock (2 * Hour) spent_world
                "key" spent_bucket H1 H2) as (Hsel & Hidle & _).
  split; [exact Hsel|exact (Hidle H3)].
Defined.

Lemma evicted_key_starts_afresh_witness :
  (∀ i, (ticks spent_world ≤ i)%nat → late_clock i = 2 * Hour) ∧
  1 ≤ burstSize (lim spent_world) ≤ MaxUint ∧
  m (lim spent_world) !! "key" = Some spent_bucket ∧
  Hour ≤ Sub (2 * Hour) (lastActivity spent_bucket) ∧
  (@Allow amd64 late_clock "key" spent_world).1 = false ∧
  (@Allow amd64 late_clock "key" (sweep late_clock spent_world).2).1 = true.
Proof.
  assert (H1 : ∀ i, (ticks spent_world ≤ i)%nat → late_clock i = 2 * Hour)
    by (intros i _; reflexivity).
  assert (H2 : 1 ≤ burstSize (lim spent_world) ≤ MaxUint)
    by (by vm_compute).
  assert (H3 : m (lim spent_world) !! "key" = Some spent_bucket) by reflexivity.
  assert (H4 : Hour ≤ Sub (2 * Hour) (lastActivity spent_bucket))
    by (by vm_compute).
  split; [exact H1|]. split; [exact H2|]. split; [exact H3|]. split; [exact H4|].
  split; [by vm_compute|].
  exact (proj1 (@evicted_key_starts_afresh amd64 late_clock (2 * Hour) spent_world
                  "key" spent_bucket H1 H2 H3 H4)).
Defined.

Lemma denied_calls_do_not_keep_key_alive_witness :
  m (lim spent_world) !! "key" = Some spent_bucket ∧
  (@Allow_many amd64 late_clock 3 "key" spent_world).1 = replicate 3 false ∧
  Hour ≤ Sub (2 * Hour) (lastActivity spent_bucket) ∧
  m (lim (@Allow_many amd64 late_clock 3 "key" spent_world).2) !! "key"
    = Some spent_bucket ∧
  m (lim (sweep late_clock (@Allow_many amd64 late_clock 3 "key" spent_world).2).2)
    !! "key" = None.
Proof.
  assert (H1 : m (lim spent_world) !! "key" = Some spent_bucket) by reflexivity.
  assert (H2 : (@Allow_many amd64 late_clock 3 "key" spent_world).1
               = replicate 3 false) by (by vm_compute).
  assert (H3 : ∀ i, (ticks (@Allow_many amd64 late_clock 3 "key" spent_world).2
                     ≤ i)%nat → late_clock i = 2 * Hour)
    by (intros i _; reflexivity).
  assert (H4 : Hour ≤ Sub (2 * Hour) (lastActivity spent_bucket))
    by (by vm_compute).
  split; [exact H1|]. split; [exact H2|]. split; [exact H4|].
  exact (@denied_calls_do_not_keep_key_alive amd64 late_clock (2 * Hour)
           spent_world "key" spent_bucket 3 H1 H2 H3 H4).
Defined.

Lemma allowed_key_survives_sweep_witness :
  (@Allow amd64 still_clock "key" (World ten_ten O [])).1 = true ∧
  ∃ buck,
    m (lim (@Allow amd64 still_clock "key" (World ten_ten O [])).2) !! "key"
      = Some buck ∧
    m (lim (sweep still_clock
              (@Allow amd64 still_clock "key" (World ten_ten O [])).2).2) !! "key"
      = Some buck.
Proof.
  assert (H1 : (@Allow amd64 still_clock "key" (World ten_ten O [])).1 = true)
    by (by vm_compute).
  assert (H2 : ∀ i, (ticks (@Allow amd64 still_clock "key" (World ten_ten O [])).2
                     ≤ i)%nat → still_clock i = 0)
    by (intros i _; reflexivity).
  assert (H3 : 0 - still_clock (ticks (World ten_ten O [])) < Hour)
    by (by vm_compute).
  assert (H4 : 0 - still_clock (S (ticks (World ten_ten O []))) < Hour)
    by (by vm_compute).
  split; [exact H1|].
  exact (@allowed_key_survives_sweep amd64 still_clock 0 (World ten_ten O [])
           "key" H1 H2 H3 H4).
Defined.

Lemma closed_limiter_still_allows_witness :
  Close (lim (World ten_ten O [])) = Returned ten_ten_closed ∧
  (@Allow amd64 still_clock "key" (World ten_ten_closed O [])).1
    = (@Allow amd64 still_clock "key" (World ten_ten O [])).1 ∧
  (@Allow amd64 still_clock "key" (World ten_ten_closed O [])).1 = true.
Proof.
  assert (H1 : Close (lim (World ten_ten O [])) = Returned ten_ten_closed)
    by reflexivity.
  split; [exact H1|].
  split; [|by vm_compute].
  exact (proj1 (@closed_limiter_still_allows amd64 still_clock "key"
                  (World ten_ten O []) ten_ten_closed H1)).
Defined.

Lemma no_eviction_after_sweeper_returned_witness :
  evictor unswept = SwReturned ∧
  rtc (@sys_step amd64 late_clock) unswept unswept_call ∧
  is_Some (m (lim (shared unswept)) !! "key") ∧
  evictor unswept_call = SwReturned ∧
  is_Some (m (lim (shared unswept_call)) !! "key").
Proof.
  assert (H1 : evictor unswept = SwReturned) by reflexivity.
  assert (H2 : rtc (@sys_step amd64 late_clock) unswept unswept_call)
    by (apply rtc_once; exact (@step_call amd64 late_clock unswept "key")).
  assert (H3 : is_Some (m (lim (shared unswept)) !! "key"))
    by (exists spent_bucket; reflexivity).
  split; [exact H1|]. split; [exact H2|]. split; [exact H3|].
  exact (@no_eviction_after_sweeper_returned amd64 late_clock unswept
           unswept_call "key" H1 H2 H3).
Defined.

Lemma sweeper_runs_until_close_witness :
  New (of_Z 10) 10 = inr ten_ten ∧
  @reachable amd64 still_clock ten_ten shut_down ∧
  evictor shut_down = SwReturned ∧
  done (lim (shared shut_down)) = ChanClosed.
Proof.
  assert (H1 : New (of_Z 10) 10 = inr ten_ten) by (by vm_compute).
  assert (H2 : @reachable amd64 still_clock ten_ten shut_down).
  { apply (rtc_l _ _ closing).
    - exact (@step_close amd64 still_clock (initial ten_ten) ten_ten_closed
               eq_refl).
    - apply rtc_once.
      exact (@step_sweeper_done amd64 still_clock closing eq_refl eq_refl). }
  assert (H3 : evictor shut_down = SwReturned) by reflexivity.
  split; [exact H1|]. split; [exact H2|]. split; [exact H3|].
  exact (@sweeper_runs_until_close amd64 still_clock (of_Z 10) 10 ten_ten
           shut_down H1 H2 H3).
Defined.
